(** * KaitaiStream: a shallow embedding of [src/kaitai-stream.ts]

    The stream runtime is embedded as explicit state passing over a record
    with the fields of the TypeScript class.  JavaScript numbers that hold
    integers are modelled by [Z]; the 32-bit behaviour of the bitwise
    operators ([ToInt32], [ToUint32], shift counts taken modulo 32) is
    written out, and so is the rounding to double precision of the
    arithmetic of the 64-bit readers, the only one that leaves the range
    in which doubles are exact.  A [throw] is a result that carries the
    error together with the stream as the throwing statement left it. *)

From Stdlib Require Import ZArith List Bool Lia.
From Stdlib Require Import Uint63 PrimFloat.
Import ListNotations.
Local Open Scope Z_scope.

(** ** JavaScript 32-bit integer operators *)

Module Js.

(** [ToInt32]: reduce modulo 2^32 into [-2^31, 2^31). *)
Definition toInt32 (x : Z) : Z := (x + 2 ^ 31) mod 2 ^ 32 - 2 ^ 31.

(** [ToUint32]: reduce modulo 2^32 into [0, 2^32). *)
Definition toUint32 (x : Z) : Z := x mod 2 ^ 32.

(** The shift count of [<<], [>>] and [>>>] is [ToUint32 count & 0x1F]. *)
Definition shiftCount (n : Z) : Z := toUint32 n mod 32.

(** [a & b] *)
Definition and (a b : Z) : Z := Z.land (toInt32 a) (toInt32 b).

(** [a | b] *)
Definition or (a b : Z) : Z := Z.lor (toInt32 a) (toInt32 b).

(** [a ^ b] *)
Definition xor (a b : Z) : Z := Z.lxor (toInt32 a) (toInt32 b).

(** [a << n] *)
Definition shl (a n : Z) : Z := toInt32 (Z.shiftl (toInt32 a) (shiftCount n)).

(** [a >> n] (sign-propagating) *)
Definition sar (a n : Z) : Z := Z.shiftr (toInt32 a) (shiftCount n).

(** [a >>> n] (zero-fill, unsigned result) *)
Definition shr (a n : Z) : Z := Z.shiftr (toUint32 a) (shiftCount n).

(** [Math.ceil(x / 8)] for an integer [x]. *)
Definition ceilDiv8 (x : Z) : Z := - ((- x) / 8).

(** Storing a number into a [Uint8Array] element keeps its low 8 bits. *)
Definition toUint8 (x : Z) : Z := x mod 256.

End Js.

(** ** JavaScript arithmetic on integer-valued numbers *)

Module JsNumber.

(** The double nearest to the integer [x], ties to the even significand
    (IEEE 754 binary64, round to nearest even): an integer of more than
    53 bits keeps its 53 leading bits.  The integers met here are far
    below 2^1024, so the result is finite. *)
Definition round (x : Z) : Z :=
  let a := Z.abs x in
  let e := Z.log2 a - 52 in
  if e <=? 0 then x
  else
    let q := a / 2 ^ e in
    let r := a mod 2 ^ e in
    let half := 2 ^ (e - 1) in
    let up := (half <? r) || ((half =? r) && Z.odd q) in
    Z.sgn x * ((if up then q + 1 else q) * 2 ^ e).

(** [a + b], [a - b], [a * b] and [-a] on numbers holding integers. *)
Definition add (a b : Z) : Z := round (a + b).
Definition sub (a b : Z) : Z := round (a - b).
Definition mul (a b : Z) : Z := round (a * b).
Definition neg (a : Z) : Z := - a.

End JsNumber.

(** ** Numbers that may be non-finite (for [seek]) *)

(** A JavaScript number as [seek] may receive it.  Finite arguments are
    restricted to integers: stream positions are byte offsets. *)
Inductive number : Type :=
| NaN
| PosInfinity
| NegInfinity
| Num (z : Z).

Definition Math_min (a b : number) : number :=
  match a, b with
  | NaN, _ | _, NaN => NaN
  | NegInfinity, _ | _, NegInfinity => NegInfinity
  | PosInfinity, x | x, PosInfinity => x
  | Num x, Num y => Num (Z.min x y)
  end.

Definition Math_max (a b : number) : number :=
  match a, b with
  | NaN, _ | _, NaN => NaN
  | PosInfinity, _ | _, PosInfinity => PosInfinity
  | NegInfinity, x | x, NegInfinity => x
  | Num x, Num y => Num (Z.max x y)
  end.

Definition isNaN (a : number) : bool :=
  match a with NaN => true | _ => false end.

Definition isFinite (a : number) : bool :=
  match a with Num _ => true | _ => false end.

(** ** The stream *)

(** The fields of [class KaitaiStream].  [_buffer] is the content of the
    backing [ArrayBuffer].  [_dataView] is a [DataView] on [_buffer] that
    reaches to the end of it, given here by its [byteOffset]: the setters
    build it as [new DataView(_buffer, _byteOffset)], but the constructor
    moves [_byteOffset] afterwards when it is given a typed-array view
    together with a [byteOffset]. *)
Record KaitaiStream : Type := mkStream {
  _buffer : list Z;
  _byteOffset : Z;
  _byteLength : Z;
  bitsLeft : Z;
  bits : Z;
  pos : Z;
  _dataView : Z
}.

Definition set_pos (s : KaitaiStream) (p : Z) : KaitaiStream :=
  mkStream (_buffer s) (_byteOffset s) (_byteLength s) (bitsLeft s) (bits s) p
           (_dataView s).

Definition set_bits (s : KaitaiStream) (b : Z) : KaitaiStream :=
  mkStream (_buffer s) (_byteOffset s) (_byteLength s) (bitsLeft s) b (pos s)
           (_dataView s).

Definition set_bitsLeft (s : KaitaiStream) (n : Z) : KaitaiStream :=
  mkStream (_buffer s) (_byteOffset s) (_byteLength s) n (bits s) (pos s)
           (_dataView s).

(** [new KaitaiStream(arrayBuffer, byteOffset)] for an [ArrayBuffer]
    argument: the [buffer] setter, which builds the [DataView] at
    [_byteOffset], then [pos = 0] and [alignToByte()]. *)
Definition newStream (arrayBuffer : list Z) (byteOffset : Z) : KaitaiStream :=
  mkStream arrayBuffer byteOffset (Z.of_nat (length arrayBuffer)) 0 0 0 byteOffset.

(** [get size()] *)
Definition size (s : KaitaiStream) : Z := _byteLength s - _byteOffset s.

(** ** Errors and the reader monad *)

Inductive error : Type :=
| EOFError (bytesRequired bytesAvailable : Z)
| UnexpectedDataError (expected actual : list Z)
| BitLengthError (n : Z)             (* the [Error] thrown for [n > 32] *)
| NoTerminatorError (terminator : Z) (* the string thrown by [readBytesTerm] *)
| RangeError.          (* [DataView] getters, the [Uint8Array] constructor *)

Inductive result (A : Type) : Type :=
| Ok (a : A) (s : KaitaiStream)
| Throw (e : error) (s : KaitaiStream).
Arguments Ok {A} a s.
Arguments Throw {A} e s.

Definition M (A : Type) : Type := KaitaiStream -> result A.

Definition ret {A} (a : A) : M A := fun s => Ok a s.

Definition bind {A B} (m : M A) (f : A -> M B) : M B :=
  fun s => match m s with
           | Ok a s' => f a s'
           | Throw e s' => Throw e s'
           end.

Definition throw {A} (e : error) : M A := fun s => Throw e s.

Definition get : M KaitaiStream := fun s => Ok s s.

Definition modify (f : KaitaiStream -> KaitaiStream) : M unit :=
  fun s => Ok tt (f s).

Notation "x <- m ;; k" := (bind m (fun x => k))
  (at level 61, m at next level, right associativity).
Notation "m ;;; k" := (bind m (fun _ => k))
  (at level 61, right associativity).

(** ** Stream positioning *)

(** [isEof()] *)
Definition isEof (s : KaitaiStream) : bool :=
  (size s <=? pos s) && (bitsLeft s =? 0).

(** The integer held by a finite number; used under [isFinite] only. *)
Definition finiteValue (a : number) : Z :=
  match a with Num z => z | _ => 0 end.

(** [seek(pos)] *)
Definition seek (p : number) (s : KaitaiStream) : KaitaiStream :=
  let npos := Math_max (Num 0) (Math_min (Num (size s)) p) in
  set_pos s (if isNaN npos || negb (isFinite npos) then 0 else finiteValue npos).

(** [alignToByte()] *)
Definition alignToByte (s : KaitaiStream) : KaitaiStream :=
  set_bitsLeft (set_bits s 0) 0.

(** [ensureBytesLeft(length)] *)
Definition ensureBytesLeft (length : Z) : M unit :=
  fun s =>
    if pos s + length >? size s
    then Throw (EOFError length (size s - pos s)) s
    else Ok tt s.

(** ** Typed views on the buffer *)

(** The [len] bytes of [buf] from index [start]; [None] stands for the
    [RangeError] of an out-of-bounds [DataView] access or typed-array
    construction. *)
Definition slice (buf : list Z) (start len : Z) : option (list Z) :=
  if (start <? 0) || (len <? 0) || (Z.of_nat (length buf) <? start + len)
  then None
  else Some (firstn (Z.to_nat len) (skipn (Z.to_nat start) buf)).

(** The [n] bytes a [this._dataView.getXxx(this.pos)] call decodes. *)
Definition dataViewGet (n : Z) : M (list Z) :=
  fun s =>
    if pos s <? 0 then Throw RangeError s
    else match slice (_buffer s) (_dataView s + pos s) n with
         | Some bytes => Ok bytes s
         | None => Throw RangeError s
         end.

(** Big-endian and little-endian unsigned values of a byte sequence. *)
Definition beUint (bytes : list Z) : Z :=
  fold_left (fun acc b => acc * 256 + b) bytes 0.

Definition leUint (bytes : list Z) : Z := beUint (rev bytes).

(** Two's-complement reading of a [w]-bit unsigned value. *)
Definition asSigned (w : Z) (x : Z) : Z :=
  if 2 ^ (w - 1) <=? x then x - 2 ^ w else x.

(** [this.pos += n] *)
Definition advance (n : Z) : M unit := modify (fun s => set_pos s (pos s + n)).

(** The common shape of the fixed-width readers:
    [ensureBytesLeft(n); v = _dataView.getXxx(pos); pos += n; return v]. *)
Definition readFixed (n : Z) (decode : list Z -> Z) : M Z :=
  ensureBytesLeft n ;;;
  bytes <- dataViewGet n ;;
  advance n ;;;
  ret (decode bytes).

(** ** Integer readers *)

Definition readS1 : M Z := readFixed 1 (fun b => asSigned 8 (beUint b)).
Definition readS2be : M Z := readFixed 2 (fun b => asSigned 16 (beUint b)).
Definition readS4be : M Z := readFixed 4 (fun b => asSigned 32 (beUint b)).
Definition readS2le : M Z := readFixed 2 (fun b => asSigned 16 (leUint b)).
Definition readS4le : M Z := readFixed 4 (fun b => asSigned 32 (leUint b)).
Definition readU1 : M Z := readFixed 1 beUint.
Definition readU2be : M Z := readFixed 2 beUint.
Definition readU4be : M Z := readFixed 4 beUint.
Definition readU2le : M Z := readFixed 2 leUint.
Definition readU4le : M Z := readFixed 4 leUint.

(** The float readers have the same shape; the value is kept as the bit
    pattern that [getFloat32]/[getFloat64] decode. *)
Definition readF4be : M Z := readFixed 4 beUint.
Definition readF8be : M Z := readFixed 8 beUint.
Definition readF4le : M Z := readFixed 4 leUint.
Definition readF8le : M Z := readFixed 8 leUint.

(** The 64-bit readers combine two 32-bit halves with the arithmetic
    of JavaScript numbers, every operation rounded to a double.
    [combineU8 hi lo] is [0x100000000 * hi + lo]; [combineS8neg hi lo] is
    [-(0x100000000 * (hi ^ 0xffffffff) + (lo ^ 0xffffffff)) - 1]. *)
Definition combineU8 (hi lo : Z) : Z :=
  JsNumber.add (JsNumber.mul 0x100000000 hi) lo.

Definition combineS8neg (hi lo : Z) : Z :=
  JsNumber.sub
    (JsNumber.neg
       (JsNumber.add (JsNumber.mul 0x100000000 (Js.xor hi 0xffffffff))
                     (Js.xor lo 0xffffffff)))
    1.

Definition readS8be : M Z :=
  ensureBytesLeft 8 ;;;
  v1 <- readU4be ;;
  v2 <- readU4be ;;
  if negb (Js.and v1 0x80000000 =? 0)
  then ret (combineS8neg v1 v2)
  else ret (combineU8 v1 v2).

Definition readS8le : M Z :=
  ensureBytesLeft 8 ;;;
  v1 <- readU4le ;;
  v2 <- readU4le ;;
  if negb (Js.and v2 0x80000000 =? 0)
  then ret (combineS8neg v2 v1)
  else ret (combineU8 v2 v1).

Definition readU8be : M Z :=
  ensureBytesLeft 8 ;;;
  v1 <- readU4be ;;
  v2 <- readU4be ;;
  ret (combineU8 v1 v2).

Definition readU8le : M Z :=
  ensureBytesLeft 8 ;;;
  v1 <- readU4le ;;
  v2 <- readU4le ;;
  ret (combineU8 v2 v1).

(** ** Byte arrays *)

(** [mapUint8Array(length)] *)
Definition mapUint8Array (length : Z) : M (list Z) :=
  let length := Js.or length 0 in
  ensureBytesLeft length ;;;
  s <- get ;;
  match slice (_buffer s) (_byteOffset s + pos s) length with
  | None => throw RangeError
  | Some arr => advance length ;;; ret arr
  end.

(** [readBytes(len)] *)
Definition readBytes (len : Z) : M (list Z) := mapUint8Array len.

(** [readBytesFull()] *)
Definition readBytesFull : M (list Z) :=
  s <- get ;; mapUint8Array (size s - pos s).

(** The loop [for (i = 0; i < blen && u8[i] !== terminator; i++);] after
    [i] iterations, with [fuel] iterations left before [i] reaches [blen]
    and [u8] the elements from index [i] on.  An index past the end of the
    array reads [undefined], which differs from every terminator. *)
Fixpoint scanTerm (fuel : nat) (i : Z) (u8 : list Z) (terminator : Z) : Z :=
  match fuel with
  | O => i
  | S fuel' =>
      match u8 with
      | [] => scanTerm fuel' (i + 1) [] terminator
      | x :: rest =>
          if x =? terminator then i
          else scanTerm fuel' (i + 1) rest terminator
      end
  end.

(** [readBytesTerm(terminator, include, consume, eosError)] *)
Definition readBytesTerm (terminator : Z) (include consume eosError : bool)
  : M (list Z) :=
  s <- get ;;
  let blen := size s - pos s in
  let start := _byteOffset s + pos s in
  if (start <? 0) || (Z.of_nat (length (_buffer s)) <? start)
  then throw RangeError
  else
    let u8 := skipn (Z.to_nat start) (_buffer s) in
    let i := scanTerm (Z.to_nat blen) 0 u8 terminator in
    if i =? blen then
      if eosError then throw (NoTerminatorError terminator)
      else mapUint8Array i
    else
      arr <- (if include then mapUint8Array (i + 1) else mapUint8Array i) ;;
      (if consume then advance 1 else ret tt) ;;;
      ret arr.

(** The loop of [ensureFixedContents] from index [i] on: [true] when some
    [actual[i] !== expected[i]].  A missing [expected[i]] is [undefined]. *)
Fixpoint contentsDiffer (actual expected : list Z) : bool :=
  match actual with
  | [] => false
  | a :: actual' =>
      match expected with
      | [] => true
      | e :: expected' =>
          if a =? e then contentsDiffer actual' expected' else true
      end
  end.

(** [ensureFixedContents(expected)] *)
Definition ensureFixedContents (expected : list Z) : M (list Z) :=
  actual <- readBytes (Z.of_nat (length expected)) ;;
  if negb (Z.of_nat (length actual) =? Z.of_nat (length expected))
  then throw (UnexpectedDataError expected actual)
  else if contentsDiffer actual expected
  then throw (UnexpectedDataError expected actual)
  else ret actual.

(** ** Unaligned bit values *)

(** The loop of [readBitsIntBe]
    [for (i = 0; i < bytesNeeded; i++) { bits <<= 8; bits |= buf[i]; bitsLeft += 8; }]
    from index [i] on, with [fuel] iterations left. *)
Fixpoint fillBitsBe (fuel : nat) (i : Z) (buf : list Z) (s : KaitaiStream)
  : KaitaiStream :=
  match fuel with
  | O => s
  | S fuel' =>
      let s1 := set_bits s (Js.shl (bits s) 8) in
      let s2 := set_bits s1 (Js.or (bits s1) (nth (Z.to_nat i) buf 0)) in
      let s3 := set_bitsLeft s2 (bitsLeft s2 + 8) in
      fillBitsBe fuel' (i + 1) buf s3
  end.

(** The block [if (bitsNeeded > 0) { ... }] of [readBitsIntBe]. *)
Definition borrowBitsBe (n : Z) : M unit :=
  s <- get ;;
  let bitsNeeded := n - bitsLeft s in
  if bitsNeeded >? 0 then
    let bytesNeeded := Js.ceilDiv8 bitsNeeded in
    buf <- readBytes bytesNeeded ;;
    modify (fillBitsBe (Z.to_nat bytesNeeded) 0 buf)
  else ret tt.

(** The rest of [readBitsIntBe], from [let mask = ...] to [return res]. *)
Definition extractBitsBe (n : Z) : M Z :=
  s <- get ;;
  let mask := if n =? 32 then 0xffffffff else Js.shl 1 n - 1 in
  let shiftBits := bitsLeft s - n in
  let res := Js.and (Js.shr (bits s) shiftBits) mask in
  let s1 := set_bitsLeft s (bitsLeft s - n) in
  let mask' := Js.shl 1 (bitsLeft s1) - 1 in
  modify (fun _ => set_bits s1 (Js.and (bits s1) mask')) ;;;
  ret res.

(** [readBitsIntBe(n)] *)
Definition readBitsIntBe (n : Z) : M Z :=
  if n >? 32 then throw (BitLengthError n)
  else borrowBitsBe n ;;; extractBitsBe n.

(** The loop of [readBitsIntLe]
    [for (i = 0; i < bytesNeeded; i++) { bits |= buf[i] << bitsLeft; bitsLeft += 8; }]. *)
Fixpoint fillBitsLe (fuel : nat) (i : Z) (buf : list Z) (s : KaitaiStream)
  : KaitaiStream :=
  match fuel with
  | O => s
  | S fuel' =>
      let s1 :=
        set_bits s (Js.or (bits s) (Js.shl (nth (Z.to_nat i) buf 0) (bitsLeft s))) in
      let s2 := set_bitsLeft s1 (bitsLeft s1 + 8) in
      fillBitsLe fuel' (i + 1) buf s2
  end.

(** The block [if (bitsNeeded > 0) { ... }] of [readBitsIntLe]. *)
Definition borrowBitsLe (n : Z) : M unit :=
  s <- get ;;
  let bitsNeeded := n - bitsLeft s in
  if bitsNeeded >? 0 then
    let bytesNeeded := Js.ceilDiv8 bitsNeeded in
    buf <- readBytes bytesNeeded ;;
    modify (fillBitsLe (Z.to_nat bytesNeeded) 0 buf)
  else ret tt.

(** The rest of [readBitsIntLe], from [const mask = ...] to [return res]. *)
Definition extractBitsLe (n : Z) : M Z :=
  s <- get ;;
  let mask := if n =? 32 then 0xffffffff else Js.shl 1 n - 1 in
  let res := Js.and (bits s) mask in
  let s1 := set_bits s (Js.sar (bits s) n) in
  modify (fun _ => set_bitsLeft s1 (bitsLeft s1 - n)) ;;;
  ret res.

(** [readBitsIntLe(n)] *)
Definition readBitsIntLe (n : Z) : M Z :=
  if n >? 32 then throw (BitLengthError n)
  else borrowBitsLe n ;;; extractBitsLe n.

(** ** Byte array processing *)

(** The element [r[i]] that [processRotateLeft] stores for [data[i] = b]
    ([groupSize] is 1 past the guard, so [mask = groupSize * 8 - 1] is 7). *)
Definition rotateByte (amount : Z) (b : Z) : Z :=
  let mask := 1 * 8 - 1 in
  let antiAmount := Js.and (- amount) mask in
  Js.toUint8 (Js.or (Js.and (Js.shl b amount) 0xff) (Js.sar b antiAmount)).

(** [processRotateLeft(data, amount, groupSize)]; [None] is the string
    thrown for [groupSize !== 1]. *)
Definition processRotateLeft (data : list Z) (amount groupSize : Z)
  : option (list Z) :=
  if negb (groupSize =? 1) then None
  else Some (map (rotateByte amount) data).

(** ** The 64-bit signed combination in double precision *)

Module Double.

(** The double nearest to an integer below 2^63 in magnitude (exact for
    the 32-bit halves and for the results of the bitwise operators). *)
Definition ofZ (z : Z) : float :=
  match z with
  | Z0 => PrimFloat.zero
  | Zpos _ => PrimFloat.of_uint63 (Uint63.of_Z z)
  | Zneg _ => PrimFloat.opp (PrimFloat.of_uint63 (Uint63.of_Z (- z)))
  end.

(** The [return] expressions of [readS8le] on the halves [v1] (read
    first) and [v2], every arithmetic operation rounded as in IEEE 754
    binary64. *)
Definition combineS8le (v1 v2 : Z) : float :=
  if negb (Js.and v2 0x80000000 =? 0)
  then PrimFloat.sub
         (PrimFloat.opp
            (PrimFloat.add
               (PrimFloat.mul (ofZ 0x100000000) (ofZ (Js.xor v2 0xffffffff)))
               (ofZ (Js.xor v1 0xffffffff))))
         (ofZ 1)
  else PrimFloat.add (PrimFloat.mul (ofZ 0x100000000) (ofZ v2)) (ofZ v1).

End Double.

(** ** Vocabulary of the properties *)

(** Unfolding of the monad operations. *)
Ltac unfold_reader :=
  unfold advance in *; unfold bind, ret, throw, get, modify in *.

(** The integers [lo], [lo + 1], ..., [lo + count - 1]; finite case
    analyses are settled by evaluating over such a range. *)
Definition zrange (lo : Z) (count : nat) : list Z :=
  map (fun k => lo + Z.of_nat k) (seq 0 count).

(** The bit count the borrowing block leaves: the count before, plus 8
    for every byte read. *)
Definition bitsLeftBorrowed (n : Z) (s : KaitaiStream) : Z :=
  if n - bitsLeft s >? 0
  then bitsLeft s + 8 * Z.of_nat (Z.to_nat (Js.ceilDiv8 (n - bitsLeft s)))
  else bitsLeft s.

(** The elements of a byte array. *)
Definition isByte (b : Z) : Prop := 0 <= b < 256.

(** The reader operations of the class, as one type. *)
Inductive value : Type :=
| VUnit
| VNum (z : Z)
| VBytes (b : list Z).

Inductive readerOp : Type :=
| OpEnsureBytesLeft (n : Z)
| OpReadS1 | OpReadS2be | OpReadS4be | OpReadS8be
| OpReadS2le | OpReadS4le | OpReadS8le
| OpReadU1 | OpReadU2be | OpReadU4be | OpReadU8be
| OpReadU2le | OpReadU4le | OpReadU8le
| OpReadF4be | OpReadF8be | OpReadF4le | OpReadF8le
| OpReadBitsIntBe (n : Z)
| OpReadBitsIntLe (n : Z)
| OpReadBytes (len : Z)
| OpReadBytesFull
| OpReadBytesTerm (terminator : Z) (include consume eosError : bool)
| OpEnsureFixedContents (expected : list Z).

Definition fmap {A B} (f : A -> B) (m : M A) : M B := a <- m ;; ret (f a).

Definition runOp (op : readerOp) : M value :=
  match op with
  | OpEnsureBytesLeft n => fmap (fun _ => VUnit) (ensureBytesLeft n)
  | OpReadS1 => fmap VNum readS1
  | OpReadS2be => fmap VNum readS2be
  | OpReadS4be => fmap VNum readS4be
  | OpReadS8be => fmap VNum readS8be
  | OpReadS2le => fmap VNum readS2le
  | OpReadS4le => fmap VNum readS4le
  | OpReadS8le => fmap VNum readS8le
  | OpReadU1 => fmap VNum readU1
  | OpReadU2be => fmap VNum readU2be
  | OpReadU4be => fmap VNum readU4be
  | OpReadU8be => fmap VNum readU8be
  | OpReadU2le => fmap VNum readU2le
  | OpReadU4le => fmap VNum readU4le
  | OpReadU8le => fmap VNum readU8le
  | OpReadF4be => fmap VNum readF4be
  | OpReadF8be => fmap VNum readF8be
  | OpReadF4le => fmap VNum readF4le
  | OpReadF8le => fmap VNum readF8le
  | OpReadBitsIntBe n => fmap VNum (readBitsIntBe n)
  | OpReadBitsIntLe n => fmap VNum (readBitsIntLe n)
  | OpReadBytes len => fmap VBytes (readBytes len)
  | OpReadBytesFull => fmap VBytes readBytesFull
  | OpReadBytesTerm t i c e => fmap VBytes (readBytesTerm t i c e)
  | OpEnsureFixedContents expected => fmap VBytes (ensureFixedContents expected)
  end.

(** The failures of the stream itself: end of stream, a bit width above
    32, a missing terminator. *)
Definition isStreamFailure (e : error) : Prop :=
  match e with
  | EOFError _ _ | BitLengthError _ | NoTerminatorError _ => True
  | UnexpectedDataError _ _ | RangeError => False
  end.

(** [m] throws only from the state it was started in. *)
Definition failsClean {A} (m : M A) : Prop :=
  forall s e s', m s = Throw e s' -> s' = s.

(** [m], when it throws one of the stream failures, throws it from the
    state it was started in. *)
Definition streamFailsClean {A} (m : M A) : Prop :=
  forall s e s', m s = Throw e s' -> isStreamFailure e -> s' = s.

(** A stream as the constructor builds it over a buffer of fewer than
    2^31 bytes, with the cursor inside; its [DataView] starts at
    [_byteOffset], or before it when the constructor was given a view and
    a [byteOffset]. *)
Definition wellFormed (s : KaitaiStream) : Prop :=
  0 <= _byteOffset s /\ 0 <= pos s /\
  _byteLength s <= Z.of_nat (length (_buffer s)) /\
  Z.of_nat (length (_buffer s)) < 2 ^ 31 /\
  0 <= _dataView s <= _byteOffset s.


(** The first occurrence of [terminator] in [u8] is at index [k]. *)
Definition firstAt (terminator : Z) (u8 : list Z) (k : nat) : Prop :=
  nth_error u8 k = Some terminator /\
  forall j, (j < k)%nat -> nth_error u8 j <> Some terminator.

(** [1] for a set flag, [0] for a clear one. *)
Definition b2z (b : bool) : Z := if b then 1 else 0.

(** ** Byte array utilities *)

(** The loop [while (data[newLen - 1] === padByte) newLen -= 1] of
    [bytesStripRight], started at [newLen].  At [newLen = 0] the element
    [data[-1]] is [undefined] and the loop stops. *)
Fixpoint stripRightLen (data : list Z) (padByte : Z) (newLen : nat) : nat :=
  match newLen with
  | O => O
  | S n =>
      match nth_error data n with
      | Some x => if x =? padByte then stripRightLen data padByte n else newLen
      | None => newLen
      end
  end.

(** [bytesStripRight(data, padByte)] *)
Definition bytesStripRight (data : list Z) (padByte : Z) : list Z :=
  let newLen := stripRightLen data padByte (length data) in
  firstn newLen data.

(** [bytesTerminate(data, term, include)].  Its loop
    [while (newLen < maxLen && data[newLen] !== term) newLen += 1] is the
    scan of [readBytesTerm]. *)
Definition bytesTerminate (data : list Z) (term : Z) (include : bool) : list Z :=
  let maxLen := Z.of_nat (length data) in
  let newLen := scanTerm (length data) 0 data term in
  let newLen := if include && (newLen <? maxLen) then newLen + 1 else newLen in
  firstn (Z.to_nat newLen) data.

(** [processXorOne(data, key)] *)
Definition processXorOne (data : list Z) (key : Z) : list Z :=
  map (fun d => Js.toUint8 (Js.xor d key)) data.

(** The loop of [processXorMany] over the elements of [data] still to
    do, with the key index [ki].  A key index past the end of [key] reads
    [undefined], which [^] takes as 0. *)
Fixpoint xorManyFrom (data key : list Z) (ki : nat) : list Z :=
  match data with
  | [] => []
  | d :: rest =>
      let r := Js.toUint8 (Js.xor d (nth ki key 0)) in
      let ki := S ki in
      let ki := if (length key <=? ki)%nat then O else ki in
      r :: xorManyFrom rest key ki
  end.

(** [processXorMany(data, key)] *)
Definition processXorMany (data key : list Z) : list Z :=
  xorManyFrom data key 0.

(** ** Misc runtime operations *)

(** [mod(a, b)]; [None] is the thrown string ["mod divisor <= 0"].  On
    integers JavaScript's [%] is the remainder of the truncated division. *)
Definition mod_ (a b : Z) : option Z :=
  if b <=? 0 then None
  else
    let r := Z.rem a b in
    Some (if r <? 0 then r + b else r).

(** [arrayMin(arr)]; [None] is the [undefined] returned for an empty
    array. *)
Definition arrayMin (arr : list Z) : option Z :=
  match arr with
  | [] => None
  | a0 :: rest => Some (fold_left (fun min x => if x <? min then x else min) rest a0)
  end.

(** [arrayMax(arr)] *)
Definition arrayMax (arr : list Z) : option Z :=
  match arr with
  | [] => None
  | a0 :: rest => Some (fold_left (fun max x => if x >? max then x else max) rest a0)
  end.

(** The loop of [byteArrayCompare] over the common indices: the first
    non-zero [a[i] - b[i]], if any. *)
Fixpoint firstDifference (a b : list Z) : option Z :=
  match a, b with
  | x :: a', y :: b' =>
      let cmp := x - y in
      if negb (cmp =? 0) then Some cmp else firstDifference a' b'
  | _, _ => None
  end.

(** [byteArrayCompare(a, b)].  The shortcut [a === b] returns the 0 that
    the comparison of an array with itself computes anyway. *)
Definition byteArrayCompare (a b : list Z) : Z :=
  let al := Z.of_nat (length a) in
  let bl := Z.of_nat (length b) in
  match firstDifference a b with
  | Some cmp => cmp
  | None => if al =? bl then 0 else al - bl
  end.

(** ** Vocabulary of the further properties *)

(** The key index after one step of [processXorMany]. *)
Definition nextKeyIndex (key : list Z) (ki : nat) : nat :=
  if (length key <=? S ki)%nat then O else S ki.


(** The elements of the buffer from the cursor on. *)
Definition fromCursor (s : KaitaiStream) : list Z :=
  skipn (Z.to_nat (_byteOffset s + pos s)) (_buffer s).

(** The elements of the buffer that the [DataView] has at the cursor. *)
Definition fromDataView (s : KaitaiStream) : list Z :=
  skipn (Z.to_nat (_dataView s + pos s)) (_buffer s).

(** The [DataView] starts where the stream does.  This holds for every
    stream but those the constructor builds from a typed-array view
    together with a non-zero [byteOffset]. *)
Definition dataViewAligned (s : KaitaiStream) : Prop :=
  _dataView s = _byteOffset s.

(** The bytes of the stream that are still unread: from the cursor to
    the end of the stream. *)
Definition remaining (s : KaitaiStream) : list Z :=
  firstn (Z.to_nat (size s - pos s)) (fromCursor s).

(** The cursor is inside the stream. *)
Definition posInRange (s : KaitaiStream) : Prop := 0 <= pos s <= size s.

(** The stream a call leaves behind, returned or thrown. *)
Definition finalState {A} (r : result A) : KaitaiStream :=
  match r with Ok _ s => s | Throw _ s => s end.

(** The width in bytes of the fixed-width readers. *)
Definition opWidth (op : readerOp) : option Z :=
  match op with
  | OpReadS1 | OpReadU1 => Some 1
  | OpReadS2be | OpReadS2le | OpReadU2be | OpReadU2le => Some 2
  | OpReadS4be | OpReadS4le | OpReadU4be | OpReadU4le
  | OpReadF4be | OpReadF4le => Some 4
  | OpReadS8be | OpReadS8le | OpReadU8be | OpReadU8le
  | OpReadF8be | OpReadF8le => Some 8
  | _ => None
  end.

(** The three facts of a reader of width [w], for a reader program [m]. *)
Definition readsWidth {A} (w : Z) (m : M A) (s : KaitaiStream) : Prop :=
  (forall v s', m s = Ok v s' -> s' = set_pos s (pos s + w) /\ pos s + w <= size s) /\
  (wellFormed s -> pos s + w <= size s ->
   exists v, m s = Ok v (set_pos s (pos s + w))) /\
  (size s < pos s + w -> m s = Throw (EOFError w (size s - pos s)) s).

(** ** The base-128 variable-length quantity ([VlqBase128Be], [Group]) *)

(** A [Group] is the byte [b] its [read()] stores.  The getters below
    give the value computed on the first call, which the private fields
    cache for the later ones. *)

(** [get hasNext()] of [Group] *)
Definition Group_hasNext (b : Z) : bool := negb (Js.and b 128 =? 0).

(** [get value()] of [Group] *)
Definition Group_value (b : Z) : Z := Js.and b 127.

(** [get last()] of [VlqBase128Be] *)
Definition VlqBase128Be_last (groups : list Z) : Z :=
  Z.of_nat (length groups) - 1.

(** One summand [(last >= k ? groups[last - k].value << sh : 0)] of
    [get value()]; the index is inside the array when [last >= k]. *)
Definition vlqTerm (groups : list Z) (k sh : Z) : Z :=
  let last := VlqBase128Be_last groups in
  if last >=? k
  then Js.shl (Group_value (nth (Z.to_nat (last - k)) groups 0)) sh
  else 0.

(** [get value()] of [VlqBase128Be]; [None] is the [TypeError] of
    [groups[-1].value] on an empty array. *)
Definition VlqBase128Be_value (groups : list Z) : option Z :=
  let last := VlqBase128Be_last groups in
  if last <? 0 then None
  else
    Some (Group_value (nth (Z.to_nat last) groups 0)
          + vlqTerm groups 1 7 + vlqTerm groups 2 14 + vlqTerm groups 3 21
          + vlqTerm groups 4 28 + vlqTerm groups 5 35 + vlqTerm groups 6 42
          + vlqTerm groups 7 49).

(** A parser class declares its fields without initialiser
    ([b!: number]) and is constructed by [KaitaiImpl]'s constructor, which
    runs [read()] before the derived class defines the fields it
    declares.  What the declaration does at that point depends on how
    the class is compiled.  With define semantics (ECMAScript class
    fields; TypeScript's [useDefineForClassFields], the default under
    Deno) it sets the field to [undefined], discarding what [read()]
    stored.  With assignment semantics (TypeScript's earlier emit) it
    does nothing. *)
Inductive classFields : Type :=
| DefineFields
| AssignFields.

(** The field [b] of a [Group] once [new Group(...)] has returned, for
    the byte that its [read()] stored; [None] is [undefined]. *)
Definition Group_b (fields : classFields) (stored : Z) : option Z :=
  match fields with
  | DefineFields => None
  | AssignFields => Some stored
  end.

(** A field as an operand of [&]: [undefined] converts to 0. *)
Definition operand (field : option Z) : Z :=
  match field with
  | Some z => z
  | None => 0
  end.

(** The loop [do { group = new Group(...); groups.push(group); } while
    (group.hasNext)] of [VlqBase128Be.read()].  Constructing a [Group]
    reads one byte; [group.hasNext] is evaluated on the constructed
    group.  The groups are given by their field [b].  [fuel] bounds the
    number of iterations; [None] is returned when it runs out. *)
Fixpoint vlqGroups (fields : classFields) (fuel : nat) (groups : list (option Z))
  : M (option (list (option Z))) :=
  match fuel with
  | O => ret None
  | S fuel' =>
      stored <- readU1 ;;
      let b := Group_b fields stored in
      let groups := groups ++ [b] in
      if Group_hasNext (operand b) then vlqGroups fields fuel' groups
      else ret (Some groups)
  end.

(** [VlqBase128Be.read()]: every iteration reads a byte, so one more
    iteration than there are unread bytes is enough. *)
Definition VlqBase128Be_read (fields : classFields) : M (option (list (option Z))) :=
  s <- get ;; vlqGroups fields (S (Z.to_nat (size s - pos s))) [].

(** The number a sequence of base-128 digits denotes, most significant
    digit first, each digit being the low 7 bits of its byte. *)
Definition base128 (groups : list Z) : Z :=
  fold_left (fun acc b => acc * 128 + b mod 128) groups 0.

(** ** Standard MIDI file events *)

(** [eventType()] of [TrackEvent], from its [eventHeader] *)
Definition TrackEvent_eventType (eventHeader : Z) : Z := Js.and eventHeader 240.

(** [channel()] of [TrackEvent]; [None] is the [undefined] returned when
    the event type is 240. *)
Definition TrackEvent_channel (eventHeader : Z) : option Z :=
  if negb (TrackEvent_eventType eventHeader =? 240)
  then Some (Js.and eventHeader 15)
  else None.

(** ** Typed-array views and sub-streams *)

(** A [Uint8Array] as a view: its [buffer], [byteOffset] and [length]. *)
Record Uint8Array : Type := mkUint8Array {
  ta_buffer : list Z;
  ta_byteOffset : Z;
  ta_length : Z
}.

(** The elements of a view. *)
Definition Uint8Array_contents (a : Uint8Array) : list Z :=
  firstn (Z.to_nat (ta_length a)) (skipn (Z.to_nat (ta_byteOffset a)) (ta_buffer a)).

(** [mapUint8Array(length)], returning the view it constructs,
    [new Uint8Array(_buffer, byteOffset + pos, length)], rather than the
    view's elements. *)
Definition mapUint8ArrayView (length : Z) : M Uint8Array :=
  let length := Js.or length 0 in
  ensureBytesLeft length ;;;
  s <- get ;;
  match slice (_buffer s) (_byteOffset s + pos s) length with
  | None => throw RangeError
  | Some _ =>
      advance length ;;;
      ret (mkUint8Array (_buffer s) (_byteOffset s + pos s) length)
  end.

(** [new KaitaiStream(view)] for a typed-array view and no [byteOffset]
    argument: the [dataView] setter takes the view's [buffer] and
    [byteOffset], builds the [DataView] there and sets
    [_byteLength = byteOffset + byteLength]; then [pos = 0] and
    [alignToByte()]. *)
Definition newStreamOfView (view : Uint8Array) : KaitaiStream :=
  mkStream (ta_buffer view) (ta_byteOffset view)
           (ta_byteOffset view + ta_length view) 0 0 0
           (ta_byteOffset view).

(** [new KaitaiStream(view, byteOffset)] for a typed-array view and a
    non-zero [byteOffset]: after the [dataView] setter the constructor
    runs [this._byteOffset += byteOffset], which moves [_byteOffset] but
    neither the [DataView] nor [_byteLength]. *)
Definition newStreamOfViewAt (view : Uint8Array) (byteOffset : Z) : KaitaiStream :=
  mkStream (ta_buffer view) (ta_byteOffset view + byteOffset)
           (ta_byteOffset view + ta_length view) 0 0 0
           (ta_byteOffset view).

(** ** Parsers built on the stream: the Ogg page *)

(** What a parser's [read()] can throw: an error of the stream, or its
    own [ValidationNotEqualError]. *)
Inductive parseError : Type :=
| StreamError (e : error)
| ValidationNotEqualError (expected actual : list Z).

Inductive parsed (A : Type) : Type :=
| Parsed (a : A) (s : KaitaiStream)
| Failed (e : parseError) (s : KaitaiStream).
Arguments Parsed {A} a s.
Arguments Failed {A} e s.

Definition P (A : Type) : Type := KaitaiStream -> parsed A.

Definition pret {A} (a : A) : P A := fun s => Parsed a s.

Definition pbind {A B} (m : P A) (f : A -> P B) : P B :=
  fun s => match m s with
           | Parsed a s' => f a s'
           | Failed e s' => Failed e s'
           end.

(** A call of a stream operation from a parser. *)
Definition io {A} (m : M A) : P A :=
  fun s => match m s with
           | Ok a s' => Parsed a s'
           | Throw e s' => Failed (StreamError e) s'
           end.

Notation "x <~ m ;; k" := (pbind m (fun x => k))
  (at level 61, m at next level, right associativity).
Notation "m ~;; k" := (pbind m (fun _ => k))
  (at level 61, right associativity).

(** [if (!(byteArrayCompare(actual, expected) == 0)) throw new
    ValidationNotEqualError(expected, actual)] *)
Definition validateEqual (actual expected : list Z) : P unit :=
  fun s =>
    if negb (byteArrayCompare actual expected =? 0)
    then Failed (ValidationNotEqualError expected actual) s
    else Parsed tt s.

(** The fields of an Ogg [Page]. *)
Record Page : Type := mkPage {
  syncCode : list Z;
  version : list Z;
  reserved1 : Z;
  isEndOfStream : bool;
  isBeginningOfStream : bool;
  isContinuation : bool;
  granulePos : Z;
  bitstreamSerial : Z;
  pageSeqNum : Z;
  crc32 : Z;
  numSegments : Z;
  lenSegments : list Z;
  segments : list (list Z)
}.

(** [for (let i = 0; i < numSegments; i++) lenSegments[i] = readU1()],
    with [count] iterations left. *)
Fixpoint readLenSegments (count : nat) : M (list Z) :=
  match count with
  | O => ret []
  | S count' =>
      len <- readU1 ;;
      rest <- readLenSegments count' ;;
      ret (len :: rest)
  end.

(** [for (let i = 0; i < numSegments; i++) segments[i] =
    readBytes(lenSegments[i])] from index [i] on, with [count] iterations
    left.  A missing [lenSegments[i]] is [undefined], a length of 0. *)
Fixpoint readSegments (count : nat) (i : Z) (lenSegments : list Z)
  : M (list (list Z)) :=
  match count with
  | O => ret []
  | S count' =>
      seg <- readBytes (nth (Z.to_nat i) lenSegments 0) ;;
      rest <- readSegments count' (i + 1) lenSegments ;;
      ret (seg :: rest)
  end.

(** [Page.read()]; the record returned holds the fields as [read()]
    assigns them. *)
Definition Page_read : P Page :=
  syncCode <~ io (readBytes 4) ;;
  validateEqual syncCode [79; 103; 103; 83] ~;;
  validateEqual syncCode [79; 103; 103; 83] ~;;
  version <~ io (readBytes 1) ;;
  validateEqual version [0] ~;;
  reserved1 <~ io (readBitsIntBe 5) ;;
  eos <~ io (readBitsIntBe 1) ;;
  bos <~ io (readBitsIntBe 1) ;;
  continuation <~ io (readBitsIntBe 1) ;;
  io (modify alignToByte) ~;;
  granulePos <~ io readU8le ;;
  bitstreamSerial <~ io readU4le ;;
  pageSeqNum <~ io readU4le ;;
  crc32 <~ io readU4le ;;
  numSegments <~ io readU1 ;;
  lenSegments <~ io (readLenSegments (Z.to_nat numSegments)) ;;
  segments <~ io (readSegments (Z.to_nat numSegments) 0 lenSegments) ;;
  pret (mkPage syncCode version reserved1
          (negb (eos =? 0)) (negb (bos =? 0)) (negb (continuation =? 0))
          granulePos bitstreamSerial pageSeqNum crc32
          numSegments lenSegments segments).

(** The number of bytes a page takes in the stream: 27 bytes of header,
    one length byte per segment, and the segments. *)
Definition Page_byteLength (p : Page) : Z :=
  27 + numSegments p + fold_right Z.add 0 (lenSegments p).

(** The loop [while (!this._io.isEof()) pages.push(new Page(...))] of
    [Ogg.read()], where constructing a [Page] runs [Page.read()].
    [fuel] bounds the number of iterations; [None] is returned when it
    runs out. *)
Fixpoint oggPages (fuel : nat) (pages : list Page) : P (option (list Page)) :=
  match fuel with
  | O => pret None
  | S fuel' =>
      fun s =>
        if isEof s then Parsed (Some pages) s
        else (page <~ Page_read ;; oggPages fuel' (pages ++ [page])) s
  end.

(** [Ogg.read()]: one more iteration than there are unread bytes is
    allowed for. *)
Definition Ogg_read : P (option (list Page)) :=
  fun s => oggPages (S (Z.to_nat (size s - pos s))) [] s.

(** The bytes a list of pages takes in the stream. *)
Definition pagesByteLength (pages : list Page) : Z :=
  fold_right (fun p acc => Page_byteLength p + acc) 0 pages.

(** ** Parsers built on the stream: the MIDI file header *)

(** The fields of the [Header] of a standard MIDI file. *)
Record Header : Type := mkHeader {
  magic : list Z;
  headerLength : Z;
  format : Z;
  qtyTracks : Z;
  division : Z
}.

(** [Header.read()]; the record returned holds the fields as [read()]
    assigns them. *)
Definition Header_read : M Header :=
  magic <- ensureFixedContents [77; 84; 104; 100] ;;
  headerLength <- readU4be ;;
  format <- readU2be ;;
  qtyTracks <- readU2be ;;
  division <- readS2be ;;
  ret (mkHeader magic headerLength format qtyTracks division).

(** The header that 14 bytes [bytes] denote: the magic, a 32-bit length,
    two unsigned 16-bit numbers and a signed one, all big-endian. *)
Definition headerOfBytes (bytes : list Z) : Header :=
  mkHeader (firstn 4 bytes)
           (beUint (firstn 4 (skipn 4 bytes)))
           (beUint (firstn 2 (skipn 8 bytes)))
           (beUint (firstn 2 (skipn 10 bytes)))
           (asSigned 16 (beUint (firstn 2 (skipn 12 bytes)))).

(** * Properties *)

(** ** 32-bit arithmetic *)

Lemma zrange_forallb (P : Z -> bool) (lo : Z) (count : nat) :
  forallb P (zrange lo count) = true ->
  forall k, lo <= k < lo + Z.of_nat count -> P k = true.
Proof.
  intros Hall k Hk. rewrite forallb_forall in Hall. apply Hall.
  unfold zrange. apply in_map_iff. exists (Z.to_nat (k - lo)). split; [lia|].
  apply in_seq. lia.
Qed.

Lemma toInt32_small (x : Z) : - 2 ^ 31 <= x < 2 ^ 31 -> Js.toInt32 x = x.
Proof.
  intros Hx. unfold Js.toInt32. rewrite Z.mod_small; lia.
Qed.

Lemma toInt32_range (x : Z) : - 2 ^ 31 <= Js.toInt32 x < 2 ^ 31.
Proof.
  unfold Js.toInt32.
  pose proof (Z.mod_pos_bound (x + 2 ^ 31) (2 ^ 32) ltac:(lia)). lia.
Qed.

Lemma toInt32_high (x : Z) : 2 ^ 31 <= x < 2 ^ 32 -> Js.toInt32 x = x - 2 ^ 32.
Proof.
  intros Hx. unfold Js.toInt32.
  replace (x + 2 ^ 31) with (x - 2 ^ 31 + 1 * 2 ^ 32) by lia.
  rewrite Z.mod_add by lia. rewrite Z.mod_small; lia.
Qed.

Lemma or_zero (n : Z) : Js.or n 0 = Js.toInt32 n.
Proof. unfold Js.or. change (Js.toInt32 0) with 0. apply Z.lor_0_r. Qed.

(** On the low half, [v ^ 0xffffffff] is the signed complement [-v - 1]
    of [ToInt32 v], not the unsigned 32-bit complement. *)
Lemma xor_ones_signed (v : Z) :
  Js.xor v 0xffffffff = - Js.toInt32 v - 1.
Proof.
  unfold Js.xor. change (Js.toInt32 0xffffffff) with (-1).
  rewrite Z.lxor_m1_r. unfold Z.lnot. lia.
Qed.

(** The test [(v & 0x80000000) !== 0] looks at the sign of [ToInt32 v]. *)
Lemma and_sign_bit (x : Z) :
  Js.and x 0x80000000 = if Js.toInt32 x <? 0 then - 2 ^ 31 else 0.
Proof.
  unfold Js.and. change (Js.toInt32 0x80000000) with (Z.lnot (Z.ones 31)).
  rewrite <- Z.ldiff_land, Z.ldiff_ones_r by lia.
  pose proof (toInt32_range x) as Hr. rewrite Z.shiftr_div_pow2, Z.shiftl_mul_pow2 by lia.
  destruct (Z.ltb_spec (Js.toInt32 x) 0) as [Hneg|Hpos].
  - replace (Js.toInt32 x / 2 ^ 31) with (-1); [reflexivity|].
    apply Z.div_unique with (r := Js.toInt32 x + 2 ^ 31); lia.
  - rewrite Z.div_small by lia. reflexivity.
Qed.

(** The mask [(1 << k) - 1], as the operand of [&], is [k] low ones for
    every [k] from 0 to 31 (at 31 the subtraction leaves the 32-bit range
    and [ToInt32] brings it back). *)
Lemma low_mask (k : Z) :
  0 <= k <= 31 -> Js.toInt32 (Js.shl 1 k - 1) = Z.ones k.
Proof.
  intros Hk.
  apply Z.eqb_eq.
  apply (zrange_forallb (fun k => Js.toInt32 (Js.shl 1 k - 1) =? Z.ones k) 0 32);
    [vm_compute; reflexivity | lia].
Qed.

Lemma and_low_mask (x k : Z) :
  0 <= k <= 31 -> Js.and x (Js.shl 1 k - 1) = Js.toInt32 x mod 2 ^ k.
Proof.
  intros Hk. unfold Js.and. rewrite (low_mask k Hk).
  apply Z.land_ones. lia.
Qed.

(** ** Views on the buffer and reads, by cases *)

Lemma slice_length (buf : list Z) (start len : Z) (arr : list Z) :
  slice buf start len = Some arr -> Z.of_nat (length arr) = len.
Proof.
  unfold slice.
  destruct (Z.ltb_spec start 0); [discriminate|].
  destruct (Z.ltb_spec len 0); [discriminate|].
  destruct (Z.ltb_spec (Z.of_nat (length buf)) (start + len)); [discriminate|].
  cbn. intros [= <-]. rewrite length_firstn, length_skipn. lia.
Qed.

(** What [mapUint8Array(n)] does, by cases. *)
Lemma mapUint8Array_cases (n : Z) (s : KaitaiStream) :
  let len := Js.or n 0 in
  match mapUint8Array n s with
  | Ok arr s' =>
      pos s + len <= size s /\
      slice (_buffer s) (_byteOffset s + pos s) len = Some arr /\
      s' = set_pos s (pos s + len)
  | Throw e s' =>
      s' = s /\
      ((e = EOFError len (size s - pos s) /\ size s < pos s + len) \/
       (e = RangeError /\ pos s + len <= size s /\
        slice (_buffer s) (_byteOffset s + pos s) len = None))
  end.
Proof.
  cbv zeta. unfold mapUint8Array, ensureBytesLeft. unfold_reader.
  destruct (Z.gtb_spec (pos s + Js.or n 0) (size s)) as [Hgt|Hle].
  - split; [reflexivity|]. left. split; [reflexivity | lia].
  - destruct (slice (_buffer s) (_byteOffset s + pos s) (Js.or n 0)) as [arr|] eqn:Hsl.
    + repeat split; assumption.
    + split; [reflexivity|]. right. repeat split; assumption.
Qed.

(** What a fixed-width reader does, by cases. *)
Lemma readFixed_cases (n : Z) (decode : list Z -> Z) (s : KaitaiStream) :
  match readFixed n decode s with
  | Ok v s' => pos s + n <= size s /\ s' = set_pos s (pos s + n)
  | Throw e s' =>
      s' = s /\
      ((e = EOFError n (size s - pos s) /\ size s < pos s + n) \/ e = RangeError)
  end.
Proof.
  unfold readFixed, ensureBytesLeft, dataViewGet. unfold_reader.
  destruct (Z.gtb_spec (pos s + n) (size s)) as [Hgt|Hle].
  - split; [reflexivity|]. left. split; [reflexivity | lia].
  - destruct (pos s <? 0); [split; [reflexivity | right; reflexivity]|].
    destruct (slice (_buffer s) (_dataView s + pos s) n).
    + split; [exact Hle | reflexivity].
    + split; [reflexivity | right; reflexivity].
Qed.

Lemma set_fields_id (s : KaitaiStream) :
  mkStream (_buffer s) (_byteOffset s) (_byteLength s) (bitsLeft s) (bits s) (pos s)
           (_dataView s) = s.
Proof. destruct s; reflexivity. Qed.

(** ** Positioning: [ensureBytesLeft] and [seek] *)

Section Positioning.

Variable s : KaitaiStream.

Lemma ensureBytesLeft_ok (n : Z) :
  pos s + n <= size s -> ensureBytesLeft n s = Ok tt s.
Proof.
  intros Hle. unfold ensureBytesLeft.
  destruct (Z.gtb_spec (pos s + n) (size s)); [lia | reflexivity].
Qed.

Lemma ensureBytesLeft_eof (n : Z) :
  size s < pos s + n ->
  ensureBytesLeft n s = Throw (EOFError n (size s - pos s)) s.
Proof.
  intros Hlt. unfold ensureBytesLeft.
  destruct (Z.gtb_spec (pos s + n) (size s)); [reflexivity | lia].
Qed.

(** C8: for a non-negative [n], [ensureBytesLeft(n)] succeeds exactly
    when [pos + n <= size]; otherwise it throws [EOFError] with
    [bytesRequired = n] and [bytesAvailable = size - pos].  In both
    cases the stream is left as it was. *)
Theorem ensureBytesLeft_spec (n : Z) :
  0 <= n ->
  (ensureBytesLeft n s = Ok tt s <-> pos s + n <= size s) /\
  (~ pos s + n <= size s ->
   ensureBytesLeft n s = Throw (EOFError n (size s - pos s)) s).
Proof.
  intros _. split; [split|].
  - intros Hok. destruct (Z.le_gt_cases (pos s + n) (size s)) as [H|H]; [exact H|].
    rewrite (ensureBytesLeft_eof n H) in Hok. discriminate.
  - apply ensureBytesLeft_ok.
  - intros Hn. apply ensureBytesLeft_eof. lia.
Qed.

(** [seek] on a finite argument clamps it into [[0, size]]. *)
Lemma seek_finite (p : Z) :
  0 <= size s ->
  pos (seek (Num p) s) =
    (if p <? 0 then 0 else if size s <? p then size s else p).
Proof.
  intros Hsz. unfold seek. cbn.
  destruct (Z.ltb_spec p 0), (Z.ltb_spec (size s) p); lia.
Qed.

Lemma seek_NaN : pos (seek NaN s) = 0.
Proof. reflexivity. Qed.

Lemma seek_NegInfinity : pos (seek NegInfinity s) = 0.
Proof. reflexivity. Qed.

Lemma seek_PosInfinity : 0 <= size s -> pos (seek PosInfinity s) = size s.
Proof. intros Hsz. unfold seek. cbn. lia. Qed.

(** [seek] touches no field but [pos]. *)
Lemma seek_frame (p : number) :
  _buffer (seek p s) = _buffer s /\ _byteOffset (seek p s) = _byteOffset s /\
  _byteLength (seek p s) = _byteLength s /\
  bitsLeft (seek p s) = bitsLeft s /\ bits (seek p s) = bits s.
Proof. unfold seek. cbn. repeat split. Qed.

End Positioning.

(** C8, at a stream of two bytes positioned at 1: one more byte is
    available, two are not. *)
Lemma ensureBytesLeft_spec_witness :
  0 <= 1 /\ 0 <= 2 /\
  ensureBytesLeft 1 (mkStream [7; 9] 0 2 0 0 1 0) = Ok tt (mkStream [7; 9] 0 2 0 0 1 0) /\
  ensureBytesLeft 2 (mkStream [7; 9] 0 2 0 0 1 0)
  = Throw (EOFError 2 1) (mkStream [7; 9] 0 2 0 0 1 0).
Proof.
  assert (H1 : 0 <= 1) by lia. assert (H2 : 0 <= 2) by lia.
  split; [exact H1|]. split; [exact H2|]. split.
  - apply (ensureBytesLeft_spec (mkStream [7; 9] 0 2 0 0 1 0) 1 H1).
    vm_compute. discriminate.
  - apply (ensureBytesLeft_spec (mkStream [7; 9] 0 2 0 0 1 0) 2 H2).
    vm_compute. intros Hle. apply Hle. reflexivity.
Defined.

(** C6 as written fails: [seek(+Infinity)] does not snap to 0.  On a
    stream of two bytes it moves to the end, position 2. *)
Lemma seek_PosInfinity_not_zero :
  pos (seek PosInfinity (newStream [1; 2] 0)) = 2 /\
  pos (seek PosInfinity (newStream [1; 2] 0)) <> 0.
Proof. split; [reflexivity | discriminate]. Qed.

(** C6, amended: on a stream with [0 <= size], [seek(p)] sets [pos] to
    [p] clamped into [[0, size]] when [p] is finite, to [0] when [p] is
    [NaN] or [-Infinity], and to [size] when [p] is [+Infinity] (the
    clamp is applied before the finiteness test, so [+Infinity] clamps to
    [size] like any large argument). *)
Theorem seek_spec (s : KaitaiStream) :
  0 <= size s ->
  (forall p : Z,
      (p < 0 -> pos (seek (Num p) s) = 0) /\
      (0 <= p <= size s -> pos (seek (Num p) s) = p) /\
      (size s < p -> pos (seek (Num p) s) = size s)) /\
  pos (seek NaN s) = 0 /\
  pos (seek NegInfinity s) = 0 /\
  pos (seek PosInfinity s) = size s.
Proof.
  intros Hsz. split; [|split; [|split]].
  - intros p. rewrite (seek_finite s p Hsz).
    destruct (Z.ltb_spec p 0), (Z.ltb_spec (size s) p); repeat split; lia.
  - apply seek_NaN.
  - apply seek_NegInfinity.
  - apply seek_PosInfinity, Hsz.
Qed.

Lemma seek_spec_witness :
  0 <= size (newStream [1; 2; 3] 0) /\
  pos (seek (Num 2) (newStream [1; 2; 3] 0)) = 2 /\
  pos (seek (Num 9) (newStream [1; 2; 3] 0)) = 3 /\
  pos (seek PosInfinity (newStream [1; 2; 3] 0)) = 3.
Proof.
  assert (Hsz : 0 <= size (newStream [1; 2; 3] 0)) by (vm_compute; discriminate).
  destruct (seek_spec (newStream [1; 2; 3] 0) Hsz) as (Hfin & _ & _ & Hinf).
  split; [exact Hsz|].
  split; [apply (Hfin 2); vm_compute; split; discriminate|].
  split; [apply (Hfin 9); reflexivity | exact Hinf].
Defined.

(** ** The 64-bit signed reader *)

(** The value, before any rounding, of the expression that the negative
    branch of [readS8be]/[readS8le] evaluates on the halves [hi] and
    [lo]: the two's-complement value
    [hi * 2^32 + lo - 2^64] when [lo] has its top bit set, and that value
    plus [2^32] when it has not. *)
Lemma s8_negative_value (hi lo : Z) :
  2 ^ 31 <= hi < 2 ^ 32 -> 0 <= lo < 2 ^ 32 ->
  - (0x100000000 * Js.xor hi 0xffffffff + Js.xor lo 0xffffffff) - 1
  = (hi * 2 ^ 32 + lo - 2 ^ 64) + (if lo <? 2 ^ 31 then 2 ^ 32 else 0).
Proof.
  intros Hhi Hlo. rewrite !xor_ones_signed, (toInt32_high hi Hhi).
  destruct (Z.ltb_spec lo (2 ^ 31)) as [Hsmall|Hbig].
  - rewrite (toInt32_small lo) by lia. lia.
  - rewrite (toInt32_high lo) by lia. lia.
Qed.

(** C1 fails on the code: on the bytes [00 00 00 00 00 00 00 80]
    [readS8le] returns [-2^63 + 2^32 = -9223372032559808512] where the
    claim has [-2^63 = -9223372036854775808], the value of its formula
    with the unsigned 32-bit XOR.  The code complements the low half [0]
    as a signed number, giving [-1] instead of [0xFFFFFFFF]. *)
Theorem readS8le_min_int64 :
  readS8le (newStream [0; 0; 0; 0; 0; 0; 0; 0x80] 0)
  = Ok (-9223372032559808512)
       (set_pos (newStream [0; 0; 0; 0; 0; 0; 0; 0x80] 0) 8)
  /\ - (Z.lxor 0x80000000 0xFFFFFFFF * 2 ^ 32 + Z.lxor 0 0xFFFFFFFF) - 1
     = -9223372036854775808
  /\ -9223372032559808512 <> -9223372036854775808
  /\ Js.xor 0 0xffffffff = -1.
Proof. repeat split; vm_compute; congruence. Qed.

(** The same return expression evaluated in IEEE 754 double precision:
    rounding does not bring the result to [-2^63]. *)
Lemma combineS8le_double_min_int64 :
  PrimFloat.eqb (Double.combineS8le 0 0x80000000) (-9223372032559808512)%float = true /\
  PrimFloat.eqb (Double.combineS8le 0 0x80000000) (-9223372036854775808)%float = false.
Proof. split; vm_compute; reflexivity. Qed.

(** [FF FF FF FF FF FF FF FF] does read as [-1]. *)
Example readS8le_minus_one :
  readS8le (newStream [255; 255; 255; 255; 255; 255; 255; 255] 0)
  = Ok (-1) (set_pos (newStream [255; 255; 255; 255; 255; 255; 255; 255] 0) 8).
Proof. reflexivity. Qed.

(** ** The bit readers *)

(** The byte [0x06 = 0b00000110] read as 5, 1, 1 and 1 big-endian bits. *)
Example readBitsIntBe_flags :
  (b1 <- readBitsIntBe 5 ;; b2 <- readBitsIntBe 1 ;;
   b3 <- readBitsIntBe 1 ;; b4 <- readBitsIntBe 1 ;;
   ret [b1; b2; b3; b4]) (newStream [0x06] 0)
  = Ok [0; 1; 1; 0] (set_pos (newStream [0x06] 0) 1).
Proof. reflexivity. Qed.

Lemma fillBitsBe_bitsLeft (fuel : nat) :
  forall i buf s,
    bitsLeft (fillBitsBe fuel i buf s) = bitsLeft s + 8 * Z.of_nat fuel.
Proof.
  induction fuel as [|fuel IH]; intros i buf s.
  - cbn. lia.
  - cbn [fillBitsBe]. cbv zeta. rewrite IH. cbn [bitsLeft set_bitsLeft set_bits]. lia.
Qed.

Lemma fillBitsLe_bitsLeft (fuel : nat) :
  forall i buf s,
    bitsLeft (fillBitsLe fuel i buf s) = bitsLeft s + 8 * Z.of_nat fuel.
Proof.
  induction fuel as [|fuel IH]; intros i buf s.
  - cbn. lia.
  - cbn [fillBitsLe]. cbv zeta. rewrite IH. cbn [bitsLeft set_bitsLeft set_bits]. lia.
Qed.

Lemma borrowBitsBe_bitsLeft (n : Z) (s s1 : KaitaiStream) :
  borrowBitsBe n s = Ok tt s1 -> bitsLeft s1 = bitsLeftBorrowed n s.
Proof.
  unfold borrowBitsBe, bitsLeftBorrowed, readBytes. unfold_reader.
  destruct (n - bitsLeft s >? 0).
  - pose proof (mapUint8Array_cases (Js.ceilDiv8 (n - bitsLeft s)) s) as Hm.
    destruct (mapUint8Array (Js.ceilDiv8 (n - bitsLeft s)) s) as [arr s0|e s0];
      [|discriminate].
    destruct Hm as (_ & _ & ->). intros [= <-].
    rewrite fillBitsBe_bitsLeft. reflexivity.
  - intros [= <-]. reflexivity.
Qed.

Lemma borrowBitsLe_bitsLeft (n : Z) (s s1 : KaitaiStream) :
  borrowBitsLe n s = Ok tt s1 -> bitsLeft s1 = bitsLeftBorrowed n s.
Proof.
  unfold borrowBitsLe, bitsLeftBorrowed, readBytes. unfold_reader.
  destruct (n - bitsLeft s >? 0).
  - pose proof (mapUint8Array_cases (Js.ceilDiv8 (n - bitsLeft s)) s) as Hm.
    destruct (mapUint8Array (Js.ceilDiv8 (n - bitsLeft s)) s) as [arr s0|e s0];
      [|discriminate].
    destruct Hm as (_ & _ & ->). intros [= <-].
    rewrite fillBitsLe_bitsLeft. reflexivity.
  - intros [= <-]. reflexivity.
Qed.

(** Between calls at most 7 bits are held; inside a call the count rises
    to at most 39. *)
Lemma bitsLeftBorrowed_bounds (n : Z) (s : KaitaiStream) :
  0 <= n <= 32 -> 0 <= bitsLeft s <= 7 ->
  n <= bitsLeftBorrowed n s <= 39 /\ 0 <= bitsLeftBorrowed n s - n <= 7.
Proof.
  intros Hn Hbl. unfold bitsLeftBorrowed, Js.ceilDiv8.
  destruct (Z.gtb_spec (n - bitsLeft s) 0) as [Hgt|Hle]; [|lia].
  pose proof (Z.div_mod (- (n - bitsLeft s)) 8 ltac:(lia)) as Hdm.
  pose proof (Z.mod_pos_bound (- (n - bitsLeft s)) 8 ltac:(lia)) as Hmb.
  rewrite Z2Nat.id by lia. lia.
Qed.

(** A successful [readBitsIntBe(n)] splits into its borrowing block and
    its extraction. *)
Lemma readBitsIntBe_ok (n : Z) (s s' : KaitaiStream) (v : Z) :
  readBitsIntBe n s = Ok v s' ->
  n <= 32 /\
  exists s1,
    borrowBitsBe n s = Ok tt s1 /\
    v = Js.and (Js.shr (bits s1) (bitsLeft s1 - n))
               (if n =? 32 then 0xffffffff else Js.shl 1 n - 1) /\
    bitsLeft s' = bitsLeft s1 - n /\
    bits s' = Js.and (bits s1) (Js.shl 1 (bitsLeft s1 - n) - 1) /\
    pos s' = pos s1.
Proof.
  unfold readBitsIntBe.
  destruct (Z.gtb_spec n 32) as [Hgt|Hle]; [discriminate|].
  unfold bind at 1.
  destruct (borrowBitsBe n s) as [[] s1|e s1] eqn:Hb; [|discriminate].
  unfold extractBitsBe. unfold_reader. intros [= <- <-].
  split; [exact Hle|]. exists s1. repeat split.
Qed.

Lemma readBitsIntLe_ok (n : Z) (s s' : KaitaiStream) (v : Z) :
  readBitsIntLe n s = Ok v s' ->
  n <= 32 /\
  exists s1,
    borrowBitsLe n s = Ok tt s1 /\
    v = Js.and (bits s1) (if n =? 32 then 0xffffffff else Js.shl 1 n - 1) /\
    bitsLeft s' = bitsLeft s1 - n /\
    bits s' = Js.sar (bits s1) n /\
    pos s' = pos s1.
Proof.
  unfold readBitsIntLe.
  destruct (Z.gtb_spec n 32) as [Hgt|Hle]; [discriminate|].
  unfold bind at 1.
  destruct (borrowBitsLe n s) as [[] s1|e s1] eqn:Hb; [|discriminate].
  unfold extractBitsLe. unfold_reader. intros [= <- <-].
  split; [exact Hle|]. exists s1. repeat split.
Qed.

(** From a stream holding at most 7 bits, a successful read of [n] bits
    ([0 <= n <= 32]) by either reader leaves at most 7 bits. *)
Lemma readBitsInt_bitsLeft_after (n : Z) (s s' : KaitaiStream) (v : Z) :
  0 <= n <= 32 -> 0 <= bitsLeft s <= 7 ->
  readBitsIntBe n s = Ok v s' \/ readBitsIntLe n s = Ok v s' ->
  0 <= bitsLeft s' <= 7.
Proof.
  intros Hn Hbl [Hr|Hr].
  - apply readBitsIntBe_ok in Hr as (_ & s1 & Hb & _ & -> & _).
    rewrite (borrowBitsBe_bitsLeft _ _ _ Hb).
    apply bitsLeftBorrowed_bounds; assumption.
  - apply readBitsIntLe_ok in Hr as (_ & s1 & Hb & _ & -> & _).
    rewrite (borrowBitsLe_bitsLeft _ _ _ Hb).
    apply bitsLeftBorrowed_bounds; assumption.
Qed.

(** Below 32 bits the result of a bit read is an unsigned [n]-bit
    number; only the 32-bit read can come out negative. *)
Lemma readBitsInt_result_range (n : Z) (s s' : KaitaiStream) (v : Z) :
  0 <= n <= 31 ->
  readBitsIntBe n s = Ok v s' \/ readBitsIntLe n s = Ok v s' ->
  0 <= v < 2 ^ n.
Proof.
  intros Hn Hr.
  assert (Hn32 : (n =? 32) = false) by (apply Z.eqb_neq; lia).
  destruct Hr as [Hr|Hr].
  - apply readBitsIntBe_ok in Hr as (_ & s1 & _ & -> & _).
    rewrite Hn32, and_low_mask by lia.
    apply Z.mod_pos_bound, Z.pow_pos_nonneg; lia.
  - apply readBitsIntLe_ok in Hr as (_ & s1 & _ & -> & _).
    rewrite Hn32, and_low_mask by lia.
    apply Z.mod_pos_bound, Z.pow_pos_nonneg; lia.
Qed.

(** C2 fails on the code: reading 32 bits from [FF FF FF FF] returns
    [-1] from both readers, not [4294967295].  The final [& mask] is a
    signed 32-bit operation, so a value with bit 31 set comes out
    negative. *)
Theorem readBitsInt_32_negative :
  readBitsIntBe 32 (newStream [0xFF; 0xFF; 0xFF; 0xFF] 0)
  = Ok (-1) (set_pos (newStream [0xFF; 0xFF; 0xFF; 0xFF] 0) 4)
  /\ readBitsIntLe 32 (newStream [0xFF; 0xFF; 0xFF; 0xFF] 0)
     = Ok (-1) (set_bits (set_pos (newStream [0xFF; 0xFF; 0xFF; 0xFF] 0) 4) (-1)).
Proof. split; reflexivity. Qed.

(** C4 fails on the code: after [readBitsIntBe(1)] on five bytes the
    stream holds 7 bits; the loop of a following [readBitsIntBe(32)]
    borrows four more bytes and leaves [bitsLeft = 39] when the
    extraction starts.  The 32-bit accumulator has by then dropped the 7
    bits it held: the call returns [0] where the next 32 bits of
    [FF 00 00 00 00] are [0xFE000000]. *)
Theorem readBitsIntBe_bitsLeft_39 :
  (readBitsIntBe 1 ;;; borrowBitsBe 32) (newStream [0xFF; 0; 0; 0; 0] 0)
  = Ok tt (mkStream [0xFF; 0; 0; 0; 0] 0 5 39 0 5 0)
  /\ (readBitsIntBe 1 ;;; readBitsIntBe 32) (newStream [0xFF; 0; 0; 0; 0] 0)
     = Ok 0 (mkStream [0xFF; 0; 0; 0; 0] 0 5 7 0 5 0)
  /\ ~ 39 <= 32.
Proof. repeat split; try reflexivity. lia. Qed.

(** The little-endian reader passes through [bitsLeft = 39] as well. *)
Example readBitsIntLe_bitsLeft_39 :
  (readBitsIntLe 1 ;;; borrowBitsLe 32) (newStream [0xFF; 0; 0; 0; 0] 0)
  = Ok tt (mkStream [0xFF; 0; 0; 0; 0] 0 5 39 127 5 0).
Proof. reflexivity. Qed.

(** ** Zero-width bit reads *)

(** After a successful [readBitsIntBe] the accumulator holds exactly the
    bits it counts, so a zero-width read is then the identity. *)
Lemma readBitsIntBe_accumulator (n : Z) (s s' : KaitaiStream) (v : Z) :
  0 <= n <= 32 -> 0 <= bitsLeft s <= 7 ->
  readBitsIntBe n s = Ok v s' ->
  0 <= bitsLeft s' <= 7 /\ 0 <= bits s' < 2 ^ bitsLeft s'.
Proof.
  intros Hn Hbl Hr.
  assert (Hafter : 0 <= bitsLeft s' <= 7)
    by (apply (readBitsInt_bitsLeft_after n s s' v); auto).
  split; [exact Hafter|].
  apply readBitsIntBe_ok in Hr as (_ & s1 & _ & _ & Hbl' & -> & _).
  rewrite <- Hbl'. rewrite and_low_mask by lia.
  apply Z.mod_pos_bound. apply Z.pow_pos_nonneg; lia.
Qed.








(** ** [readBytesTerm] *)

Lemma scanTerm_found (terminator : Z) (k : nat) :
  forall fuel i u8,
    (k < fuel)%nat -> firstAt terminator u8 k ->
    scanTerm fuel i u8 terminator = i + Z.of_nat k.
Proof.
  induction k as [|k IH]; intros fuel i u8 Hfuel (Hat & Hbefore).
  - destruct fuel as [|fuel]; [lia|]. destruct u8 as [|x rest]; [discriminate|].
    cbn in Hat. injection Hat as ->. cbn [scanTerm]. rewrite Z.eqb_refl. lia.
  - destruct fuel as [|fuel]; [lia|]. destruct u8 as [|x rest]; [discriminate|].
    cbn [scanTerm]. destruct (Z.eqb_spec x terminator) as [->|Hne].
    + exfalso. apply (Hbefore 0%nat); [lia | reflexivity].
    + rewrite (IH fuel (i + 1) rest); [lia | lia |].
      split; [exact Hat|]. intros j Hj. apply (Hbefore (S j)). lia.
Qed.

(** On a well-formed stream whose first terminator is [k] bytes after the
    cursor, [readBytesTerm] returns the next [k] bytes, and the
    terminator too when [include] is set; the cursor advances by [k],
    by 1 more when [include] is set and by 1 more when [consume] is set.
    With [include] clear this is the advance by [k], plus 1 iff
    [consume]; with [include] set the cursor ends one byte further. *)
Lemma readBytesTerm_found (terminator : Z) (include consume eosError : bool)
      (s : KaitaiStream) (k : nat) :
  wellFormed s ->
  Z.of_nat k < size s - pos s ->
  firstAt terminator (skipn (Z.to_nat (_byteOffset s + pos s)) (_buffer s)) k ->
  readBytesTerm terminator include consume eosError s
  = Ok (firstn (k + (if include then 1 else 0))
          (skipn (Z.to_nat (_byteOffset s + pos s)) (_buffer s)))
       (set_pos s (pos s + Z.of_nat k + b2z include + b2z consume)).
Proof.
  intros (Hoff & Hpos & Hlen & Hsmall & Hdv) Hk Hfirst.
  unfold readBytesTerm. unfold bind at 1. unfold get.
  destruct (Z.ltb_spec (_byteOffset s + pos s) 0) as [|_]; [lia|].
  assert (Hsz : size s = _byteLength s - _byteOffset s) by reflexivity.
  destruct (Z.ltb_spec (Z.of_nat (length (_buffer s))) (_byteOffset s + pos s)) as [|_];
    [lia|]. cbn [orb].
  rewrite (scanTerm_found terminator k (Z.to_nat (size s - pos s)) 0 _ ltac:(lia) Hfirst).
  rewrite Z.add_0_l.
  destruct (Z.eqb_spec (Z.of_nat k) (size s - pos s)) as [|_]; [lia|].
  assert (Hmap : forall extra, 0 <= extra <= 1 ->
            mapUint8Array (Z.of_nat k + extra) s
            = Ok (firstn (Z.to_nat (Z.of_nat k + extra))
                    (skipn (Z.to_nat (_byteOffset s + pos s)) (_buffer s)))
                 (set_pos s (pos s + (Z.of_nat k + extra)))).
  { intros extra Hextra.
    pose proof (mapUint8Array_cases (Z.of_nat k + extra) s) as Hm.
    rewrite or_zero, toInt32_small in Hm by lia. cbv zeta in Hm.
    assert (Hsl : slice (_buffer s) (_byteOffset s + pos s) (Z.of_nat k + extra)
                  = Some (firstn (Z.to_nat (Z.of_nat k + extra))
                            (skipn (Z.to_nat (_byteOffset s + pos s)) (_buffer s)))).
    { unfold slice.
      destruct (Z.ltb_spec (_byteOffset s + pos s) 0); [lia|].
      destruct (Z.ltb_spec (Z.of_nat k + extra) 0); [lia|].
      destruct (Z.ltb_spec (Z.of_nat (length (_buffer s)))
                  (_byteOffset s + pos s + (Z.of_nat k + extra))); [lia|].
      reflexivity. }
    destruct (mapUint8Array (Z.of_nat k + extra) s) as [arr s0|e s0].
    - destruct Hm as (_ & Hsl' & ->). rewrite Hsl in Hsl'. injection Hsl' as <-.
      reflexivity.
    - destruct Hm as (_ & [(_ & Hgt)|(_ & _ & Hnone)]); [lia|].
      rewrite Hsl in Hnone. discriminate. }
  unfold bind at 1. destruct include.
  - rewrite (Hmap 1 ltac:(lia)).
    replace (Z.to_nat (Z.of_nat k + 1)) with (k + 1)%nat by lia.
    destruct consume; unfold_reader; unfold set_pos;
      cbn [pos b2z _buffer _byteOffset _byteLength bitsLeft bits];
      do 2 f_equal; lia.
  - rewrite <- (Z.add_0_r (Z.of_nat k)) at 1. rewrite (Hmap 0 ltac:(lia)).
    replace (Z.to_nat (Z.of_nat k + 0)) with (k + 0)%nat by lia.
    destruct consume; unfold_reader; unfold set_pos;
      cbn [pos b2z _buffer _byteOffset _byteLength bitsLeft bits];
      do 2 f_equal; lia.
Qed.

(** Scenario S5: terminator excluded and consumed. *)
Example readBytesTerm_exclude_consume :
  readBytesTerm 0 false true false (newStream [0x41; 0x42; 0x43; 0; 0x44] 0)
  = Ok [0x41; 0x42; 0x43] (set_pos (newStream [0x41; 0x42; 0x43; 0; 0x44] 0) 4).
Proof. reflexivity. Qed.

(** C3 fails on the code when [include] is true: the terminator is at
    offset 3; with [include] and [consume] the cursor ends at 5, not 4,
    and with [include] alone at 4, not 3.  [mapUint8Array(i + 1)] has
    already moved [pos] past the terminator before [consume] adds 1. *)
Theorem readBytesTerm_include_overshoots :
  readBytesTerm 0 true true false (newStream [0x41; 0x42; 0x43; 0; 0x44] 0)
  = Ok [0x41; 0x42; 0x43; 0] (set_pos (newStream [0x41; 0x42; 0x43; 0; 0x44] 0) 5)
  /\ readBytesTerm 0 true false false (newStream [0x41; 0x42; 0x43; 0; 0x44] 0)
     = Ok [0x41; 0x42; 0x43; 0] (set_pos (newStream [0x41; 0x42; 0x43; 0; 0x44] 0) 4).
Proof. split; reflexivity. Qed.

(** ** [ensureFixedContents] *)

Lemma contentsDiffer_false (actual : list Z) :
  forall expected,
    length actual = length expected ->
    (contentsDiffer actual expected = false <-> actual = expected).
Proof.
  induction actual as [|a actual IH]; intros [|e expected] Hlen;
    try discriminate; cbn [contentsDiffer].
  - split; reflexivity.
  - injection Hlen as Hlen. destruct (Z.eqb_spec a e) as [->|Hne].
    + rewrite (IH expected Hlen). split; [intros ->; reflexivity | intros [= ->]; reflexivity].
    + split; [discriminate | intros [= Hae _]; contradiction].
Qed.

(** Past the end of the stream the read itself fails, with [EOFError]
    and the stream untouched. *)
Lemma ensureFixedContents_eof (expected : list Z) (s : KaitaiStream) :
  Z.of_nat (length expected) < 2 ^ 31 ->
  size s < pos s + Z.of_nat (length expected) ->
  ensureFixedContents expected s
  = Throw (EOFError (Z.of_nat (length expected)) (size s - pos s)) s.
Proof.
  intros Hlen Heof. unfold ensureFixedContents, readBytes. unfold bind at 1.
  pose proof (mapUint8Array_cases (Z.of_nat (length expected)) s) as Hm.
  rewrite or_zero, toInt32_small in Hm by lia. cbv zeta in Hm.
  destruct (mapUint8Array (Z.of_nat (length expected)) s) as [arr s0|e s0].
  - lia.
  - destruct Hm as (-> & [(-> & _)|(_ & Hle)]); [reflexivity | lia].
Qed.

(** C5: [ensureFixedContents(expected)] reads [expected.length] bytes
    (the bytes [actual] at the cursor, which moves past them).  When
    [actual] and [expected] are the same sequence it returns [actual];
    when they differ, in length or in any byte, it throws
    [UnexpectedDataError(expected, actual)]. *)
Theorem ensureFixedContents_spec (expected actual : list Z) (s : KaitaiStream) :
  Z.of_nat (length expected) < 2 ^ 31 ->
  pos s + Z.of_nat (length expected) <= size s ->
  slice (_buffer s) (_byteOffset s + pos s) (Z.of_nat (length expected)) = Some actual ->
  (actual = expected ->
   ensureFixedContents expected s
   = Ok actual (set_pos s (pos s + Z.of_nat (length expected)))) /\
  (actual <> expected ->
   ensureFixedContents expected s
   = Throw (UnexpectedDataError expected actual)
       (set_pos s (pos s + Z.of_nat (length expected)))).
Proof.
  intros Hlen Hle Hslice.
  assert (Hrun : ensureFixedContents expected s =
                 (if contentsDiffer actual expected
                  then Throw (UnexpectedDataError expected actual)
                         (set_pos s (pos s + Z.of_nat (length expected)))
                  else Ok actual (set_pos s (pos s + Z.of_nat (length expected))))).
  { unfold ensureFixedContents, readBytes. unfold bind at 1.
    pose proof (mapUint8Array_cases (Z.of_nat (length expected)) s) as Hm.
    rewrite or_zero, toInt32_small in Hm by lia. cbv zeta in Hm.
    destruct (mapUint8Array (Z.of_nat (length expected)) s) as [arr s0|e s0].
    - destruct Hm as (_ & Hsl & ->). rewrite Hslice in Hsl. injection Hsl as <-.
      rewrite (slice_length _ _ _ _ Hslice), Z.eqb_refl. cbn [negb].
      unfold_reader. destruct (contentsDiffer actual expected); reflexivity.
    - destruct Hm as (_ & [(_ & Hgt)|(_ & _ & Hnone)]); [lia|].
      rewrite Hslice in Hnone. discriminate. }
  assert (Hsame : length actual = length expected)
    by (apply Nat2Z.inj; exact (slice_length _ _ _ _ Hslice)).
  pose proof (contentsDiffer_false actual expected Hsame) as Hcd.
  rewrite Hrun. split.
  - intros Heq. destruct (contentsDiffer actual expected); [|reflexivity].
    apply Hcd in Heq. discriminate.
  - intros Hne. destruct (contentsDiffer actual expected); [reflexivity|].
    exfalso. apply Hne, Hcd. reflexivity.
Qed.

(** C5 at the Ogg sync code [4F 67 67 53]: accepted when it is there,
    rejected with both sequences when the last byte differs. *)
Lemma ensureFixedContents_spec_witness :
  ensureFixedContents [0x4F; 0x67; 0x67; 0x53] (newStream [0x4F; 0x67; 0x67; 0x53; 0] 0)
  = Ok [0x4F; 0x67; 0x67; 0x53] (set_pos (newStream [0x4F; 0x67; 0x67; 0x53; 0] 0) 4)
  /\ ensureFixedContents [0x4F; 0x67; 0x67; 0x54] (newStream [0x4F; 0x67; 0x67; 0x53; 0] 0)
     = Throw (UnexpectedDataError [0x4F; 0x67; 0x67; 0x54] [0x4F; 0x67; 0x67; 0x53])
         (set_pos (newStream [0x4F; 0x67; 0x67; 0x53; 0] 0) 4).
Proof.
  split.
  - apply (ensureFixedContents_spec [0x4F; 0x67; 0x67; 0x53] [0x4F; 0x67; 0x67; 0x53]
             (newStream [0x4F; 0x67; 0x67; 0x53; 0] 0));
      [reflexivity | vm_compute; discriminate | reflexivity | reflexivity].
  - apply (ensureFixedContents_spec [0x4F; 0x67; 0x67; 0x54] [0x4F; 0x67; 0x67; 0x53]
             (newStream [0x4F; 0x67; 0x67; 0x53; 0] 0));
      [reflexivity | vm_compute; discriminate | reflexivity | discriminate].
Defined.

(** ** [processRotateLeft] *)

Lemma byte_amount_cases (P : Z -> Z -> bool) (lo : Z) (count : nat) :
  forallb (fun a => forallb (P a) (zrange 0 256)) (zrange lo count) = true ->
  forall a b, lo <= a < lo + Z.of_nat count -> isByte b -> P a b = true.
Proof.
  intros Hall a b Ha Hb.
  pose proof (zrange_forallb _ lo count Hall a Ha) as Hrow. cbv beta in Hrow.
  apply (zrange_forallb (P a) 0 256 Hrow). unfold isByte in Hb. lia.
Qed.

(** For an amount from 0 to 7 the stored element is the byte rotated
    left by that amount. *)
Lemma rotateByte_rotl (a b : Z) :
  0 <= a <= 7 -> isByte b ->
  rotateByte a b = (b * 2 ^ a) mod 256 + b / 2 ^ (8 - a).
Proof.
  intros Ha Hb. apply Z.eqb_eq.
  apply (byte_amount_cases
           (fun a b => rotateByte a b =? (b * 2 ^ a) mod 256 + b / 2 ^ (8 - a)) 0 8);
    [vm_compute; reflexivity | lia | exact Hb].
Qed.

(** The amount is not reduced modulo 8 before the left shift: for a
    negative amount [-a] the element is the plain right shift [b >> a],
    and the [a] low bits are lost. *)
Lemma rotateByte_negative (a b : Z) :
  1 <= a <= 7 -> isByte b -> rotateByte (- a) b = Z.shiftr b a.
Proof.
  intros Ha Hb. apply Z.eqb_eq.
  apply (byte_amount_cases (fun a b => rotateByte (- a) b =? Z.shiftr b a) 1 7);
    [vm_compute; reflexivity | lia | exact Hb].
Qed.

Lemma rotateByte_isByte (a b : Z) : isByte (rotateByte a b).
Proof.
  unfold rotateByte, Js.toUint8, isByte. apply Z.mod_pos_bound. lia.
Qed.

Lemma rotateByte_inverse (a b : Z) :
  0 <= a <= 8 -> isByte b -> rotateByte (8 - a) (rotateByte a b) = b.
Proof.
  intros Ha Hb. apply Z.eqb_eq.
  apply (byte_amount_cases (fun a b => rotateByte (8 - a) (rotateByte a b) =? b) 0 9);
    [vm_compute; reflexivity | lia | exact Hb].
Qed.

(** C7 as written fails: rotating [0x80] left by 1 gives [0x01], and
    the call with amount [-1] shifts that to [0x00] instead of rotating
    it back. *)
Lemma processRotateLeft_negative_amount_loses_bits :
  processRotateLeft [0x80] 1 1 = Some [0x01] /\
  processRotateLeft [0x01] (-1) 1 = Some [0x00] /\
  Some [0x00] <> Some [0x80].
Proof. repeat split; try reflexivity. discriminate. Qed.

(** C7, amended: for every byte array [x] and every amount [a] from 0 to
    8, rotating by [a] and then by [8 - a] (the left rotation that undoes
    [a] modulo 8) gives [x] back. *)
Theorem processRotateLeft_roundtrip (x : list Z) (a : Z) :
  Forall isByte x -> 0 <= a <= 8 ->
  exists y,
    processRotateLeft x a 1 = Some y /\
    processRotateLeft y (8 - a) 1 = Some x.
Proof.
  intros Hx Ha. exists (map (rotateByte a) x). split; [reflexivity|].
  unfold processRotateLeft. cbn [Z.eqb Pos.eqb negb]. f_equal.
  rewrite map_map. induction Hx as [|b x Hb Hx IH]; [reflexivity|].
  cbn [map]. rewrite (rotateByte_inverse a b Ha Hb), IH. reflexivity.
Qed.

Lemma processRotateLeft_roundtrip_witness :
  Forall isByte [0x80; 0x01; 0xA5] /\ 0 <= 3 <= 8 /\
  exists y,
    processRotateLeft [0x80; 0x01; 0xA5] 3 1 = Some y /\
    processRotateLeft y (8 - 3) 1 = Some [0x80; 0x01; 0xA5].
Proof.
  assert (Hx : Forall isByte [0x80; 0x01; 0xA5])
    by (repeat constructor; unfold isByte; lia).
  split; [exact Hx|]. split; [lia|].
  apply (processRotateLeft_roundtrip [0x80; 0x01; 0xA5] 3 Hx). lia.
Defined.

(** ** Failing reads leave the stream untouched *)

Lemma failsClean_stream {A} (m : M A) : failsClean m -> streamFailsClean m.
Proof. intros Hm s e s' Hthrow _. exact (Hm s e s' Hthrow). Qed.

Lemma fmap_streamFailsClean {A B} (f : A -> B) (m : M A) :
  streamFailsClean m -> streamFailsClean (fmap f m).
Proof.
  intros Hm s e s'. unfold fmap. unfold_reader.
  destruct (m s) as [a s0|e0 s0] eqn:Hms; [discriminate|].
  intros [= <- <-]. apply (Hm s e0 s0 Hms).
Qed.

Lemma ensureBytesLeft_failsClean (n : Z) : failsClean (ensureBytesLeft n).
Proof.
  intros s e s'. unfold ensureBytesLeft.
  destruct (pos s + n >? size s); [intros [= _ <-]; reflexivity | discriminate].
Qed.

Lemma mapUint8Array_failsClean (n : Z) : failsClean (mapUint8Array n).
Proof.
  intros s e s' Hthrow. pose proof (mapUint8Array_cases n s) as Hm.
  rewrite Hthrow in Hm. apply Hm.
Qed.

Lemma readFixed_failsClean (n : Z) (decode : list Z -> Z) :
  failsClean (readFixed n decode).
Proof.
  intros s e s' Hthrow. pose proof (readFixed_cases n decode s) as Hm.
  rewrite Hthrow in Hm. apply Hm.
Qed.

(** The 64-bit readers: a check for 8 bytes, two 32-bit reads, and a
    combination [k] that does not throw.  Once the check has passed,
    neither 32-bit read can run out of bytes. *)
Lemma read8_streamFailsClean (d1 d2 : list Z -> Z) (k : Z -> Z -> M Z) :
  (forall v1 v2 s, exists r, k v1 v2 s = Ok r s) ->
  streamFailsClean
    (ensureBytesLeft 8 ;;; v1 <- readFixed 4 d1 ;; v2 <- readFixed 4 d2 ;; k v1 v2).
Proof.
  intros Hk s e s'. unfold bind at 1.
  destruct (ensureBytesLeft 8 s) as [[] s0|e0 s0] eqn:He.
  2:{ intros [= <- <-] _. exact (ensureBytesLeft_failsClean 8 s e0 s0 He). }
  assert (Hfit : pos s + 8 <= size s /\ s0 = s).
  { revert He. unfold ensureBytesLeft.
    destruct (Z.gtb_spec (pos s + 8) (size s)); [discriminate|].
    intros [= <-]. split; [assumption | reflexivity]. }
  destruct Hfit as (Hfit & ->).
  unfold bind at 1. pose proof (readFixed_cases 4 d1 s) as H1.
  destruct (readFixed 4 d1 s) as [v1 s1|e1 s1].
  2:{ intros [= <- <-] _. apply H1. }
  destruct H1 as (_ & ->).
  unfold bind at 1. pose proof (readFixed_cases 4 d2 (set_pos s (pos s + 4))) as H2.
  destruct (readFixed 4 d2 (set_pos s (pos s + 4))) as [v2 s2|e2 s2].
  - destruct (Hk v1 v2 s2) as (r & ->). discriminate.
  - intros [= <- <-] Hfail. destruct H2 as (_ & [(_ & Hshort)| ->]).
    + unfold size in *. cbn in Hshort. lia.
    + destruct Hfail.
Qed.

Lemma readBytesFull_failsClean : failsClean readBytesFull.
Proof.
  intros s e s'. unfold readBytesFull. unfold_reader.
  apply mapUint8Array_failsClean.
Qed.

Lemma readBytesTerm_failsClean (terminator : Z) (include consume eosError : bool) :
  failsClean (readBytesTerm terminator include consume eosError).
Proof.
  intros s e s'. unfold readBytesTerm. unfold bind at 1. unfold get.
  destruct ((_byteOffset s + pos s <? 0)
            || (Z.of_nat (length (_buffer s)) <? _byteOffset s + pos s)).
  { unfold throw. intros [= _ <-]. reflexivity. }
  set (i := scanTerm _ _ _ _).
  destruct (i =? size s - pos s).
  - destruct eosError.
    + unfold throw. intros [= _ <-]. reflexivity.
    + apply mapUint8Array_failsClean.
  - unfold bind at 1.
    assert (Hmap : failsClean (if include then mapUint8Array (i + 1) else mapUint8Array i))
      by (destruct include; apply mapUint8Array_failsClean).
    destruct ((if include then mapUint8Array (i + 1) else mapUint8Array i) s)
      as [arr s0|e0 s0] eqn:Hm.
    + destruct consume; unfold_reader; discriminate.
    + intros [= <- <-]. exact (Hmap s e0 s0 Hm).
Qed.

Lemma borrowBitsBe_failsClean (n : Z) : failsClean (borrowBitsBe n).
Proof.
  intros s e s'. unfold borrowBitsBe, readBytes. unfold_reader.
  destruct (n - bitsLeft s >? 0); [|discriminate].
  destruct (mapUint8Array (Js.ceilDiv8 (n - bitsLeft s)) s) as [arr s0|e0 s0] eqn:Hm;
    [discriminate|].
  intros [= <- <-]. exact (mapUint8Array_failsClean _ s e0 s0 Hm).
Qed.

Lemma borrowBitsLe_failsClean (n : Z) : failsClean (borrowBitsLe n).
Proof.
  intros s e s'. unfold borrowBitsLe, readBytes. unfold_reader.
  destruct (n - bitsLeft s >? 0); [|discriminate].
  destruct (mapUint8Array (Js.ceilDiv8 (n - bitsLeft s)) s) as [arr s0|e0 s0] eqn:Hm;
    [discriminate|].
  intros [= <- <-]. exact (mapUint8Array_failsClean _ s e0 s0 Hm).
Qed.

Lemma readBitsIntBe_failsClean (n : Z) : failsClean (readBitsIntBe n).
Proof.
  intros s e s'. unfold readBitsIntBe.
  destruct (n >? 32); [unfold throw; intros [= _ <-]; reflexivity|].
  unfold bind at 1.
  destruct (borrowBitsBe n s) as [[] s0|e0 s0] eqn:Hb.
  - unfold extractBitsBe. unfold_reader. discriminate.
  - intros [= <- <-]. exact (borrowBitsBe_failsClean n s e0 s0 Hb).
Qed.

Lemma readBitsIntLe_failsClean (n : Z) : failsClean (readBitsIntLe n).
Proof.
  intros s e s'. unfold readBitsIntLe.
  destruct (n >? 32); [unfold throw; intros [= _ <-]; reflexivity|].
  unfold bind at 1.
  destruct (borrowBitsLe n s) as [[] s0|e0 s0] eqn:Hb.
  - unfold extractBitsLe. unfold_reader. discriminate.
  - intros [= <- <-]. exact (borrowBitsLe_failsClean n s e0 s0 Hb).
Qed.

(** [ensureFixedContents] throws [UnexpectedDataError] after the cursor
    has moved; its end-of-stream failure comes from the read and leaves
    the stream as it was. *)
Lemma ensureFixedContents_streamFailsClean (expected : list Z) :
  streamFailsClean (ensureFixedContents expected).
Proof.
  intros s e s'. unfold ensureFixedContents, readBytes. unfold bind at 1.
  destruct (mapUint8Array (Z.of_nat (length expected)) s) as [arr s0|e0 s0] eqn:Hm.
  - destruct (negb _); [unfold throw; intros [= <- _] []|].
    destruct (contentsDiffer arr expected); unfold_reader;
      [intros [= <- _] [] | discriminate].
  - intros [= <- <-] _. exact (mapUint8Array_failsClean _ s e0 s0 Hm).
Qed.

Lemma ret_never_throws {A} (a b : A) (c : bool) (s : KaitaiStream) :
  exists r, (if c then ret a else ret b) s = Ok r s.
Proof. destruct c; eexists; reflexivity. Qed.

(** C9: whenever a reader operation fails with one of the stream
    failures (end of stream from [ensureBytesLeft], a bit width above 32
    in [readBitsIntBe]/[readBitsIntLe], a missing terminator in
    [readBytesTerm] with [eosError]), the stream ([pos], [bits],
    [bitsLeft] and the buffer fields) is exactly as it was before the
    call. *)
Theorem failed_read_leaves_stream (op : readerOp) (s s' : KaitaiStream) (e : error) :
  runOp op s = Throw e s' ->
  isStreamFailure e ->
  s' = s.
Proof.
  revert s e s'. change (streamFailsClean (runOp op)).
  destruct op; cbn [runOp]; apply fmap_streamFailsClean;
    try (apply failsClean_stream;
         first [ apply ensureBytesLeft_failsClean
               | apply readFixed_failsClean
               | apply readBitsIntBe_failsClean
               | apply readBitsIntLe_failsClean
               | apply mapUint8Array_failsClean
               | apply readBytesFull_failsClean
               | apply readBytesTerm_failsClean ]);
    try apply ensureFixedContents_streamFailsClean;
    try (apply read8_streamFailsClean; intros v1 v2 s;
         first [ apply ret_never_throws | eexists; reflexivity ]).
Qed.

(** C9 at a failing call: a 4-byte read with 2 bytes left, on a stream
    that holds 3 unread bits. *)
Lemma failed_read_leaves_stream_witness :
  runOp OpReadU4le (mkStream [1; 2; 3] 0 3 3 5 1 0)
  = Throw (EOFError 4 2) (mkStream [1; 2; 3] 0 3 3 5 1 0)
  /\ isStreamFailure (EOFError 4 2)
  /\ mkStream [1; 2; 3] 0 3 3 5 1 0 = mkStream [1; 2; 3] 0 3 3 5 1 0.
Proof.
  split; [reflexivity|]. split; [exact I|].
  exact (failed_read_leaves_stream OpReadU4le (mkStream [1; 2; 3] 0 3 3 5 1 0)
           (mkStream [1; 2; 3] 0 3 3 5 1 0) (EOFError 4 2) eq_refl I).
Defined.

(** The other two stream failures, at the same stream. *)
Example failed_bit_width_and_terminator :
  runOp (OpReadBitsIntBe 33) (mkStream [1; 2; 3] 0 3 3 5 1 0)
  = Throw (BitLengthError 33) (mkStream [1; 2; 3] 0 3 3 5 1 0)
  /\ runOp (OpReadBitsIntLe 33) (mkStream [1; 2; 3] 0 3 3 5 1 0)
     = Throw (BitLengthError 33) (mkStream [1; 2; 3] 0 3 3 5 1 0)
  /\ runOp (OpReadBytesTerm 0 false true true) (mkStream [1; 2; 3] 0 3 3 5 1 0)
     = Throw (NoTerminatorError 0) (mkStream [1; 2; 3] 0 3 3 5 1 0).
Proof. repeat split. Qed.

(** A failure outside the three: [ensureFixedContents] throws
    [UnexpectedDataError] with the cursor already past the bytes read. *)
Example ensureFixedContents_mismatch_moves :
  runOp (OpEnsureFixedContents [9; 9]) (newStream [1; 2; 3] 0)
  = Throw (UnexpectedDataError [9; 9] [1; 2]) (set_pos (newStream [1; 2; 3] 0) 2).
Proof. reflexivity. Qed.

(** * Further properties *)

(** ** [bytesStripRight] *)

Lemma stripRightLen_le (data : list Z) (padByte : Z) (n : nat) :
  (stripRightLen data padByte n <= n)%nat.
Proof.
  induction n as [|n IH]; cbn [stripRightLen]; [lia|].
  destruct (nth_error data n) as [x|]; [|lia].
  destruct (x =? padByte); lia.
Qed.

Lemma firstn_snoc_nth (l : list Z) :
  forall n x, nth_error l n = Some x -> firstn (S n) l = firstn n l ++ [x].
Proof.
  induction l as [|y l IH]; intros [|n] x Hn; try discriminate.
  - cbn in Hn. injection Hn as ->. reflexivity.
  - cbn [firstn app]. f_equal. apply IH. exact Hn.
Qed.

Lemma repeat_snoc (x : Z) (k : nat) : repeat x k ++ [x] = repeat x (S k).
Proof. induction k as [|k IH]; cbn; [reflexivity | f_equal; exact IH]. Qed.

(** The loop only steps over pad bytes. *)
Lemma stripRightLen_pads (data : list Z) (padByte : Z) (n : nat) :
  firstn n data
  = firstn (stripRightLen data padByte n) data
    ++ repeat padByte (n - stripRightLen data padByte n).
Proof.
  induction n as [|n IH]; cbn [stripRightLen].
  - reflexivity.
  - destruct (nth_error data n) as [x|] eqn:Hn.
    + destruct (Z.eqb_spec x padByte) as [->|Hne].
      * pose proof (stripRightLen_le data padByte n) as Hle.
        rewrite (firstn_snoc_nth data n padByte Hn), IH at 1.
        rewrite <- app_assoc, repeat_snoc. do 2 f_equal. lia.
      * rewrite Nat.sub_diag, app_nil_r. reflexivity.
    + rewrite Nat.sub_diag, app_nil_r. reflexivity.
Qed.

(** Where the loop stops there is no pad byte. *)
Lemma stripRightLen_stop (data : list Z) (padByte : Z) (n : nat) :
  (n <= length data)%nat ->
  match stripRightLen data padByte n with
  | O => True
  | S m => exists x, nth_error data m = Some x /\ x <> padByte
  end.
Proof.
  induction n as [|n IH]; intros Hn; cbn [stripRightLen]; [exact I|].
  destruct (nth_error data n) as [x|] eqn:Hx.
  - destruct (Z.eqb_spec x padByte) as [->|Hne].
    + apply IH. lia.
    + exists x. split; assumption.
  - apply nth_error_None in Hx. lia.
Qed.

Lemma last_of_firstn (l pre : list Z) (m : nat) (x : Z) :
  firstn (S m) l = pre ++ [x] -> (S m <= length l)%nat -> nth_error l m = Some x.
Proof.
  intros Heq Hlen.
  assert (Hpre : length pre = m).
  { apply (f_equal (@length Z)) in Heq.
    rewrite length_firstn, length_app in Heq. cbn [length] in Heq. lia. }
  assert (Hx : nth_error (firstn (S m) l) m = Some x).
  { rewrite Heq, nth_error_app2 by lia. rewrite Hpre, Nat.sub_diag. reflexivity. }
  rewrite nth_error_firstn in Hx.
  destruct (Nat.ltb_spec m (S m)); [exact Hx | lia].
Qed.

(** X1: [bytesStripRight(data, padByte)] removes exactly the trailing
    run of pad bytes: the input is the result followed by pad bytes only,
    and the result does not end with the pad byte. *)
Theorem bytesStripRight_trailing_run (data : list Z) (padByte : Z) :
  data = bytesStripRight data padByte
         ++ repeat padByte (length data - length (bytesStripRight data padByte))
  /\ (forall pre, bytesStripRight data padByte <> pre ++ [padByte]).
Proof.
  unfold bytesStripRight. cbv zeta.
  pose proof (stripRightLen_le data padByte (length data)) as Hle.
  pose proof (stripRightLen_pads data padByte (length data)) as Hpads.
  pose proof (stripRightLen_stop data padByte (length data) (Nat.le_refl _)) as Hstop.
  rewrite firstn_all in Hpads. split.
  - rewrite length_firstn, Nat.min_l by exact Hle. exact Hpads.
  - intros pre Heq.
    destruct (stripRightLen data padByte (length data)) as [|m].
    + destruct pre; discriminate.
    + destruct Hstop as (x & Hx & Hne).
      rewrite (last_of_firstn data pre m padByte Heq Hle) in Hx.
      injection Hx as <-. contradiction.
Qed.

Lemma stripRightLen_fixed (l : list Z) (padByte : Z) :
  (forall pre, l <> pre ++ [padByte]) ->
  stripRightLen l padByte (length l) = length l.
Proof.
  intros Hend. destruct (length l) as [|n] eqn:Hlen; [reflexivity|].
  cbn [stripRightLen].
  destruct (nth_error l n) as [x|] eqn:Hx; [|reflexivity].
  destruct (Z.eqb_spec x padByte) as [->|Hne]; [|reflexivity].
  exfalso. apply (Hend (firstn n l)).
  rewrite <- (firstn_snoc_nth l n padByte Hx), <- Hlen, firstn_all. reflexivity.
Qed.

(** X2: stripping is idempotent, and a byte array that does not end
    with the pad byte is returned unchanged. *)
Theorem bytesStripRight_idempotent (data : list Z) (padByte : Z) :
  bytesStripRight (bytesStripRight data padByte) padByte = bytesStripRight data padByte
  /\ ((forall pre, data <> pre ++ [padByte]) -> bytesStripRight data padByte = data).
Proof.
  assert (Hfix : forall l, (forall pre, l <> pre ++ [padByte]) ->
                           bytesStripRight l padByte = l).
  { intros l Hend. unfold bytesStripRight. cbv zeta.
    rewrite (stripRightLen_fixed l padByte Hend). apply firstn_all. }
  split; [|apply Hfix].
  apply Hfix.
  pose proof (stripRightLen_le data padByte (length data)) as Hle.
  pose proof (stripRightLen_stop data padByte (length data) (Nat.le_refl _)) as Hstop.
  unfold bytesStripRight. cbv zeta. intros pre Heq.
  destruct (stripRightLen data padByte (length data)) as [|m].
  - destruct pre; discriminate.
  - destruct Hstop as (x & Hx & Hne).
    rewrite (last_of_firstn data pre m padByte Heq Hle) in Hx.
    injection Hx as <-. contradiction.
Qed.

(** ** [bytesTerminate] *)

Lemma scanTerm_absent (terminator : Z) (fuel : nat) :
  forall i u8,
    (forall j, (j < fuel)%nat -> nth_error u8 j <> Some terminator) ->
    scanTerm fuel i u8 terminator = i + Z.of_nat fuel.
Proof.
  induction fuel as [|fuel IH]; intros i u8 Habs; cbn [scanTerm]; [lia|].
  destruct u8 as [|x rest].
  - rewrite IH; [lia|]. intros j _. destruct j; discriminate.
  - destruct (Z.eqb_spec x terminator) as [->|Hne].
    + exfalso. apply (Habs 0%nat); [lia | reflexivity].
    + rewrite IH; [lia|]. intros j Hj. apply (Habs (S j)). lia.
Qed.

Lemma firstAt_split (terminator : Z) (pre post : list Z) :
  ~ In terminator pre ->
  firstAt terminator (pre ++ terminator :: post) (length pre).
Proof.
  intros Hpre. split.
  - rewrite nth_error_app2, Nat.sub_diag by lia. reflexivity.
  - intros j Hj Hat. rewrite nth_error_app1 in Hat by exact Hj.
    apply Hpre. exact (nth_error_In pre j Hat).
Qed.

Lemma absent_nth_error (terminator : Z) (data : list Z) :
  ~ In terminator data -> forall j, nth_error data j <> Some terminator.
Proof. intros Habs j Hat. apply Habs. exact (nth_error_In data j Hat). Qed.

Lemma bytesTerminate_absent (term : Z) (include : bool) (data : list Z) :
  ~ In term data -> bytesTerminate data term include = data.
Proof.
  intros Habs. unfold bytesTerminate. cbv zeta.
  rewrite (scanTerm_absent term (length data) 0 data)
    by (intros j _; apply absent_nth_error, Habs).
  rewrite Z.add_0_l, Z.ltb_irrefl, andb_false_r, Nat2Z.id.
  apply firstn_all.
Qed.

Lemma bytesTerminate_found (term : Z) (include : bool) (pre post : list Z) :
  ~ In term pre ->
  bytesTerminate (pre ++ term :: post) term include
  = pre ++ (if include then [term] else []).
Proof.
  intros Hpre. unfold bytesTerminate. cbv zeta.
  rewrite (scanTerm_found term (length pre) (length (pre ++ term :: post)) 0
             (pre ++ term :: post));
    [| rewrite length_app; cbn [length]; lia | apply firstAt_split, Hpre].
  rewrite Z.add_0_l.
  assert (Hlt : (Z.of_nat (length pre) <? Z.of_nat (length (pre ++ term :: post))) = true).
  { apply Z.ltb_lt. rewrite length_app. cbn [length]. lia. }
  rewrite Hlt, andb_true_r. destruct include.
  - replace (Z.to_nat (Z.of_nat (length pre) + 1)) with (length (pre ++ [term]))
      by (rewrite length_app; cbn [length]; lia).
    change (pre ++ term :: post) with (pre ++ [term] ++ post).
    rewrite app_assoc, firstn_app, firstn_all, Nat.sub_diag. cbn [firstn].
    rewrite app_nil_r. reflexivity.
  - rewrite Nat2Z.id, firstn_app, firstn_all, Nat.sub_diag. cbn [firstn].
    reflexivity.
Qed.

(** X3: [bytesTerminate(data, term, include)] cuts [data] at the first
    [term]: the bytes before it, followed by the terminator itself when
    [include] is set; a [data] without [term] is returned whole. *)
Theorem bytesTerminate_first_terminator (term : Z) (include : bool) :
  (forall data, ~ In term data -> bytesTerminate data term include = data) /\
  (forall pre post,
      ~ In term pre ->
      bytesTerminate (pre ++ term :: post) term include
      = pre ++ (if include then [term] else [])).
Proof.
  split.
  - intros data. apply bytesTerminate_absent.
  - intros pre post. apply bytesTerminate_found.
Qed.

(** ** [processXorOne] and [processXorMany] *)

Lemma toInt32_mod_256 (x : Z) : Js.toInt32 x mod 256 = x mod 256.
Proof.
  unfold Js.toInt32. rewrite (Z.mod_eq (x + 2 ^ 31) (2 ^ 32)) by lia.
  replace (x + 2 ^ 31 - 2 ^ 32 * ((x + 2 ^ 31) / 2 ^ 32) - 2 ^ 31)
    with (x + (- (2 ^ 24 * ((x + 2 ^ 31) / 2 ^ 32))) * 256) by lia.
  apply Z.mod_add. lia.
Qed.

Lemma lxor_mod_256 (a b : Z) :
  Z.lxor a b mod 256 = Z.lxor (a mod 256) (b mod 256).
Proof.
  change 256 with (2 ^ 8). rewrite <- !Z.land_ones by lia.
  apply Z.bits_inj'. intros n Hn.
  rewrite !Z.land_spec, !Z.lxor_spec, !Z.land_spec.
  destruct (Z.testbit a n), (Z.testbit b n), (Z.testbit (Z.ones 8) n); reflexivity.
Qed.

(** The element stored for [d ^ k]: the XOR of the low bytes. *)
Lemma xor_byte (d k : Z) :
  Js.toUint8 (Js.xor d k) = Z.lxor (d mod 256) (k mod 256).
Proof.
  unfold Js.toUint8, Js.xor. rewrite lxor_mod_256, !toInt32_mod_256. reflexivity.
Qed.

Lemma xor_byte_isByte (d k : Z) : isByte (Js.toUint8 (Js.xor d k)).
Proof. unfold Js.toUint8, isByte. apply Z.mod_pos_bound. lia. Qed.

Lemma xor_byte_twice (d k : Z) :
  isByte d -> Js.toUint8 (Js.xor (Js.toUint8 (Js.xor d k)) k) = d.
Proof.
  intros Hd. rewrite (xor_byte (Js.toUint8 (Js.xor d k)) k).
  rewrite (Z.mod_small (Js.toUint8 (Js.xor d k)))
    by (apply xor_byte_isByte).
  rewrite xor_byte, Z.lxor_assoc, Z.lxor_nilpotent, Z.lxor_0_r.
  apply Z.mod_small. exact Hd.
Qed.

(** X4: XOR with one key is its own inverse on byte arrays, for every
    integer key (only the low byte of the key matters), and the result
    is again a byte array of the same length. *)
Theorem processXorOne_involution (data : list Z) (key : Z) :
  Forall isByte data ->
  processXorOne (processXorOne data key) key = data /\
  Forall isByte (processXorOne data key) /\
  length (processXorOne data key) = length data /\
  processXorOne data (key + 256) = processXorOne data key.
Proof.
  intros Hdata. unfold processXorOne. repeat split.
  - rewrite map_map. induction Hdata as [|d data Hd Hdata IH]; [reflexivity|].
    cbn [map]. rewrite (xor_byte_twice d key Hd), IH. reflexivity.
  - apply Forall_map. apply Forall_forall. intros d _. apply xor_byte_isByte.
  - apply length_map.
  - apply map_ext. intros d. rewrite !xor_byte.
    replace (key + 256) with (key + 1 * 256) by lia.
    rewrite Z.mod_add by lia. reflexivity.
Qed.

Lemma processXorOne_involution_witness :
  Forall isByte [0x12; 0xFF; 0x00] /\
  processXorOne [0x12; 0xFF; 0x00] 0x5A = [0x48; 0xA5; 0x5A] /\
  processXorOne (processXorOne [0x12; 0xFF; 0x00] 0x5A) 0x5A = [0x12; 0xFF; 0x00].
Proof.
  assert (Hb : Forall isByte [0x12; 0xFF; 0x00])
    by (repeat constructor; unfold isByte; lia).
  split; [exact Hb|]. split; [reflexivity|].
  apply (processXorOne_involution [0x12; 0xFF; 0x00] 0x5A Hb).
Defined.

Lemma xorManyFrom_cons (d : Z) (rest key : list Z) (ki : nat) :
  xorManyFrom (d :: rest) key ki
  = Js.toUint8 (Js.xor d (nth ki key 0)) :: xorManyFrom rest key (nextKeyIndex key ki).
Proof. reflexivity. Qed.

Lemma xorManyFrom_nth (key : list Z) (data : list Z) :
  forall ki i,
    (ki < length key)%nat -> (i < length data)%nat ->
    nth i (xorManyFrom data key ki) 0
    = Js.toUint8 (Js.xor (nth i data 0) (nth ((ki + i) mod length key) key 0)).
Proof.
  induction data as [|d data IH]; intros ki i Hki Hi; [cbn in Hi; lia|].
  rewrite xorManyFrom_cons. destruct i as [|i].
  - cbn [nth]. rewrite Nat.add_0_r, Nat.mod_small by exact Hki. reflexivity.
  - cbn [nth]. cbn [length] in Hi. unfold nextKeyIndex.
    destruct (Nat.leb_spec (length key) (S ki)) as [Hwrap|Hnext].
    + rewrite IH by lia.
      replace (ki + S i)%nat with (0 + i + 1 * length key)%nat by lia.
      rewrite Nat.Div0.mod_add. reflexivity.
    + rewrite IH by lia.
      replace (ki + S i)%nat with (S ki + i)%nat by lia. reflexivity.
Qed.

Lemma xorManyFrom_length (key data : list Z) :
  forall ki, length (xorManyFrom data key ki) = length data.
Proof.
  induction data as [|d data IH]; intros ki; [reflexivity|].
  rewrite xorManyFrom_cons. cbn [length]. rewrite IH. reflexivity.
Qed.

Lemma Forall_isByte_nth (l : list Z) (i : nat) :
  Forall isByte l -> isByte (nth i l 0).
Proof.
  intros Hl. destruct (Nat.lt_ge_cases i (length l)) as [Hi|Hi].
  - rewrite Forall_forall in Hl. apply Hl, nth_In, Hi.
  - rewrite nth_overflow by exact Hi. unfold isByte. lia.
Qed.

(** X5: with a non-empty key, element [i] of [processXorMany(data, key)]
    is [data[i] ^ key[i mod key.length]]: the key repeats cyclically.
    The result has the length of [data]. *)
Theorem processXorMany_cyclic_key (data key : list Z) (i : nat) :
  Forall isByte data -> Forall isByte key ->
  key <> [] -> (i < length data)%nat ->
  nth i (processXorMany data key) 0
  = Z.lxor (nth i data 0) (nth (i mod length key) key 0)
  /\ length (processXorMany data key) = length data.
Proof.
  intros Hdata Hkey Hne Hi. unfold processXorMany. split.
  - assert (Hkl : (0 < length key)%nat) by (destruct key; [contradiction | cbn; lia]).
    rewrite (xorManyFrom_nth key data 0 i Hkl Hi), xor_byte. cbn [Nat.add].
    rewrite !Z.mod_small; [reflexivity | |]; apply Forall_isByte_nth; assumption.
  - apply xorManyFrom_length.
Qed.

Lemma processXorMany_cyclic_key_witness :
  nth 3 (processXorMany [0x10; 0x20; 0x30; 0x40; 0x50] [0x01; 0x02; 0x03]) 0
  = Z.lxor 0x40 0x01.
Proof.
  apply (processXorMany_cyclic_key [0x10; 0x20; 0x30; 0x40; 0x50] [0x01; 0x02; 0x03] 3).
  - repeat constructor; unfold isByte; lia.
  - repeat constructor; unfold isByte; lia.
  - discriminate.
  - cbn. lia.
Defined.

Lemma xorManyFrom_twice (key : list Z) (data : list Z) :
  Forall isByte data ->
  forall ki, xorManyFrom (xorManyFrom data key ki) key ki = data.
Proof.
  induction 1 as [|d data Hd Hdata IH]; intros ki; [reflexivity|].
  rewrite !xorManyFrom_cons, (xor_byte_twice d _ Hd), IH. reflexivity.
Qed.

Lemma xorManyFrom_singleton (k : Z) (data : list Z) :
  xorManyFrom data [k] 0 = processXorOne data k.
Proof.
  induction data as [|d data IH]; [reflexivity|].
  rewrite xorManyFrom_cons. cbn [nth nextKeyIndex length Nat.leb map processXorOne].
  f_equal. exact IH.
Qed.

Lemma xorManyFrom_empty_key (data : list Z) :
  Forall isByte data -> xorManyFrom data [] 0 = data.
Proof.
  induction 1 as [|d data Hd Hdata IH]; [reflexivity|].
  rewrite xorManyFrom_cons. cbn [nth nextKeyIndex length Nat.leb].
  rewrite IH, xor_byte. change (0 mod 256) with 0.
  rewrite Z.lxor_0_r, Z.mod_small by exact Hd. reflexivity.
Qed.

(** X6: XOR with a repeating key is its own inverse on byte arrays, for
    every key; a one-element key gives [processXorOne], and an empty key
    (whose elements read as [undefined]) returns the bytes unchanged. *)
Theorem processXorMany_involution (data key : list Z) :
  Forall isByte data ->
  processXorMany (processXorMany data key) key = data /\
  (forall k, processXorMany data [k] = processXorOne data k) /\
  processXorMany data [] = data.
Proof.
  intros Hdata. unfold processXorMany. split; [|split].
  - apply xorManyFrom_twice, Hdata.
  - intros k. apply xorManyFrom_singleton.
  - apply xorManyFrom_empty_key, Hdata.
Qed.

Lemma processXorMany_involution_witness :
  processXorMany [0x10; 0x20; 0x30; 0x40] [0xAA; 0x55; 0xFF] = [0xBA; 0x75; 0xCF; 0xEA] /\
  processXorMany (processXorMany [0x10; 0x20; 0x30; 0x40] [0xAA; 0x55; 0xFF])
    [0xAA; 0x55; 0xFF] = [0x10; 0x20; 0x30; 0x40].
Proof.
  split; [reflexivity|].
  apply (processXorMany_involution [0x10; 0x20; 0x30; 0x40] [0xAA; 0x55; 0xFF]).
  repeat constructor; unfold isByte; lia.
Defined.

(** ** [mod], [arrayMin], [arrayMax] *)

(** X7: [mod(a, b)] throws for [b <= 0]; for a positive [b] it returns
    the non-negative remainder, a number in [[0, b)] congruent to [a]
    (the floored modulus, also for negative [a]). *)
Theorem mod_nonnegative_remainder (a b : Z) :
  (b <= 0 -> mod_ a b = None) /\
  (0 < b ->
   mod_ a b = Some (a mod b) /\ 0 <= a mod b < b /\
   exists q, a = b * q + a mod b).
Proof.
  unfold mod_. split.
  - intros Hb. destruct (Z.leb_spec b 0); [reflexivity | lia].
  - intros Hb. destruct (Z.leb_spec b 0); [lia|].
    split; [|split].
    + f_equal. pose proof (Z.quot_rem' a b) as Hqr.
      pose proof (Z.rem_bound_abs a b ltac:(lia)) as Habs.
      destruct (Z.ltb_spec (Z.rem a b) 0) as [Hneg|Hpos].
      * apply Z.mod_unique with (q := Z.quot a b - 1); lia.
      * apply Z.mod_unique with (q := Z.quot a b); lia.
    + apply Z.mod_pos_bound. exact Hb.
    + exists (a / b). apply Z.div_mod. lia.
Qed.

Lemma fold_min_spec (rest : list Z) :
  forall a0,
    let m := fold_left (fun min x => if x <? min then x else min) rest a0 in
    (m = a0 \/ In m rest) /\ m <= a0 /\ (forall x, In x rest -> m <= x).
Proof.
  induction rest as [|y rest IH]; intros a0; cbn [fold_left].
  - cbv zeta. split; [left; reflexivity|]. split; [lia | intros x []].
  - cbv zeta in *. specialize (IH (if y <? a0 then y else a0)).
    destruct IH as (Hin & Hle & Hall).
    destruct (Z.ltb_spec y a0) as [Hlt|Hge].
    + split; [right; destruct Hin as [->|Hin]; [left; reflexivity | right; exact Hin]|].
      split; [lia|]. intros x [<-|Hx]; [exact Hle | apply Hall, Hx].
    + split; [destruct Hin as [->|Hin]; [left; reflexivity | right; right; exact Hin]|].
      split; [exact Hle|]. intros x [<-|Hx]; [lia | apply Hall, Hx].
Qed.

Lemma fold_max_spec (rest : list Z) :
  forall a0,
    let m := fold_left (fun max x => if x >? max then x else max) rest a0 in
    (m = a0 \/ In m rest) /\ a0 <= m /\ (forall x, In x rest -> x <= m).
Proof.
  induction rest as [|y rest IH]; intros a0; cbn [fold_left].
  - cbv zeta. split; [left; reflexivity|]. split; [lia | intros x []].
  - cbv zeta in *. specialize (IH (if y >? a0 then y else a0)).
    destruct IH as (Hin & Hle & Hall).
    destruct (Z.gtb_spec y a0) as [Hlt|Hge].
    + split; [right; destruct Hin as [->|Hin]; [left; reflexivity | right; exact Hin]|].
      split; [lia|]. intros x [<-|Hx]; [exact Hle | apply Hall, Hx].
    + split; [destruct Hin as [->|Hin]; [left; reflexivity | right; right; exact Hin]|].
      split; [exact Hle|]. intros x [<-|Hx]; [lia | apply Hall, Hx].
Qed.

(** X8: on a non-empty array [arrayMin] and [arrayMax] return an
    element of the array that is a lower, respectively upper, bound of
    all its elements; on an empty array both return [undefined]. *)
Theorem arrayMin_arrayMax_bounds (arr : list Z) :
  (arr = [] -> arrayMin arr = None /\ arrayMax arr = None) /\
  (arr <> [] ->
   exists lo hi,
     arrayMin arr = Some lo /\ arrayMax arr = Some hi /\
     In lo arr /\ In hi arr /\
     forall x, In x arr -> lo <= x <= hi).
Proof.
  split.
  - intros ->. split; reflexivity.
  - intros Hne. destruct arr as [|a0 rest]; [contradiction|].
    pose proof (fold_min_spec rest a0) as (Hmin_in & Hmin_le & Hmin_all).
    pose proof (fold_max_spec rest a0) as (Hmax_in & Hmax_le & Hmax_all).
    cbv zeta in *. eexists. eexists. split; [reflexivity|]. split; [reflexivity|].
    split; [destruct Hmin_in as [->|Hin]; [left; reflexivity | right; exact Hin]|].
    split; [destruct Hmax_in as [->|Hin]; [left; reflexivity | right; exact Hin]|].
    intros x [<-|Hx]; split; auto.
Qed.

(** ** [byteArrayCompare] *)

Lemma firstDifference_nonzero (a : list Z) :
  forall b cmp, firstDifference a b = Some cmp -> cmp <> 0.
Proof.
  induction a as [|x a IH]; intros [|y b] cmp; cbn [firstDifference]; try discriminate.
  cbv zeta. destruct (Z.eqb_spec (x - y) 0) as [Hz|Hnz]; cbn [negb].
  - apply IH.
  - intros [= <-]. exact Hnz.
Qed.

Lemma firstDifference_none (a : list Z) :
  forall b,
    firstDifference a b = None ->
    firstn (Nat.min (length a) (length b)) a = firstn (Nat.min (length a) (length b)) b.
Proof.
  induction a as [|x a IH]; intros [|y b]; cbn [firstDifference length Nat.min firstn];
    try reflexivity.
  cbv zeta. destruct (Z.eqb_spec (x - y) 0) as [Hz|Hnz]; cbn [negb]; [|discriminate].
  intros Hnone. f_equal; [lia | apply IH, Hnone].
Qed.

Lemma firstDifference_swap (a : list Z) :
  forall b,
    firstDifference b a = option_map Z.opp (firstDifference a b).
Proof.
  induction a as [|x a IH]; intros [|y b]; cbn [firstDifference option_map];
    try reflexivity.
  cbv zeta. destruct (Z.eqb_spec (x - y) 0) as [Hz|Hnz], (Z.eqb_spec (y - x) 0) as [Hz'|Hnz'];
    cbn [negb option_map]; try lia.
  - apply IH.
  - f_equal. lia.
Qed.

Lemma byteArrayCompare_eq (a b : list Z) :
  byteArrayCompare a b = 0 <-> a = b.
Proof.
  unfold byteArrayCompare. cbv zeta. split.
  - destruct (firstDifference a b) as [cmp|] eqn:Hd.
    + intros ->. exfalso. exact (firstDifference_nonzero a b 0 Hd eq_refl).
    + destruct (Z.eqb_spec (Z.of_nat (length a)) (Z.of_nat (length b))) as [Hlen|Hlen];
        [|lia].
      intros _. apply firstDifference_none in Hd.
      assert (Hl : length a = length b) by lia.
      rewrite Hl, Nat.min_id in Hd. rewrite <- Hl in Hd at 1.
      rewrite !firstn_all in Hd. exact Hd.
  - intros <-. assert (Hn : firstDifference a a = None).
    { induction a as [|x a IH]; [reflexivity|]. cbn [firstDifference]. cbv zeta.
      rewrite Z.sub_diag. exact IH. }
    rewrite Hn, Z.eqb_refl. reflexivity.
Qed.

Lemma byteArrayCompare_swap (a b : list Z) :
  byteArrayCompare b a = - byteArrayCompare a b.
Proof.
  unfold byteArrayCompare. cbv zeta. rewrite (firstDifference_swap a b).
  destruct (firstDifference a b) as [cmp|]; cbn [option_map]; [reflexivity|].
  destruct (Z.eqb_spec (Z.of_nat (length a)) (Z.of_nat (length b))) as [Hlen|Hlen],
           (Z.eqb_spec (Z.of_nat (length b)) (Z.of_nat (length a))) as [Hlen'|Hlen'];
    lia.
Qed.

(** X9: [byteArrayCompare(a, b)] is 0 exactly when the two arrays have
    the same elements, and swapping the arguments negates the result. *)
Theorem byteArrayCompare_zero_iff_equal (a b : list Z) :
  (byteArrayCompare a b = 0 <-> a = b) /\
  byteArrayCompare b a = - byteArrayCompare a b.
Proof.
  split.
  - apply byteArrayCompare_eq.
  - apply byteArrayCompare_swap.
Qed.

Lemma byteArrayCompare_cons (x y : Z) (a b : list Z) :
  byteArrayCompare (x :: a) (y :: b)
  = if x =? y then byteArrayCompare a b else x - y.
Proof.
  unfold byteArrayCompare. cbn [firstDifference length]. cbv zeta.
  destruct (Z.eqb_spec (x - y) 0) as [Hz|Hnz], (Z.eqb_spec x y) as [Hxy|Hxy];
    cbn [negb]; try lia.
  destruct (firstDifference a b); [reflexivity|].
  destruct (Z.eqb_spec (Z.of_nat (length a)) (Z.of_nat (length b))),
           (Z.eqb_spec (Z.of_nat (S (length a))) (Z.of_nat (S (length b)))); lia.
Qed.

(** X10: [byteArrayCompare] orders arrays lexicographically: the result
    is negative exactly when [a] is a proper prefix of [b], or the two
    arrays agree up to an index where [a] has the smaller element. *)
Theorem byteArrayCompare_lexicographic (a b : list Z) :
  byteArrayCompare a b < 0 <->
  (exists y b', b = a ++ y :: b') \/
  (exists p x y a' b', a = p ++ x :: a' /\ b = p ++ y :: b' /\ x < y).
Proof.
  revert b. induction a as [|x a IH]; intros [|y b].
  - split; [cbn; lia|].
    intros [(y & b' & H)|(p & x & y & a' & b' & H & _)];
      [discriminate | destruct p; discriminate].
  - split; [intros _; left; exists y, b; reflexivity|].
    intros _. unfold byteArrayCompare. cbn [firstDifference length]. cbv zeta.
    destruct (Z.eqb_spec (Z.of_nat 0) (Z.of_nat (S (length b)))); lia.
  - split.
    + unfold byteArrayCompare. cbn [firstDifference length]. cbv zeta.
      destruct (Z.eqb_spec (Z.of_nat (S (length a))) (Z.of_nat 0)); lia.
    + intros [(y & b' & H)|(p & x' & y & a' & b' & _ & H & _)];
        [discriminate | destruct p; discriminate].
  - rewrite byteArrayCompare_cons. destruct (Z.eqb_spec x y) as [->|Hxy].
    + rewrite IH. split.
      * intros [(z & b' & ->)|(p & x' & y' & a' & b' & -> & -> & Hlt)].
        -- left. exists z, b'. reflexivity.
        -- right. exists (y :: p), x', y', a', b'. repeat split. exact Hlt.
      * intros [(z & b' & H)|(p & x' & y' & a' & b' & Ha & Hb & Hlt)].
        -- left. injection H as ->. exists z, b'. reflexivity.
        -- right. destruct p as [|z p].
           ++ injection Ha as -> _. injection Hb as -> _. lia.
           ++ injection Ha as _ ->. injection Hb as _ ->.
              exists p, x', y', a', b'. repeat split. exact Hlt.
    + split.
      * intros Hlt. right. exists [], x, y, a, b. repeat split. lia.
      * intros [(z & b' & H)|(p & x' & y' & a' & b' & Ha & Hb & Hlt)].
        -- injection H as -> _. contradiction.
        -- destruct p as [|z p].
           ++ injection Ha as -> _. injection Hb as -> _. lia.
           ++ injection Ha as -> _. injection Hb as -> _. contradiction.
Qed.

(** ** Reading byte runs *)

Lemma slice_some (buf : list Z) (start len : Z) :
  0 <= start -> 0 <= len -> start + len <= Z.of_nat (length buf) ->
  slice buf start len
  = Some (firstn (Z.to_nat len) (skipn (Z.to_nat start) buf)).
Proof.
  intros Hs Hl Hb. unfold slice.
  destruct (Z.ltb_spec start 0); [lia|].
  destruct (Z.ltb_spec len 0); [lia|].
  destruct (Z.ltb_spec (Z.of_nat (length buf)) (start + len)); [lia|].
  reflexivity.
Qed.

(** On a well-formed stream a read of [n] available bytes returns the
    [n] bytes at the cursor and moves the cursor past them. *)
Lemma mapUint8Array_exact (n : Z) (s : KaitaiStream) :
  wellFormed s -> 0 <= n -> pos s + n <= size s ->
  mapUint8Array n s
  = Ok (firstn (Z.to_nat n) (fromCursor s)) (set_pos s (pos s + n)).
Proof.
  intros (Hoff & Hpos & Hlen & Hsmall & Hdv) Hn Hfit.
  assert (Hsz : size s = _byteLength s - _byteOffset s) by reflexivity.
  pose proof (mapUint8Array_cases n s) as Hm.
  rewrite or_zero, toInt32_small in Hm by lia. cbv zeta in Hm.
  pose proof (slice_some (_buffer s) (_byteOffset s + pos s) n
                ltac:(lia) Hn ltac:(lia)) as Hsl.
  destruct (mapUint8Array n s) as [arr s0|e s0].
  - destruct Hm as (_ & Hsl' & ->). rewrite Hsl in Hsl'. injection Hsl' as <-.
    reflexivity.
  - destruct Hm as (_ & [(_ & Hgt)|(_ & _ & Hnone)]); [lia|].
    rewrite Hsl in Hnone. discriminate.
Qed.

Lemma wellFormed_set_pos (s : KaitaiStream) (p : Z) :
  wellFormed s -> 0 <= p -> wellFormed (set_pos s p).
Proof.
  intros (Hoff & Hpos & Hlen & Hsmall & Hdv) Hp.
  unfold wellFormed. cbn [_byteOffset _byteLength _buffer pos _dataView set_pos].
  repeat split; solve [assumption | apply Hdv].
Qed.

Lemma fromCursor_set_pos (s : KaitaiStream) (n : Z) :
  wellFormed s -> 0 <= n ->
  fromCursor (set_pos s (pos s + n)) = skipn (Z.to_nat n) (fromCursor s).
Proof.
  intros (Hoff & Hpos & _) Hn. unfold fromCursor. cbn [_byteOffset pos set_pos _buffer].
  rewrite skipn_skipn. f_equal. lia.
Qed.

Lemma firstn_add_split (l : list Z) (n m : nat) :
  firstn (n + m) l = firstn n l ++ firstn m (skipn n l).
Proof.
  revert l. induction n as [|n IH]; intros l; [reflexivity|].
  destruct l as [|x l]; [cbn; rewrite firstn_nil; reflexivity|].
  cbn [Nat.add firstn skipn app]. f_equal. apply IH.
Qed.

(** X11: on a well-formed stream, reading [n] bytes and then [m] bytes
    returns the two halves of what one read of [n + m] bytes returns,
    and leaves the stream in the same state. *)
Theorem readBytes_concat (n m : Z) (s : KaitaiStream) :
  wellFormed s -> 0 <= n -> 0 <= m -> pos s + n + m <= size s ->
  (a <- readBytes n ;; b <- readBytes m ;; ret (a ++ b)) s = readBytes (n + m) s.
Proof.
  intros Hwf Hn Hm Hfit. unfold readBytes. unfold_reader.
  assert (Hpos : 0 <= pos s) by apply Hwf.
  rewrite (mapUint8Array_exact n s Hwf Hn ltac:(lia)).
  rewrite (mapUint8Array_exact m (set_pos s (pos s + n)));
    [| apply wellFormed_set_pos; [exact Hwf | lia] | exact Hm
     | cbn [pos set_pos]; unfold size in *; cbn [_byteLength _byteOffset set_pos]; lia].
  rewrite (mapUint8Array_exact (n + m) s Hwf ltac:(lia) ltac:(lia)).
  rewrite (fromCursor_set_pos s n Hwf Hn).
  replace (Z.to_nat (n + m)) with (Z.to_nat n + Z.to_nat m)%nat by lia.
  rewrite firstn_add_split. cbn [pos set_pos]. unfold set_pos. cbn.
  do 2 f_equal. lia.
Qed.

Lemma readBytes_concat_witness :
  (a <- readBytes 1 ;; b <- readBytes 2 ;; ret (a ++ b)) (newStream [1; 2; 3; 4] 0)
  = Ok [1; 2; 3] (set_pos (newStream [1; 2; 3; 4] 0) 3).
Proof.
  rewrite (readBytes_concat 1 2 (newStream [1; 2; 3; 4] 0)).
  - reflexivity.
  - repeat split; cbn; lia.
  - lia.
  - lia.
  - cbn. lia.
Defined.

(** X12: on a well-formed stream, [readBytesFull()] returns all the
    unread bytes and leaves the cursor at the end of the stream; any
    further read of [n >= 1] bytes then throws [EOFError(n, 0)]. *)
Theorem readBytesFull_reaches_end (s : KaitaiStream) :
  wellFormed s -> pos s <= size s ->
  readBytesFull s = Ok (remaining s) (set_pos s (size s)) /\
  Z.of_nat (length (remaining s)) = size s - pos s /\
  forall n, 1 <= n < 2 ^ 31 ->
            readBytes n (set_pos s (size s)) = Throw (EOFError n 0) (set_pos s (size s)).
Proof.
  intros Hwf Hle. destruct Hwf as (Hoff & Hpos & Hlen & Hsmall & Hdv).
  assert (Hwf : wellFormed s) by (repeat split; solve [assumption | apply Hdv]).
  assert (Hsz : size s = _byteLength s - _byteOffset s) by reflexivity.
  split; [|split].
  - unfold readBytesFull. unfold_reader.
    rewrite (mapUint8Array_exact (size s - pos s) s Hwf ltac:(lia) ltac:(lia)).
    unfold remaining. do 2 f_equal. lia.
  - unfold remaining, fromCursor. rewrite length_firstn, length_skipn. lia.
  - intros n Hn. unfold readBytes.
    pose proof (mapUint8Array_cases n (set_pos s (size s))) as Hm.
    rewrite or_zero, toInt32_small in Hm by lia. cbv zeta in Hm.
    assert (Hsz' : size (set_pos s (size s)) = size s) by reflexivity.
    rewrite Hsz' in Hm. cbn [pos set_pos] in Hm.
    destruct (mapUint8Array n (set_pos s (size s))) as [arr s0|e s0].
    + lia.
    + destruct Hm as (-> & [(-> & _)|(_ & Hfit & _)]); [|lia].
      rewrite Z.sub_diag. reflexivity.
Qed.

Lemma readBytesFull_reaches_end_witness :
  readBytesFull (set_pos (newStream [1; 2; 3; 4] 0) 1)
  = Ok [2; 3; 4] (set_pos (newStream [1; 2; 3; 4] 0) 4).
Proof.
  apply (readBytesFull_reaches_end (set_pos (newStream [1; 2; 3; 4] 0) 1)).
  - repeat split; cbn; lia.
  - cbn. lia.
Defined.

(** ** [readBytesTerm] and [bytesTerminate] *)

Lemma in_first_split (x : Z) (l : list Z) :
  In x l -> exists pre post, l = pre ++ x :: post /\ ~ In x pre.
Proof.
  induction l as [|y l IH]; intros Hin; [destruct Hin|].
  destruct (Z.eq_dec y x) as [->|Hne].
  - exists [], l. split; [reflexivity | intros []].
  - destruct Hin as [Heq|Hin]; [contradiction|].
    destruct (IH Hin) as (pre & post & -> & Hpre).
    exists (y :: pre), post. split; [reflexivity|].
    intros [Heq|Hin']; [contradiction | exact (Hpre Hin')].
Qed.

Lemma fromCursor_remaining (s : KaitaiStream) :
  wellFormed s -> pos s <= size s ->
  exists rest, fromCursor s = remaining s ++ rest /\
               length (remaining s) = Z.to_nat (size s - pos s).
Proof.
  intros (Hoff & Hpos & Hlen & Hsmall & Hdv) Hle.
  assert (Hsz : size s = _byteLength s - _byteOffset s) by reflexivity.
  exists (skipn (Z.to_nat (size s - pos s)) (fromCursor s)). split.
  - unfold remaining. symmetry. apply firstn_skipn.
  - unfold remaining, fromCursor. rewrite length_firstn, length_skipn. lia.
Qed.

(** X13: on a well-formed stream [readBytesTerm] returns what
    [bytesTerminate] computes from the unread bytes.  When the terminator
    occurs, this holds for every setting of [consume] and [eosError];
    when it does not occur, the call returns all the unread bytes and
    moves to the end of the stream if [eosError] is clear, and throws,
    leaving the stream untouched, if [eosError] is set. *)
Theorem readBytesTerm_bytesTerminate
        (terminator : Z) (include consume : bool) (s : KaitaiStream) :
  wellFormed s -> pos s <= size s ->
  (In terminator (remaining s) ->
   forall eosError, exists s',
     readBytesTerm terminator include consume eosError s
     = Ok (bytesTerminate (remaining s) terminator include) s') /\
  (~ In terminator (remaining s) ->
   readBytesTerm terminator include consume false s
   = Ok (bytesTerminate (remaining s) terminator include) (set_pos s (size s)) /\
   bytesTerminate (remaining s) terminator include = remaining s /\
   readBytesTerm terminator include consume true s
   = Throw (NoTerminatorError terminator) s).
Proof.
  intros Hwf Hle.
  destruct (fromCursor_remaining s Hwf Hle) as (rest & Hcur & Hrlen).
  pose proof Hwf as (Hoff & Hpos & Hlen & Hsmall & Hdv).
  assert (Hsz : size s = _byteLength s - _byteOffset s) by reflexivity.
  split.
  - intros Hin eosError.
    destruct (in_first_split terminator (remaining s) Hin) as (pre & post & Hsplit & Hpre).
    assert (Hk : Z.of_nat (length pre) < size s - pos s).
    { apply (f_equal (@length Z)) in Hsplit. rewrite length_app in Hsplit.
      cbn [length] in Hsplit. lia. }
    assert (Hfirst : firstAt terminator (fromCursor s) (length pre)).
    { rewrite Hcur, Hsplit, <- app_assoc. cbn [app]. apply firstAt_split, Hpre. }
    eexists.
    rewrite (readBytesTerm_found terminator include consume eosError s (length pre)
               Hwf Hk Hfirst).
    f_equal. fold (fromCursor s).
    rewrite Hcur, Hsplit.
    rewrite (bytesTerminate_found terminator include pre post Hpre).
    rewrite <- app_assoc. cbn [app].
    destruct include.
    + change (pre ++ terminator :: post ++ rest) with (pre ++ [terminator] ++ post ++ rest).
      rewrite app_assoc.
      replace (length pre + 1)%nat with (length (pre ++ [terminator]))
        by (rewrite length_app; cbn [length]; lia).
      rewrite firstn_app, firstn_all, Nat.sub_diag. cbn [firstn].
      rewrite app_nil_r. reflexivity.
    + rewrite Nat.add_0_r, firstn_app, firstn_all, Nat.sub_diag. cbn [firstn].
      reflexivity.
  - intros Habs.
    assert (Hterm : bytesTerminate (remaining s) terminator include = remaining s)
      by (apply bytesTerminate_absent, Habs).
    assert (Hscan : scanTerm (Z.to_nat (size s - pos s)) 0 (fromCursor s) terminator
                    = size s - pos s).
    { rewrite scanTerm_absent; [lia|].
      intros j Hj Hat. apply Habs. rewrite Hcur in Hat.
      rewrite nth_error_app1 in Hat by lia. exact (nth_error_In _ j Hat). }
    assert (Hrun : forall eosError,
               readBytesTerm terminator include consume eosError s
               = if eosError then Throw (NoTerminatorError terminator) s
                 else mapUint8Array (size s - pos s) s).
    { intros eosError. unfold readBytesTerm. unfold bind at 1. unfold get.
      destruct (Z.ltb_spec (_byteOffset s + pos s) 0) as [|_]; [lia|].
      destruct (Z.ltb_spec (Z.of_nat (length (_buffer s))) (_byteOffset s + pos s))
        as [|_]; [lia|]. cbn [orb].
      fold (fromCursor s). rewrite Hscan, Z.eqb_refl.
      destruct eosError; reflexivity. }
    split; [|split; [exact Hterm|]].
    + rewrite Hrun, Hterm.
      rewrite (mapUint8Array_exact (size s - pos s) s Hwf ltac:(lia) ltac:(lia)).
      unfold remaining. do 2 f_equal. lia.
    + rewrite Hrun. reflexivity.
Qed.

Lemma readBytesTerm_bytesTerminate_witness :
  In 0 (remaining (newStream [0x41; 0x42; 0x43; 0; 0x44] 0)) /\
  exists s',
    readBytesTerm 0 false true false (newStream [0x41; 0x42; 0x43; 0; 0x44] 0)
    = Ok (bytesTerminate (remaining (newStream [0x41; 0x42; 0x43; 0; 0x44] 0)) 0 false) s'.
Proof.
  assert (Hin : In 0 (remaining (newStream [0x41; 0x42; 0x43; 0; 0x44] 0)))
    by (vm_compute; right; right; right; left; reflexivity).
  split; [exact Hin|].
  apply (readBytesTerm_bytesTerminate 0 false true (newStream [0x41; 0x42; 0x43; 0; 0x44] 0)).
  - repeat split; cbn; lia.
  - cbn. lia.
  - exact Hin.
Defined.

(** ** The cursor stays inside the stream *)

Lemma scanTerm_bounds (terminator : Z) (fuel : nat) :
  forall i u8, i <= scanTerm fuel i u8 terminator <= i + Z.of_nat fuel.
Proof.
  induction fuel as [|fuel IH]; intros i u8; cbn [scanTerm]; [lia|].
  destruct u8 as [|x rest].
  - specialize (IH (i + 1) []). lia.
  - destruct (x =? terminator); [lia|]. specialize (IH (i + 1) rest). lia.
Qed.

Lemma mapUint8Array_inRange (n : Z) (s : KaitaiStream) :
  posInRange s -> posInRange (finalState (mapUint8Array n s)).
Proof.
  intros Hs. pose proof (mapUint8Array_cases n s) as Hm. cbv zeta in Hm.
  destruct (mapUint8Array n s) as [arr s0|e s0]; cbn [finalState].
  - destruct Hm as (Hfit & Hsl & ->). unfold posInRange in *.
    apply slice_length in Hsl. cbn [pos set_pos].
    change (size (set_pos s (pos s + Js.or n 0))) with (size s). lia.
  - destruct Hm as (-> & _). exact Hs.
Qed.

Lemma readFixed_inRange (n : Z) (decode : list Z -> Z) (s : KaitaiStream) :
  0 <= n -> posInRange s -> posInRange (finalState (readFixed n decode s)).
Proof.
  intros Hn Hs. pose proof (readFixed_cases n decode s) as Hm.
  destruct (readFixed n decode s) as [v s0|e s0]; cbn [finalState].
  - destruct Hm as (Hfit & ->). unfold posInRange in *. cbn [pos set_pos].
    change (size (set_pos s (pos s + n))) with (size s). lia.
  - destruct Hm as (-> & _). exact Hs.
Qed.

Lemma fmap_finalState {A B} (f : A -> B) (m : M A) (s : KaitaiStream) :
  finalState (fmap f m s) = finalState (m s).
Proof. unfold fmap. unfold_reader. destruct (m s); reflexivity. Qed.

Lemma read8_inRange (d1 d2 : list Z -> Z) (k : Z -> Z -> M Z) (s : KaitaiStream) :
  (forall v1 v2 s, exists r, k v1 v2 s = Ok r s) ->
  posInRange s ->
  posInRange
    (finalState
       ((ensureBytesLeft 8 ;;; v1 <- readFixed 4 d1 ;; v2 <- readFixed 4 d2 ;; k v1 v2) s)).
Proof.
  intros Hk Hs. unfold bind at 1. unfold ensureBytesLeft.
  destruct (pos s + 8 >? size s); [exact Hs|].
  unfold bind at 1. pose proof (readFixed_inRange 4 d1 s ltac:(lia) Hs) as H1.
  destruct (readFixed 4 d1 s) as [v1 s1|e1 s1]; cbn [finalState] in H1 |- *; [|exact H1].
  unfold bind at 1. pose proof (readFixed_inRange 4 d2 s1 ltac:(lia) H1) as H2.
  destruct (readFixed 4 d2 s1) as [v2 s2|e2 s2]; cbn [finalState] in H2 |- *; [|exact H2].
  destruct (Hk v1 v2 s2) as (r & ->). exact H2.
Qed.

Lemma fillBitsBe_pos (fuel : nat) :
  forall i buf s, pos (fillBitsBe fuel i buf s) = pos s /\
                  size (fillBitsBe fuel i buf s) = size s.
Proof.
  induction fuel as [|fuel IH]; intros i buf s; [split; reflexivity|].
  cbn [fillBitsBe]. cbv zeta. destruct (IH (i + 1) buf
    (set_bitsLeft (set_bits (set_bits s (Js.shl (bits s) 8))
       (Js.or (bits (set_bits s (Js.shl (bits s) 8))) (nth (Z.to_nat i) buf 0)))
       (bitsLeft (set_bits (set_bits s (Js.shl (bits s) 8))
          (Js.or (bits (set_bits s (Js.shl (bits s) 8))) (nth (Z.to_nat i) buf 0))) + 8)))
    as (Hp & Hs).
  rewrite Hp, Hs. split; reflexivity.
Qed.

Lemma fillBitsLe_pos (fuel : nat) :
  forall i buf s, pos (fillBitsLe fuel i buf s) = pos s /\
                  size (fillBitsLe fuel i buf s) = size s.
Proof.
  induction fuel as [|fuel IH]; intros i buf s; [split; reflexivity|].
  cbn [fillBitsLe]. cbv zeta. destruct (IH (i + 1) buf
    (set_bitsLeft
       (set_bits s (Js.or (bits s) (Js.shl (nth (Z.to_nat i) buf 0) (bitsLeft s))))
       (bitsLeft
          (set_bits s (Js.or (bits s) (Js.shl (nth (Z.to_nat i) buf 0) (bitsLeft s)))) + 8)))
    as (Hp & Hs).
  rewrite Hp, Hs. split; reflexivity.
Qed.

Lemma readBitsIntBe_inRange (n : Z) (s : KaitaiStream) :
  posInRange s -> posInRange (finalState (readBitsIntBe n s)).
Proof.
  intros Hs. unfold readBitsIntBe. destruct (n >? 32); [exact Hs|].
  unfold bind at 1. unfold borrowBitsBe, readBytes. unfold bind at 1. unfold get.
  destruct (n - bitsLeft s >? 0).
  - unfold bind at 1.
    pose proof (mapUint8Array_inRange (Js.ceilDiv8 (n - bitsLeft s)) s Hs) as Hm.
    destruct (mapUint8Array (Js.ceilDiv8 (n - bitsLeft s)) s) as [arr s0|e s0];
      cbn [finalState] in Hm |- *; [|exact Hm].
    unfold modify, extractBitsBe. unfold_reader. cbn [finalState].
    unfold posInRange in *.
    destruct (fillBitsBe_pos (Z.to_nat (Js.ceilDiv8 (n - bitsLeft s))) 0 arr s0) as (Hp & Hsz).
    cbn [pos set_bits set_bitsLeft].
    change (size (set_bits _ _)) with
      (size (fillBitsBe (Z.to_nat (Js.ceilDiv8 (n - bitsLeft s))) 0 arr s0)).
    rewrite Hp, Hsz. exact Hm.
  - unfold extractBitsBe. unfold_reader. cbn [finalState]. exact Hs.
Qed.

Lemma readBitsIntLe_inRange (n : Z) (s : KaitaiStream) :
  posInRange s -> posInRange (finalState (readBitsIntLe n s)).
Proof.
  intros Hs. unfold readBitsIntLe. destruct (n >? 32); [exact Hs|].
  unfold bind at 1. unfold borrowBitsLe, readBytes. unfold bind at 1. unfold get.
  destruct (n - bitsLeft s >? 0).
  - unfold bind at 1.
    pose proof (mapUint8Array_inRange (Js.ceilDiv8 (n - bitsLeft s)) s Hs) as Hm.
    destruct (mapUint8Array (Js.ceilDiv8 (n - bitsLeft s)) s) as [arr s0|e s0];
      cbn [finalState] in Hm |- *; [|exact Hm].
    unfold modify, extractBitsLe. unfold_reader. cbn [finalState].
    unfold posInRange in *.
    destruct (fillBitsLe_pos (Z.to_nat (Js.ceilDiv8 (n - bitsLeft s))) 0 arr s0) as (Hp & Hsz).
    cbn [pos set_bits set_bitsLeft].
    change (size (set_bitsLeft _ _)) with
      (size (fillBitsLe (Z.to_nat (Js.ceilDiv8 (n - bitsLeft s))) 0 arr s0)).
    rewrite Hp, Hsz. exact Hm.
  - unfold extractBitsLe. unfold_reader. cbn [finalState]. exact Hs.
Qed.

Lemma toInt32_le (i : Z) : 0 <= i -> Js.toInt32 i <= i.
Proof.
  intros Hi. destruct (Z.lt_ge_cases i (2 ^ 31)) as [Hs|Hb].
  - rewrite toInt32_small by lia. lia.
  - pose proof (toInt32_range i). lia.
Qed.

Lemma readBytesTerm_inRange
      (terminator : Z) (include consume eosError : bool) (s : KaitaiStream) :
  include && consume = false ->
  posInRange s ->
  posInRange (finalState (readBytesTerm terminator include consume eosError s)).
Proof.
  intros Hflags Hs. unfold readBytesTerm. unfold bind at 1. unfold get.
  destruct ((_byteOffset s + pos s <? 0)
            || (Z.of_nat (length (_buffer s)) <? _byteOffset s + pos s)); [exact Hs|].
  pose proof (scanTerm_bounds terminator (Z.to_nat (size s - pos s)) 0
                (skipn (Z.to_nat (_byteOffset s + pos s)) (_buffer s))) as Hscan.
  set (i := scanTerm _ _ _ _) in *.
  destruct (Z.eqb_spec i (size s - pos s)) as [Heq|Hne].
  - destruct eosError; [exact Hs | apply mapUint8Array_inRange, Hs].
  - unfold bind at 1. destruct include.
    + destruct consume; [discriminate|].
      pose proof (mapUint8Array_inRange (i + 1) s Hs) as Hm.
      destruct (mapUint8Array (i + 1) s) as [arr s0|e s0]; exact Hm.
    + pose proof (mapUint8Array_cases i s) as Hm. cbv zeta in Hm.
      destruct (mapUint8Array i s) as [arr s0|e s0].
      * destruct Hm as (Hfit & Hsl & ->). apply slice_length in Hsl.
        rewrite or_zero in *. pose proof (toInt32_le i ltac:(lia)) as Hle.
        unfold posInRange in *.
        destruct consume; unfold_reader; cbn [finalState pos set_pos];
          change (size (set_pos _ _)) with (size s); lia.
      * destruct Hm as (-> & _). exact Hs.
Qed.

Lemma ensureFixedContents_inRange (expected : list Z) (s : KaitaiStream) :
  posInRange s -> posInRange (finalState (ensureFixedContents expected s)).
Proof.
  intros Hs. unfold ensureFixedContents, readBytes. unfold bind at 1.
  pose proof (mapUint8Array_inRange (Z.of_nat (length expected)) s Hs) as Hm.
  destruct (mapUint8Array (Z.of_nat (length expected)) s) as [arr s0|e s0];
    cbn [finalState] in Hm |- *; [|exact Hm].
  destruct (negb _); [exact Hm|].
  destruct (contentsDiffer arr expected); exact Hm.
Qed.

(** With [include] and [consume] both set and the terminator in the
    last byte, [readBytesTerm] leaves the cursor one past the end. *)
Example readBytesTerm_past_end :
  readBytesTerm 0 true true false (newStream [0x41; 0] 0)
  = Ok [0x41; 0] (set_pos (newStream [0x41; 0] 0) 3).
Proof. reflexivity. Qed.

(** X14: every reader operation started with the cursor inside the
    stream ends, returned or thrown, with the cursor inside the stream.
    The one exception is [readBytesTerm] with [include] and [consume]
    both set.  [seek] always leaves the cursor inside the stream. *)
Theorem cursor_stays_in_range (op : readerOp) (s : KaitaiStream) :
  posInRange s ->
  (forall t e, op <> OpReadBytesTerm t true true e) ->
  posInRange (finalState (runOp op s)) /\
  forall p, posInRange (seek p s).
Proof.
  intros Hs Hop. split.
  - destruct op; cbn [runOp]; rewrite fmap_finalState;
      try (apply readFixed_inRange; [lia | exact Hs]);
      try (apply read8_inRange; [|exact Hs]; intros v1 v2 s0;
           first [ apply ret_never_throws | eexists; reflexivity ]).
    + unfold ensureBytesLeft. destruct (pos s + n >? size s); exact Hs.
    + apply readBitsIntBe_inRange, Hs.
    + apply readBitsIntLe_inRange, Hs.
    + apply mapUint8Array_inRange, Hs.
    + unfold readBytesFull. unfold_reader. apply mapUint8Array_inRange, Hs.
    + apply readBytesTerm_inRange; [|exact Hs].
      destruct include, consume; try reflexivity.
      exfalso. exact (Hop terminator eosError eq_refl).
    + apply ensureFixedContents_inRange, Hs.
  - intros p. unfold posInRange in *. unfold seek. cbn [pos set_pos].
    change (size (set_pos s _)) with (size s).
    destruct p as [| | |z]; cbn; lia.
Qed.

Lemma cursor_stays_in_range_witness :
  posInRange (newStream [1; 2; 3] 0) /\
  posInRange (finalState (runOp OpReadU2be (newStream [1; 2; 3] 0))) /\
  posInRange (finalState (runOp OpReadU4be (newStream [1; 2; 3] 0))).
Proof.
  assert (Hs : posInRange (newStream [1; 2; 3] 0)) by (unfold posInRange; cbn; lia).
  split; [exact Hs|]. split.
  - apply (cursor_stays_in_range OpReadU2be (newStream [1; 2; 3] 0) Hs). discriminate.
  - apply (cursor_stays_in_range OpReadU4be (newStream [1; 2; 3] 0) Hs). discriminate.
Defined.

(** ** Fixed-width readers *)

Lemma readFixed_exact (n : Z) (decode : list Z -> Z) (s : KaitaiStream) :
  wellFormed s -> 0 <= n -> pos s + n <= size s ->
  readFixed n decode s
  = Ok (decode (firstn (Z.to_nat n) (fromDataView s))) (set_pos s (pos s + n)).
Proof.
  intros (Hoff & Hpos & Hlen & Hsmall & Hdv) Hn Hfit.
  assert (Hsz : size s = _byteLength s - _byteOffset s) by reflexivity.
  unfold readFixed, ensureBytesLeft, dataViewGet. unfold_reader.
  destruct (Z.gtb_spec (pos s + n) (size s)); [lia|].
  destruct (Z.ltb_spec (pos s) 0); [lia|].
  rewrite (slice_some (_buffer s) (_dataView s + pos s) n) by lia.
  reflexivity.
Qed.

Lemma fromDataView_aligned (s : KaitaiStream) :
  dataViewAligned s -> fromDataView s = fromCursor s.
Proof. unfold dataViewAligned, fromDataView, fromCursor. intros ->. reflexivity. Qed.

Lemma dataViewAligned_set_pos (s : KaitaiStream) (p : Z) :
  dataViewAligned s -> dataViewAligned (set_pos s p).
Proof. intros Hs. exact Hs. Qed.

Lemma readFixed_readsWidth (n : Z) (decode : list Z -> Z) (s : KaitaiStream) :
  0 <= n -> readsWidth n (readFixed n decode) s.
Proof.
  intros Hn. pose proof (readFixed_cases n decode s) as Hc. split; [|split].
  - intros v s' Hr. rewrite Hr in Hc. destruct Hc as (Hfit & ->). split; [reflexivity | exact Hfit].
  - intros Hwf Hfit. eexists. apply readFixed_exact; assumption.
  - intros Hshort. unfold readFixed, ensureBytesLeft. unfold_reader.
    destruct (Z.gtb_spec (pos s + n) (size s)); [reflexivity | lia].
Qed.

Lemma fmap_readsWidth {A B} (f : A -> B) (w : Z) (m : M A) (s : KaitaiStream) :
  readsWidth w m s -> readsWidth w (fmap f m) s.
Proof.
  intros (Hok & Hex & Heof). unfold fmap. unfold_reader. split; [|split].
  - intros v s'. destruct (m s) as [a s0|e s0]; [|discriminate].
    intros [= _ <-]. exact (Hok a s0 eq_refl).
  - intros Hwf Hfit. destruct (Hex Hwf Hfit) as (v & ->). eexists. reflexivity.
  - intros Hshort. rewrite (Heof Hshort). reflexivity.
Qed.

Lemma read8_readsWidth (d1 d2 : list Z -> Z) (k : Z -> Z -> M Z) (s : KaitaiStream) :
  (forall v1 v2 s, exists r, k v1 v2 s = Ok r s) ->
  readsWidth 8
    (ensureBytesLeft 8 ;;; v1 <- readFixed 4 d1 ;; v2 <- readFixed 4 d2 ;; k v1 v2) s.
Proof.
  intros Hk.
  assert (Hs2 : set_pos (set_pos s (pos s + 4)) (pos (set_pos s (pos s + 4)) + 4)
                = set_pos s (pos s + 8)).
  { unfold set_pos. cbn. f_equal. lia. }
  split; [|split].
  - intros v s'. unfold bind at 1. unfold ensureBytesLeft.
    destruct (Z.gtb_spec (pos s + 8) (size s)) as [|Hfit]; [discriminate|].
    unfold bind at 1. pose proof (readFixed_cases 4 d1 s) as H1.
    destruct (readFixed 4 d1 s) as [v1 s1|e1 s1]; [|discriminate].
    destruct H1 as (_ & ->). unfold bind at 1.
    pose proof (readFixed_cases 4 d2 (set_pos s (pos s + 4))) as H2.
    destruct (readFixed 4 d2 (set_pos s (pos s + 4))) as [v2 s2|e2 s2]; [|discriminate].
    destruct H2 as (_ & ->). destruct (Hk v1 v2 (set_pos (set_pos s (pos s + 4))
                                                   (pos (set_pos s (pos s + 4)) + 4)))
      as (r & ->).
    intros [= _ <-]. split; [exact Hs2 | exact Hfit].
  - intros Hwf Hfit. unfold bind at 1. rewrite (ensureBytesLeft_ok s 8 Hfit).
    assert (Hpos : 0 <= pos s) by apply Hwf.
    unfold bind at 1. rewrite (readFixed_exact 4 d1 s Hwf ltac:(lia) ltac:(lia)).
    unfold bind at 1.
    rewrite (readFixed_exact 4 d2 (set_pos s (pos s + 4)));
      [| apply wellFormed_set_pos; [exact Hwf | lia] | lia
       | cbn [pos set_pos]; change (size (set_pos s (pos s + 4))) with (size s); lia].
    rewrite Hs2.
    destruct (Hk (d1 (firstn (Z.to_nat 4) (fromDataView s)))
                 (d2 (firstn (Z.to_nat 4) (fromDataView (set_pos s (pos s + 4)))))
                 (set_pos s (pos s + 8))) as (r & ->).
    exists r. reflexivity.
  - intros Hshort. unfold bind at 1. rewrite (ensureBytesLeft_eof s 8 Hshort). reflexivity.
Qed.

(** X15: a fixed-width reader of width [w] (1, 2, 4 or 8 bytes, signed,
    unsigned or float, either byte order), when it returns, has moved the
    cursor by exactly [w] and changed nothing else; on a well-formed
    stream it returns whenever [w] bytes are left; and with fewer than
    [w] bytes left it throws [EOFError(w, size - pos)] from an untouched
    stream. *)
Theorem fixed_width_reader (op : readerOp) (w : Z) (s : KaitaiStream) :
  opWidth op = Some w ->
  (forall v s', runOp op s = Ok v s' ->
                s' = set_pos s (pos s + w) /\ pos s + w <= size s) /\
  (wellFormed s -> pos s + w <= size s ->
   exists v, runOp op s = Ok v (set_pos s (pos s + w))) /\
  (size s < pos s + w -> runOp op s = Throw (EOFError w (size s - pos s)) s).
Proof.
  intros Hw. change (readsWidth w (runOp op) s).
  destruct op; cbn [opWidth] in Hw; try discriminate; injection Hw as <-;
    cbn [runOp]; apply fmap_readsWidth;
    first [ apply readFixed_readsWidth; lia
          | apply read8_readsWidth; intros v1 v2 s0;
            first [ apply ret_never_throws | eexists; reflexivity ] ].
Qed.

Lemma fixed_width_reader_witness :
  opWidth OpReadS4le = Some 4 /\
  runOp OpReadS4le (newStream [1; 2; 3] 0) = Throw (EOFError 4 3) (newStream [1; 2; 3] 0) /\
  exists v, runOp OpReadU2be (newStream [1; 2; 3] 0)
            = Ok v (set_pos (newStream [1; 2; 3] 0) 2).
Proof.
  split; [reflexivity|]. split.
  - apply (fixed_width_reader OpReadS4le 4 (newStream [1; 2; 3] 0) eq_refl).
    cbn. lia.
  - apply (fixed_width_reader OpReadU2be 2 (newStream [1; 2; 3] 0) eq_refl).
    + repeat split; cbn; lia.
    + cbn. lia.
Defined.

(** ** Multi-byte readers, byte by byte *)

Lemma readFixed_inv (n : Z) (decode : list Z -> Z) (s s' : KaitaiStream) (v : Z) :
  readFixed n decode s = Ok v s' ->
  pos s + n <= size s /\ 0 <= pos s /\
  exists bytes,
    slice (_buffer s) (_dataView s + pos s) n = Some bytes /\
    v = decode bytes /\ s' = set_pos s (pos s + n).
Proof.
  unfold readFixed, ensureBytesLeft, dataViewGet. unfold_reader.
  destruct (Z.gtb_spec (pos s + n) (size s)); [discriminate|].
  destruct (Z.ltb_spec (pos s) 0); [discriminate|].
  destruct (slice (_buffer s) (_dataView s + pos s) n) as [bytes|]; [|discriminate].
  intros [= <- <-]. repeat split; try assumption. exists bytes. repeat split.
Qed.

Lemma readFixed_intro (n : Z) (decode : list Z -> Z) (s : KaitaiStream) (bytes : list Z) :
  pos s + n <= size s -> 0 <= pos s ->
  slice (_buffer s) (_dataView s + pos s) n = Some bytes ->
  readFixed n decode s = Ok (decode bytes) (set_pos s (pos s + n)).
Proof.
  intros Hfit Hpos Hsl. unfold readFixed, ensureBytesLeft, dataViewGet. unfold_reader.
  destruct (Z.gtb_spec (pos s + n) (size s)); [lia|].
  destruct (Z.ltb_spec (pos s) 0); [lia|].
  rewrite Hsl. reflexivity.
Qed.

Lemma slice_split (buf : list Z) (start n m : Z) (l : list Z) :
  0 <= n -> 0 <= m ->
  slice buf start (n + m) = Some l ->
  slice buf start n = Some (firstn (Z.to_nat n) l) /\
  slice buf (start + n) m = Some (skipn (Z.to_nat n) l).
Proof.
  intros Hn Hm. unfold slice at 1.
  destruct (Z.ltb_spec start 0); [discriminate|].
  destruct (Z.ltb_spec (n + m) 0); [discriminate|].
  destruct (Z.ltb_spec (Z.of_nat (length buf)) (start + (n + m))); [discriminate|].
  cbn [orb]. intros [= <-]. split.
  - rewrite (slice_some buf start n) by lia. f_equal.
    rewrite firstn_firstn. f_equal. lia.
  - rewrite (slice_some buf (start + n) m) by lia. f_equal.
    replace (Z.to_nat (n + m)) with (Z.to_nat n + Z.to_nat m)%nat by lia.
    rewrite skipn_firstn_comm, skipn_skipn.
    replace (Z.to_nat n + Z.to_nat m - Z.to_nat n)%nat with (Z.to_nat m) by lia.
    do 2 f_equal. lia.
Qed.

(** A read of [n + m] bytes is a read of [n] bytes followed by a read of
    [m] bytes, each decoding its part. *)
Lemma readFixed_split (n m : Z) (d d1 d2 : list Z -> Z) (s s' : KaitaiStream) (v : Z) :
  0 <= n -> 0 <= m ->
  readFixed (n + m) d s = Ok v s' ->
  exists bytes,
    v = d bytes /\ Z.of_nat (length bytes) = n + m /\
    readFixed n d1 s = Ok (d1 (firstn (Z.to_nat n) bytes)) (set_pos s (pos s + n)) /\
    readFixed m d2 (set_pos s (pos s + n)) = Ok (d2 (skipn (Z.to_nat n) bytes)) s'.
Proof.
  intros Hn Hm Hr.
  apply readFixed_inv in Hr as (Hfit & Hpos & bytes & Hsl & -> & ->).
  destruct (slice_split _ _ n m bytes Hn Hm Hsl) as (Hs1 & Hs2).
  exists bytes. split; [reflexivity|]. split; [exact (slice_length _ _ _ _ Hsl)|]. split.
  - apply readFixed_intro; [lia | exact Hpos | exact Hs1].
  - replace (set_pos s (pos s + (n + m)))
      with (set_pos (set_pos s (pos s + n)) (pos (set_pos s (pos s + n)) + m))
      by (unfold set_pos; cbn; f_equal; lia).
    apply readFixed_intro.
    + cbn [pos set_pos]. change (size (set_pos s (pos s + n))) with (size s). lia.
    + cbn [pos set_pos]. lia.
    + cbn [pos set_pos _buffer _byteOffset _dataView].
      rewrite Z.add_assoc. exact Hs2.
Qed.

Lemma list_of_length_2 (l : list Z) :
  Z.of_nat (length l) = 2 -> exists b0 b1, l = [b0; b1].
Proof.
  destruct l as [|b0 [|b1 [|b2 l]]]; cbn [length]; try lia.
  intros _. exists b0, b1. reflexivity.
Qed.

Lemma list_of_length_4 (l : list Z) :
  Z.of_nat (length l) = 4 -> exists b0 b1 b2 b3, l = [b0; b1; b2; b3].
Proof.
  destruct l as [|b0 [|b1 [|b2 [|b3 [|b4 l]]]]]; cbn [length]; try lia.
  intros _. exists b0, b1, b2, b3. reflexivity.
Qed.

Lemma readU2_bytewise (d : list Z -> Z) (s s' : KaitaiStream) (v : Z) :
  readFixed 2 d s = Ok v s' ->
  exists b0 b1,
    v = d [b0; b1] /\
    readU1 s = Ok b0 (set_pos s (pos s + 1)) /\
    readU1 (set_pos s (pos s + 1)) = Ok b1 s'.
Proof.
  intros Hr.
  destruct (readFixed_split 1 1 d beUint beUint s s' v ltac:(lia) ltac:(lia) Hr)
    as (bytes & -> & Hlen & H0 & H1).
  destruct (list_of_length_2 bytes Hlen) as (b0 & b1 & ->).
  exists b0, b1. split; [reflexivity|]. split; [exact H0 | exact H1].
Qed.

(** X16: a successful 16-bit or 32-bit unsigned read returns the value
    assembled from the bytes that successive [readU1] calls return, most
    significant byte first for the big-endian readers and least
    significant byte first for the little-endian ones, and ends in the
    same stream state. *)
Theorem unsigned_readers_bytewise (s s' : KaitaiStream) (v : Z) :
  (readU2be s = Ok v s' ->
   (b0 <- readU1 ;; b1 <- readU1 ;; ret (b0 * 2 ^ 8 + b1)) s = Ok v s') /\
  (readU2le s = Ok v s' ->
   (b0 <- readU1 ;; b1 <- readU1 ;; ret (b0 + b1 * 2 ^ 8)) s = Ok v s') /\
  (readU4be s = Ok v s' ->
   (h <- readU2be ;; l <- readU2be ;; ret (h * 2 ^ 16 + l)) s = Ok v s') /\
  (readU4le s = Ok v s' ->
   (l <- readU2le ;; h <- readU2le ;; ret (l + h * 2 ^ 16)) s = Ok v s').
Proof.
  split; [|split; [|split]].
  - intros Hr. destruct (readU2_bytewise _ s s' v Hr) as (b0 & b1 & -> & H0 & H1).
    unfold_reader. rewrite H0, H1. f_equal.
    all: change (Z.to_nat 2) with 2%nat; unfold beUint; cbn [firstn skipn fold_left]; lia.
  - intros Hr. destruct (readU2_bytewise _ s s' v Hr) as (b0 & b1 & -> & H0 & H1).
    unfold_reader. rewrite H0, H1. f_equal.
    all: change (Z.to_nat 2) with 2%nat; unfold leUint, beUint;
      cbn [firstn skipn rev app fold_left]; lia.
  - intros Hr.
    destruct (readFixed_split 2 2 beUint beUint beUint s s' v ltac:(lia) ltac:(lia) Hr)
      as (bytes & -> & Hlen & H0 & H1).
    destruct (list_of_length_4 bytes Hlen) as (b0 & b1 & b2 & b3 & ->).
    unfold_reader. unfold readU2be. rewrite H0, H1. f_equal.
    all: change (Z.to_nat 2) with 2%nat; unfold beUint; cbn [firstn skipn fold_left]; lia.
  - intros Hr.
    destruct (readFixed_split 2 2 leUint leUint leUint s s' v ltac:(lia) ltac:(lia) Hr)
      as (bytes & -> & Hlen & H0 & H1).
    destruct (list_of_length_4 bytes Hlen) as (b0 & b1 & b2 & b3 & ->).
    unfold_reader. unfold readU2le. rewrite H0, H1. f_equal.
    all: change (Z.to_nat 2) with 2%nat; unfold leUint, beUint;
      cbn [firstn skipn rev app fold_left]; lia.
Qed.

(** ** Signed and unsigned 64-bit reads *)

Lemma beUint_app (l1 l2 : list Z) :
  beUint (l1 ++ l2) = beUint l1 * 256 ^ Z.of_nat (length l2) + beUint l2.
Proof.
  unfold beUint. rewrite fold_left_app.
  generalize (fold_left (fun acc b => acc * 256 + b) l1 0) as a.
  induction l2 as [|b l2 IH]; intros a.
  - cbn. lia.
  - cbn [fold_left length]. rewrite IH, (IH (0 * 256 + b)).
    rewrite Nat2Z.inj_succ, Z.pow_succ_r by lia. lia.
Qed.

Lemma beUint_range (l : list Z) :
  Forall isByte l -> 0 <= beUint l < 256 ^ Z.of_nat (length l).
Proof.
  induction l as [|b l IH] using rev_ind; intros Hl.
  - cbn. lia.
  - apply Forall_app in Hl as (Hl & Hb). apply Forall_inv in Hb.
    specialize (IH Hl). rewrite beUint_app, length_app. cbn [length].
    change (beUint [b]) with (0 * 256 + b). unfold isByte in Hb.
    rewrite Nat2Z.inj_add. change (Z.of_nat 1) with 1.
    rewrite Z.pow_add_r, Z.pow_1_r by lia. lia.
Qed.

Lemma leUint_range (l : list Z) :
  Forall isByte l -> 0 <= leUint l < 256 ^ Z.of_nat (length l).
Proof.
  intros Hl. unfold leUint. rewrite <- length_rev. apply beUint_range.
  apply Forall_rev, Hl.
Qed.

Lemma Forall_firstn_skipn (P : Z -> Prop) (n : nat) (l : list Z) :
  Forall P l -> Forall P (firstn n l) /\ Forall P (skipn n l).
Proof.
  intros Hl. rewrite <- (firstn_skipn n l) in Hl. apply Forall_app in Hl. exact Hl.
Qed.

Lemma slice_isByte (buf : list Z) (start len : Z) (l : list Z) :
  Forall isByte buf -> slice buf start len = Some l -> Forall isByte l.
Proof.
  intros Hbuf. unfold slice. destruct (_ || _); [discriminate|].
  intros [= <-]. apply Forall_firstn_skipn. apply Forall_firstn_skipn. exact Hbuf.
Qed.

(** A successful 32-bit unsigned read on a buffer of bytes returns a
    32-bit unsigned number. *)
Lemma readU4_range (d : list Z -> Z) (s s' : KaitaiStream) (v : Z) :
  (forall l, Forall isByte l -> 0 <= d l < 256 ^ Z.of_nat (length l)) ->
  Forall isByte (_buffer s) ->
  readFixed 4 d s = Ok v s' ->
  0 <= v < 2 ^ 32 /\ _buffer s' = _buffer s.
Proof.
  intros Hd Hbuf Hr. apply readFixed_inv in Hr as (_ & _ & bytes & Hsl & -> & ->).
  split; [|reflexivity].
  pose proof (Hd bytes (slice_isByte _ _ _ _ Hbuf Hsl)) as Hrange.
  rewrite (slice_length _ _ _ _ Hsl) in Hrange. exact Hrange.
Qed.

(** The shared prefix of the 64-bit readers, once it has succeeded. *)
Lemma read8_ok (d : list Z -> Z) (k : Z -> Z -> M Z) (s s' : KaitaiStream) (v : Z) :
  (ensureBytesLeft 8 ;;; v1 <- readFixed 4 d ;; v2 <- readFixed 4 d ;; k v1 v2) s = Ok v s' ->
  exists v1 v2 s1 s2,
    readFixed 4 d s = Ok v1 s1 /\ readFixed 4 d s1 = Ok v2 s2 /\
    k v1 v2 s2 = Ok v s' /\
    forall k' : Z -> Z -> M Z,
      (ensureBytesLeft 8 ;;; v1 <- readFixed 4 d ;; v2 <- readFixed 4 d ;; k' v1 v2) s
      = k' v1 v2 s2.
Proof.
  unfold bind at 1. unfold ensureBytesLeft.
  destruct (pos s + 8 >? size s) eqn:Hfit; [discriminate|].
  unfold bind at 1. destruct (readFixed 4 d s) as [v1 s1|e1 s1] eqn:H1; [|discriminate].
  unfold bind at 1. destruct (readFixed 4 d s1) as [v2 s2|e2 s2] eqn:H2; [|discriminate].
  intros Hk. exists v1, v2, s1, s2. repeat split; try assumption.
  intros k'. unfold bind, ensureBytesLeft. rewrite Hfit, H1, H2. reflexivity.
Qed.

Lemma read8_run (d : list Z -> Z) (k : Z -> Z -> M Z)
      (s s1 s2 : KaitaiStream) (v1 v2 : Z) :
  readFixed 4 d s = Ok v1 s1 -> readFixed 4 d s1 = Ok v2 s2 ->
  (ensureBytesLeft 8 ;;; v1 <- readFixed 4 d ;; v2 <- readFixed 4 d ;; k v1 v2) s
  = k v1 v2 s2.
Proof.
  intros H1 H2.
  pose proof (readFixed_cases 4 d s) as C1. rewrite H1 in C1. destruct C1 as (_ & C1).
  pose proof (readFixed_cases 4 d s1) as C2. rewrite H2 in C2. destruct C2 as (C2 & _).
  subst s1. change (pos (set_pos s (pos s + 4))) with (pos s + 4) in C2.
  change (size (set_pos s (pos s + 4))) with (size s) in C2.
  unfold bind at 1. rewrite (ensureBytesLeft_ok s 8) by lia.
  unfold bind. rewrite H1, H2. reflexivity.
Qed.

Lemma ret_if (c : bool) (a b : Z) (s : KaitaiStream) :
  (if c then ret a else ret b) s = Ok (if c then a else b) s.
Proof. destruct c; reflexivity. Qed.

(** *** Rounding to double precision *)

Lemma sgn_mul_abs (x : Z) : Z.sgn x * Z.abs x = x.
Proof. destruct x; cbn [Z.sgn Z.abs]; lia. Qed.

(** Integers up to 2^53 in magnitude are doubles. *)
Lemma round_small (x : Z) : Z.abs x <= 2 ^ 53 -> JsNumber.round x = x.
Proof.
  intros Hx. unfold JsNumber.round. cbv zeta.
  destruct (Z.leb_spec (Z.log2 (Z.abs x) - 52) 0) as [|He]; [reflexivity|].
  assert (Hpos : 0 < Z.abs x).
  { destruct (Z.eq_dec (Z.abs x) 0) as [H0|H0]; [|lia].
    rewrite H0 in He. cbn in He. lia. }
  assert (Hbig : ~ Z.abs x < 2 ^ 53).
  { intros Hlt. apply (Z.log2_lt_pow2 _ _ Hpos) in Hlt. lia. }
  assert (Habs : Z.abs x = 2 ^ 53) by lia.
  destruct (Z.abs_eq_cases x (2 ^ 53)) as [->| ->]; [exact Habs | |]; reflexivity.
Qed.

(** So are the multiples of a power of two by an integer below 2^53. *)
Lemma round_shifted (a k : Z) :
  0 <= k -> Z.abs a < 2 ^ 53 -> JsNumber.round (2 ^ k * a) = 2 ^ k * a.
Proof.
  intros Hk Ha. destruct (Z.eq_dec a 0) as [->|Hnz].
  { rewrite Z.mul_0_r. reflexivity. }
  assert (HA : 0 < Z.abs a) by lia.
  assert (Hp : 0 < 2 ^ k) by (apply Z.pow_pos_nonneg; lia).
  assert (Habs : Z.abs (2 ^ k * a) = Z.abs a * 2 ^ k).
  { rewrite Z.abs_mul, (Z.abs_eq (2 ^ k)) by lia. lia. }
  assert (Hlog : Z.log2 (Z.abs a) <= 52).
  { apply (Z.log2_lt_pow2 _ _ HA) in Ha. lia. }
  assert (Hlog0 : 0 <= Z.log2 (Z.abs a)) by apply Z.log2_nonneg.
  unfold JsNumber.round. cbv zeta. rewrite Habs.
  rewrite (Z.log2_mul_pow2 _ _ HA Hk).
  destruct (Z.leb_spec (k + Z.log2 (Z.abs a) - 52) 0) as [|He]; [reflexivity|].
  set (e := k + Z.log2 (Z.abs a) - 52) in *.
  assert (Hsplit : Z.abs a * 2 ^ k = (Z.abs a * 2 ^ (k - e)) * 2 ^ e).
  { rewrite <- Z.mul_assoc, <- Z.pow_add_r by lia. do 2 f_equal. lia. }
  assert (Hpe : 0 < 2 ^ e) by (apply Z.pow_pos_nonneg; lia).
  assert (Hhalf : 0 < 2 ^ (e - 1)) by (apply Z.pow_pos_nonneg; lia).
  rewrite Hsplit, Z.mod_mul, Z.div_mul by lia.
  destruct (Z.ltb_spec (2 ^ (e - 1)) 0); [lia|].
  destruct (Z.eqb_spec (2 ^ (e - 1)) 0); [lia|].
  cbn [orb andb]. rewrite <- Hsplit, <- Habs. apply sgn_mul_abs.
Qed.

(** What the unsigned combination computes. *)
Lemma combineU8_value (hi lo : Z) :
  0 <= hi < 2 ^ 32 ->
  combineU8 hi lo = JsNumber.round (hi * 2 ^ 32 + lo).
Proof.
  intros Hhi. unfold combineU8, JsNumber.add, JsNumber.mul.
  change 0x100000000 with (2 ^ 32). rewrite (round_shifted hi 32) by lia.
  f_equal. lia.
Qed.

(** What the negative branch computes where doubles are exact. *)
Lemma combineS8neg_value (hi lo : Z) :
  2 ^ 31 <= hi < 2 ^ 32 -> 0 <= lo < 2 ^ 32 ->
  2 ^ 64 - 2 ^ 53 <= hi * 2 ^ 32 + lo ->
  combineS8neg hi lo
  = hi * 2 ^ 32 + lo - 2 ^ 64 + (if lo <? 2 ^ 31 then 2 ^ 32 else 0).
Proof.
  intros Hhi Hlo Hu. unfold combineS8neg, JsNumber.sub, JsNumber.neg, JsNumber.add,
    JsNumber.mul.
  rewrite !xor_ones_signed, (toInt32_high hi Hhi).
  change 0x100000000 with (2 ^ 32).
  rewrite (round_shifted (- (hi - 2 ^ 32) - 1) 32) by lia.
  destruct (Z.ltb_spec lo (2 ^ 31)) as [Hsmall|Hbig].
  - rewrite (toInt32_small lo) by lia.
    rewrite (round_small (2 ^ 32 * (- (hi - 2 ^ 32) - 1) + (- lo - 1))) by lia.
    rewrite round_small by lia. lia.
  - rewrite (toInt32_high lo) by lia.
    rewrite (round_small (2 ^ 32 * (- (hi - 2 ^ 32) - 1) + (- (lo - 2 ^ 32) - 1))) by lia.
    rewrite round_small by lia. lia.
Qed.

(** The sign test of the signed readers. *)
Lemma s8_sign_test (hi : Z) :
  0 <= hi < 2 ^ 32 ->
  negb (Js.and hi 0x80000000 =? 0) = (2 ^ 31 <=? hi).
Proof.
  intros Hhi. rewrite and_sign_bit.
  destruct (Z.leb_spec (2 ^ 31) hi) as [Hbig|Hsmall].
  - rewrite (toInt32_high hi) by lia.
    destruct (Z.ltb_spec (hi - 2 ^ 32) 0); [reflexivity | lia].
  - rewrite (toInt32_small hi) by lia.
    destruct (Z.ltb_spec hi 0); [lia | reflexivity].
Qed.

(** The four facts of X17 for one byte order, from the halves. *)
Lemma read64_from_halves (d : list Z -> Z) (first_is_high : bool)
      (s s1 s2 : KaitaiStream) (v1 v2 : Z) :
  let hi := if first_is_high then v1 else v2 in
  let lo := if first_is_high then v2 else v1 in
  let readU8 : M Z :=
    ensureBytesLeft 8 ;;; v1 <- readFixed 4 d ;; v2 <- readFixed 4 d ;;
    ret (if first_is_high then combineU8 v1 v2 else combineU8 v2 v1) in
  let readS8 : M Z :=
    ensureBytesLeft 8 ;;; v1 <- readFixed 4 d ;; v2 <- readFixed 4 d ;;
    (if first_is_high
     then (if negb (Js.and v1 0x80000000 =? 0)
           then ret (combineS8neg v1 v2) else ret (combineU8 v1 v2))
     else (if negb (Js.and v2 0x80000000 =? 0)
           then ret (combineS8neg v2 v1) else ret (combineU8 v2 v1))) in
  0 <= v1 < 2 ^ 32 -> 0 <= v2 < 2 ^ 32 ->
  readFixed 4 d s = Ok v1 s1 -> readFixed 4 d s1 = Ok v2 s2 ->
  readU8 s = Ok (JsNumber.round (hi * 2 ^ 32 + lo)) s2 /\
  (hi * 2 ^ 32 + lo <= 2 ^ 53 -> readU8 s = Ok (hi * 2 ^ 32 + lo) s2) /\
  (hi < 2 ^ 31 -> readS8 s = readU8 s) /\
  (2 ^ 64 - 2 ^ 53 <= hi * 2 ^ 32 + lo ->
   readS8 s
   = Ok (hi * 2 ^ 32 + lo - 2 ^ 64 + (if lo <? 2 ^ 31 then 2 ^ 32 else 0)) s2).
Proof.
  cbv zeta. intros Hv1 Hv2 H1 H2.
  rewrite !(read8_run d _ s s1 s2 v1 v2 H1 H2).
  destruct first_is_high.
  - rewrite ret_if, (s8_sign_test v1 Hv1), (combineU8_value v1 v2 Hv1).
    unfold ret. split; [reflexivity|]. split; [|split].
    + intros Hsmall. rewrite round_small by lia. reflexivity.
    + intros Hpos. destruct (Z.leb_spec (2 ^ 31) v1); [lia | reflexivity].
    + intros Hneg. destruct (Z.leb_spec (2 ^ 31) v1); [|lia].
      rewrite combineS8neg_value by lia. reflexivity.
  - rewrite ret_if, (s8_sign_test v2 Hv2), (combineU8_value v2 v1 Hv2).
    unfold ret. split; [reflexivity|]. split; [|split].
    + intros Hsmall. rewrite round_small by lia. reflexivity.
    + intros Hpos. destruct (Z.leb_spec (2 ^ 31) v2); [lia | reflexivity].
    + intros Hneg. destruct (Z.leb_spec (2 ^ 31) v2); [|lia].
      rewrite combineS8neg_value by lia. reflexivity.
Qed.

(** X17: the 64-bit readers on a buffer of bytes.  Let [hi] and [lo] be
    the 32-bit halves that the two [readU4] calls of an 8-byte read
    return, and [u = hi * 2^32 + lo] the unsigned value of the 8 bytes.
    The unsigned reader returns the double nearest to [u], which is [u]
    itself up to 2^53.  The signed reader returns what the unsigned one
    returns when [hi < 2^31].  For the negative numbers that a double
    holds exactly, [u >= 2^64 - 2^53], it returns [u - 2^64] when
    [lo >= 2^31] and [u - 2^64 + 2^32] when [lo < 2^31].  All end in the
    same stream. *)
Theorem signed64_from_unsigned (s s1 s2 : KaitaiStream) (hi lo : Z) :
  Forall isByte (_buffer s) ->
  (readU4be s = Ok hi s1 -> readU4be s1 = Ok lo s2 ->
   readU8be s = Ok (JsNumber.round (hi * 2 ^ 32 + lo)) s2 /\
   (hi * 2 ^ 32 + lo <= 2 ^ 53 -> readU8be s = Ok (hi * 2 ^ 32 + lo) s2) /\
   (hi < 2 ^ 31 -> readS8be s = readU8be s) /\
   (2 ^ 64 - 2 ^ 53 <= hi * 2 ^ 32 + lo ->
    readS8be s
    = Ok (hi * 2 ^ 32 + lo - 2 ^ 64 + (if lo <? 2 ^ 31 then 2 ^ 32 else 0)) s2)) /\
  (readU4le s = Ok lo s1 -> readU4le s1 = Ok hi s2 ->
   readU8le s = Ok (JsNumber.round (hi * 2 ^ 32 + lo)) s2 /\
   (hi * 2 ^ 32 + lo <= 2 ^ 53 -> readU8le s = Ok (hi * 2 ^ 32 + lo) s2) /\
   (hi < 2 ^ 31 -> readS8le s = readU8le s) /\
   (2 ^ 64 - 2 ^ 53 <= hi * 2 ^ 32 + lo ->
    readS8le s
    = Ok (hi * 2 ^ 32 + lo - 2 ^ 64 + (if lo <? 2 ^ 31 then 2 ^ 32 else 0)) s2)).
Proof.
  intros Hbuf. split.
  - intros H1 H2. unfold readU4be in H1, H2.
    destruct (readU4_range beUint s s1 hi beUint_range Hbuf H1) as (Hhi & Hb1).
    rewrite <- Hb1 in Hbuf.
    destruct (readU4_range beUint s1 s2 lo beUint_range Hbuf H2) as (Hlo & _).
    exact (read64_from_halves beUint true s s1 s2 hi lo Hhi Hlo H1 H2).
  - intros H1 H2. unfold readU4le in H1, H2.
    destruct (readU4_range leUint s s1 lo leUint_range Hbuf H1) as (Hlo & Hb1).
    rewrite <- Hb1 in Hbuf.
    destruct (readU4_range leUint s1 s2 hi leUint_range Hbuf H2) as (Hhi & _).
    exact (read64_from_halves leUint false s s1 s2 lo hi Hlo Hhi H1 H2).
Qed.

Lemma signed64_from_unsigned_witness :
  readU8le (newStream [0xFE; 0xFF; 0xFF; 0xFF; 0xFF; 0xFF; 0xFF; 0xFF] 0)
  = Ok (2 ^ 64) (set_pos (newStream [0xFE; 0xFF; 0xFF; 0xFF; 0xFF; 0xFF; 0xFF; 0xFF] 0) 8)
  /\ readS8le (newStream [0xFE; 0xFF; 0xFF; 0xFF; 0xFF; 0xFF; 0xFF; 0xFF] 0)
     = Ok (-2) (set_pos (newStream [0xFE; 0xFF; 0xFF; 0xFF; 0xFF; 0xFF; 0xFF; 0xFF] 0) 8).
Proof.
  destruct (signed64_from_unsigned
              (newStream [0xFE; 0xFF; 0xFF; 0xFF; 0xFF; 0xFF; 0xFF; 0xFF] 0)
              (set_pos (newStream [0xFE; 0xFF; 0xFF; 0xFF; 0xFF; 0xFF; 0xFF; 0xFF] 0) 4)
              (set_pos (newStream [0xFE; 0xFF; 0xFF; 0xFF; 0xFF; 0xFF; 0xFF; 0xFF] 0) 8)
              0xFFFFFFFF 0xFFFFFFFE) as (_ & Hle).
  - repeat constructor; unfold isByte; lia.
  - destruct (Hle eq_refl eq_refl) as (Hu & _ & _ & Hs). split.
    + exact Hu.
    + apply Hs. vm_compute. discriminate.
Defined.

(** The rounding on concrete bytes: eight bytes [FF] read unsigned as
    2^64, one more than their value, and signed as -1; the largest value
    a double holds exactly with all 53 bits set is read as it is. *)
Example readU8le_rounds :
  readU8le (newStream [255; 255; 255; 255; 255; 255; 255; 255] 0)
  = Ok (2 ^ 64) (set_pos (newStream [255; 255; 255; 255; 255; 255; 255; 255] 0) 8) /\
  readS8le (newStream [255; 255; 255; 255; 255; 255; 255; 255] 0)
  = Ok (-1) (set_pos (newStream [255; 255; 255; 255; 255; 255; 255; 255] 0) 8) /\
  readU8be (newStream [0; 0x1F; 255; 255; 255; 255; 255; 255] 0)
  = Ok (2 ^ 53 - 1) (set_pos (newStream [0; 0x1F; 255; 255; 255; 255; 255; 255] 0) 8).
Proof. repeat split; vm_compute; reflexivity. Qed.

(** [JsNumber.round] against the machine's binary64 arithmetic, on
    integers below 2^63 in magnitude: the conversion of an integer to a
    double, the rounded sum [0x100000000 * hi + lo] and the return
    expressions of [readS8le] give the same numbers. *)
Example round_matches_binary64 :
  forallb
    (fun x => PrimFloat.eqb (Double.ofZ x) (Double.ofZ (JsNumber.round x)))
    [0; 1; 2 ^ 53 - 1; 2 ^ 53; 2 ^ 53 + 1; 2 ^ 53 + 2; 2 ^ 53 + 3; 2 ^ 54 + 2;
     2 ^ 54 + 6; 2 ^ 62 + 255; 2 ^ 62 + 256; 2 ^ 62 + 257; 2 ^ 62 + 768;
     2 ^ 63 - 513; 2 ^ 63 - 1024; 2 ^ 63 - 1536; 0x7FFFFFFEFFFFFFFF;
     - (2 ^ 53 + 1); - (2 ^ 53 + 3); - (2 ^ 63 - 2 ^ 32 + 1)] = true /\
  forallb
    (fun p => PrimFloat.eqb
                (PrimFloat.add (PrimFloat.mul (Double.ofZ 0x100000000) (Double.ofZ (fst p)))
                               (Double.ofZ (snd p)))
                (Double.ofZ (combineU8 (fst p) (snd p))))
    [(0, 0); (0x001FFFFF, 0xFFFFFFFF); (0x00200000, 1); (0x00200000, 3);
     (0x00400000, 2); (0x00400000, 6); (0x12345678, 0x9ABCDEF0);
     (0x7FFFFFFF, 0xFFFFFC00); (0x7FFFFFFF, 0xFFFFFBFF); (0x7FFFFFFF, 0x00000200)] = true /\
  PrimFloat.eqb
    (PrimFloat.add (PrimFloat.mul (Double.ofZ 0x100000000) (Double.ofZ 0xFFFFFFFF))
                   (Double.ofZ 0xFFFFFFFF))
    18446744073709551616%float = true /\
  combineU8 0xFFFFFFFF 0xFFFFFFFF = 18446744073709551616 /\
  forallb
    (fun p => PrimFloat.eqb (Double.combineS8le (fst p) (snd p))
                            (Double.ofZ (if negb (Js.and (snd p) 0x80000000 =? 0)
                                         then combineS8neg (snd p) (fst p)
                                         else combineU8 (snd p) (fst p))))
    [(0, 0x80000000); (0xFFFFFFFF, 0xFFFFFFFF); (0xFFFFFFFE, 0xFFFFFFFF);
     (1, 0x80000000); (0x80000001, 0x80000000); (0x12345678, 0x9ABCDEF0);
     (0x9ABCDEF0, 0x12345678); (0xFFFFFBFF, 0x7FFFFFFF); (0x00000400, 0xC0000000);
     (0x000003FF, 0xC0000000)] = true.
Proof. repeat split; vm_compute; reflexivity. Qed.

(** ** Bit reads inside one byte *)

Lemma shiftCount_small (k : Z) : 0 <= k <= 31 -> Js.shiftCount k = k.
Proof.
  intros Hk. unfold Js.shiftCount, Js.toUint32.
  rewrite (Z.mod_small k (2 ^ 32)) by lia. apply Z.mod_small. lia.
Qed.

Lemma shr_small (x k : Z) :
  0 <= x < 2 ^ 31 -> 0 <= k <= 31 -> Js.shr x k = x / 2 ^ k.
Proof.
  intros Hx Hk. unfold Js.shr, Js.toUint32.
  rewrite shiftCount_small by lia. rewrite Z.mod_small by lia.
  apply Z.shiftr_div_pow2. lia.
Qed.

Lemma sar_small (x k : Z) :
  0 <= x < 2 ^ 31 -> 0 <= k <= 31 -> Js.sar x k = x / 2 ^ k.
Proof.
  intros Hx Hk. unfold Js.sar.
  rewrite shiftCount_small by lia. rewrite toInt32_small by lia.
  apply Z.shiftr_div_pow2. lia.
Qed.

Lemma div_pow2_bound (x bl n : Z) :
  0 <= n <= bl -> 0 <= x < 2 ^ bl -> 0 <= x / 2 ^ (bl - n) < 2 ^ n.
Proof.
  intros Hn Hx.
  assert (Hp : 0 < 2 ^ (bl - n)) by (apply Z.pow_pos_nonneg; lia).
  split; [apply Z.div_pos; lia|].
  apply Z.div_lt_upper_bound; [exact Hp|].
  rewrite <- Z.pow_add_r by lia. replace (bl - n + n) with bl by lia. lia.
Qed.

(** The extraction of [n] bits from an accumulator that holds [bl >= n]
    bits: the big-endian reader takes the top [n] of them, the
    little-endian reader the low [n]. *)
Lemma extractBits_exact (n : Z) (s : KaitaiStream) :
  0 <= n <= bitsLeft s -> bitsLeft s <= 31 -> 0 <= bits s < 2 ^ bitsLeft s ->
  extractBitsBe n s
  = Ok (bits s / 2 ^ (bitsLeft s - n))
       (set_bits (set_bitsLeft s (bitsLeft s - n)) (bits s mod 2 ^ (bitsLeft s - n)))
  /\ extractBitsLe n s
     = Ok (bits s mod 2 ^ n)
          (set_bitsLeft (set_bits s (bits s / 2 ^ n)) (bitsLeft s - n)).
Proof.
  intros Hn Hbl Hbits.
  assert (Hpow : 2 ^ bitsLeft s <= 2 ^ 31) by (apply Z.pow_le_mono_r; lia).
  assert (Hn32 : (n =? 32) = false) by (apply Z.eqb_neq; lia).
  assert (Hint : Js.toInt32 (bits s) = bits s) by (apply toInt32_small; lia).
  pose proof (div_pow2_bound (bits s) (bitsLeft s) n Hn Hbits) as Htop.
  assert (Hpn : 2 ^ n <= 2 ^ 31) by (apply Z.pow_le_mono_r; lia).
  split.
  - unfold extractBitsBe. unfold_reader. rewrite Hn32.
    cbn [bitsLeft bits set_bitsLeft set_bits].
    rewrite !and_low_mask by lia. rewrite Hint.
    rewrite shr_small by lia. rewrite toInt32_small by lia.
    rewrite (Z.mod_small (bits s / 2 ^ (bitsLeft s - n))) by lia.
    reflexivity.
  - unfold extractBitsLe. unfold_reader. rewrite Hn32.
    cbn [bitsLeft bits set_bitsLeft set_bits].
    rewrite and_low_mask by lia. rewrite Hint.
    rewrite sar_small by lia. reflexivity.
Qed.

(** X18: when the accumulator already holds at least [n] bits, a bit
    read consumes no byte: [readBitsIntBe(n)] returns the top [n] of the
    held bits and keeps the rest, [readBitsIntLe(n)] returns the low [n]
    and keeps the rest; [pos] does not move and [bitsLeft] drops by [n]. *)
Theorem readBitsInt_from_accumulator (n : Z) (s : KaitaiStream) :
  0 <= n <= bitsLeft s -> bitsLeft s <= 31 -> 0 <= bits s < 2 ^ bitsLeft s ->
  readBitsIntBe n s
  = Ok (bits s / 2 ^ (bitsLeft s - n))
       (set_bits (set_bitsLeft s (bitsLeft s - n)) (bits s mod 2 ^ (bitsLeft s - n)))
  /\ readBitsIntLe n s
     = Ok (bits s mod 2 ^ n)
          (set_bitsLeft (set_bits s (bits s / 2 ^ n)) (bitsLeft s - n)).
Proof.
  intros Hn Hbl Hbits.
  destruct (extractBits_exact n s Hn Hbl Hbits) as (Hbe & Hle).
  assert (Hno : (n - bitsLeft s >? 0) = false)
    by (destruct (Z.gtb_spec (n - bitsLeft s) 0); [lia | reflexivity]).
  assert (Hn32 : (n >? 32) = false)
    by (destruct (Z.gtb_spec n 32); [lia | reflexivity]).
  split.
  - unfold readBitsIntBe, borrowBitsBe. rewrite Hn32. unfold bind at 1.
    unfold bind at 1. unfold get. rewrite Hno. unfold ret at 1. exact Hbe.
  - unfold readBitsIntLe, borrowBitsLe. rewrite Hn32. unfold bind at 1.
    unfold bind at 1. unfold get. rewrite Hno. unfold ret at 1. exact Hle.
Qed.

Lemma readBitsInt_from_accumulator_witness :
  readBitsIntBe 2 (mkStream [0xB5] 0 1 5 0x15 1 0)
  = Ok 2 (mkStream [0xB5] 0 1 3 5 1 0)
  /\ readBitsIntLe 2 (mkStream [0xB5] 0 1 5 0x15 1 0)
     = Ok 1 (mkStream [0xB5] 0 1 3 5 1 0).
Proof.
  apply (readBitsInt_from_accumulator 2 (mkStream [0xB5] 0 1 5 0x15 1 0));
    cbn; lia.
Defined.

Lemma ceilDiv8_one (n : Z) : 1 <= n <= 8 -> Js.ceilDiv8 n = 1.
Proof.
  intros Hn. unfold Js.ceilDiv8.
  assert (H : - n / 8 = -1) by (symmetry; apply (Z.div_unique _ _ _ (8 - n)); lia).
  rewrite H. reflexivity.
Qed.

(** On an empty accumulator a read of 1 to 8 bits borrows one byte [x];
    the accumulator then holds the 8 bits of [x]. *)
Lemma borrowBits_one_byte (n x : Z) (s s0 : KaitaiStream) :
  bitsLeft s = 0 -> bits s = 0 -> 1 <= n <= 8 -> isByte x ->
  mapUint8Array 1 s = Ok [x] s0 ->
  borrowBitsBe n s = Ok tt (set_bitsLeft (set_bits s0 x) 8) /\
  borrowBitsLe n s = Ok tt (set_bitsLeft (set_bits s0 x) 8).
Proof.
  intros Hbl Hbits Hn Hx Hmap.
  assert (Hs0 : bitsLeft s0 = 0 /\ bits s0 = 0).
  { pose proof (mapUint8Array_cases 1 s) as Hc. rewrite Hmap in Hc.
    destruct Hc as (_ & _ & ->). split; assumption. }
  destruct Hs0 as (Hbl0 & Hbits0).
  assert (Hneed : (n - bitsLeft s >? 0) = true)
    by (rewrite Hbl; destruct (Z.gtb_spec (n - 0) 0); [reflexivity | lia]).
  assert (Hx32 : Js.toInt32 x = x) by (apply toInt32_small; unfold isByte in Hx; lia).
  split.
  - unfold borrowBitsBe, readBytes. unfold bind at 1. unfold get. rewrite Hneed.
    rewrite Hbl, Z.sub_0_r, (ceilDiv8_one n Hn). unfold bind, modify. rewrite Hmap.
    change (Z.to_nat 1) with 1%nat. cbn [fillBitsBe]. cbv zeta.
    unfold set_bitsLeft, set_bits.
    cbn [bits bitsLeft _buffer _byteOffset _byteLength pos nth Z.to_nat].
    rewrite Hbits0, Hbl0. do 2 f_equal.
    change (Js.shl 0 8) with 0. unfold Js.or. change (Js.toInt32 0) with 0.
    rewrite Hx32. reflexivity.
  - unfold borrowBitsLe, readBytes. unfold bind at 1. unfold get. rewrite Hneed.
    rewrite Hbl, Z.sub_0_r, (ceilDiv8_one n Hn). unfold bind, modify. rewrite Hmap.
    change (Z.to_nat 1) with 1%nat. cbn [fillBitsLe]. cbv zeta.
    unfold set_bitsLeft, set_bits.
    cbn [bits bitsLeft _buffer _byteOffset _byteLength pos nth Z.to_nat].
    rewrite Hbits0, Hbl0. do 2 f_equal.
    unfold Js.or, Js.shl. change (Js.toInt32 0) with 0. change (Js.shiftCount 0) with 0.
    rewrite Hx32, Z.shiftl_0_r, !Hx32. reflexivity.
Qed.

Lemma readBitsInt_one_byte (n x : Z) (s s0 : KaitaiStream) :
  bitsLeft s = 0 -> bits s = 0 -> 1 <= n <= 8 -> isByte x ->
  mapUint8Array 1 s = Ok [x] s0 ->
  readBitsIntBe n s
  = Ok (x / 2 ^ (8 - n)) (set_bits (set_bitsLeft s0 (8 - n)) (x mod 2 ^ (8 - n)))
  /\ readBitsIntLe n s
     = Ok (x mod 2 ^ n) (set_bitsLeft (set_bits s0 (x / 2 ^ n)) (8 - n)).
Proof.
  intros Hbl Hbits Hn Hx Hmap.
  destruct (borrowBits_one_byte n x s s0 Hbl Hbits Hn Hx Hmap) as (Hbe & Hle).
  assert (Hn32 : (n >? 32) = false)
    by (destruct (Z.gtb_spec n 32); [lia | reflexivity]).
  destruct (extractBits_exact n (set_bitsLeft (set_bits s0 x) 8)) as (Ebe & Ele);
    [cbn [bitsLeft set_bitsLeft]; lia | cbn [bitsLeft set_bitsLeft]; lia
     | cbn [bitsLeft bits set_bitsLeft set_bits]; unfold isByte in Hx; lia |].
  split.
  - unfold readBitsIntBe. rewrite Hn32. unfold bind. rewrite Hbe.
    fold (extractBitsBe n (set_bitsLeft (set_bits s0 x) 8)). rewrite Ebe. reflexivity.
  - unfold readBitsIntLe. rewrite Hn32. unfold bind. rewrite Hle.
    fold (extractBitsLe n (set_bitsLeft (set_bits s0 x) 8)). rewrite Ele. reflexivity.
Qed.

(** X19: on a byte-aligned stream (empty accumulator) whose next byte
    is [x], a read of [n] bits, [1 <= n <= 8], consumes that one byte:
    [readBitsIntBe(n)] returns the [n] most significant bits of [x] and
    holds the other [8 - n], [readBitsIntLe(n)] returns the [n] least
    significant bits and holds the other [8 - n]. *)
Theorem readBitsInt_first_bits (n x : Z) (rest : list Z) (s : KaitaiStream) :
  wellFormed s -> bitsLeft s = 0 -> bits s = 0 ->
  pos s < size s -> fromCursor s = x :: rest -> isByte x ->
  1 <= n <= 8 ->
  readBitsIntBe n s
  = Ok (x / 2 ^ (8 - n))
       (mkStream (_buffer s) (_byteOffset s) (_byteLength s)
          (8 - n) (x mod 2 ^ (8 - n)) (pos s + 1) (_dataView s))
  /\ readBitsIntLe n s
     = Ok (x mod 2 ^ n)
          (mkStream (_buffer s) (_byteOffset s) (_byteLength s)
             (8 - n) (x / 2 ^ n) (pos s + 1) (_dataView s)).
Proof.
  intros Hwf Hbl Hbits Hpos Hcur Hx Hn.
  assert (Hmap : mapUint8Array 1 s = Ok [x] (set_pos s (pos s + 1))).
  { rewrite (mapUint8Array_exact 1 s Hwf ltac:(lia) ltac:(lia)), Hcur. reflexivity. }
  exact (readBitsInt_one_byte n x s (set_pos s (pos s + 1)) Hbl Hbits Hn Hx Hmap).
Qed.

Lemma readBitsInt_first_bits_witness :
  readBitsIntBe 3 (newStream [0xB5; 0x01] 0)
  = Ok 5 (mkStream [0xB5; 0x01] 0 2 5 0x15 1 0)
  /\ readBitsIntLe 3 (newStream [0xB5; 0x01] 0)
     = Ok 5 (mkStream [0xB5; 0x01] 0 2 5 0x16 1 0).
Proof.
  apply (readBitsInt_first_bits 3 0xB5 [0x01] (newStream [0xB5; 0x01] 0)).
  - repeat split; cbn; lia.
  - reflexivity.
  - reflexivity.
  - cbn. lia.
  - reflexivity.
  - unfold isByte. lia.
  - lia.
Defined.

(** X20: on a byte-aligned stream over a buffer of bytes whose
    [DataView] starts at [_byteOffset] (every stream but one built from a
    view together with a [byteOffset]), reading 8 bits in either bit order
    is [readU1()]: the same value, the same final stream, and the same
    error when no byte is left. *)
Theorem readBitsInt_8_is_readU1 (s : KaitaiStream) :
  Forall isByte (_buffer s) -> dataViewAligned s -> 0 <= pos s ->
  bitsLeft s = 0 -> bits s = 0 ->
  readBitsIntBe 8 s = readU1 s /\ readBitsIntLe 8 s = readU1 s.
Proof.
  intros Hbuf Hdv Hpos Hbl Hbits. unfold dataViewAligned in Hdv.
  pose proof (mapUint8Array_cases 1 s) as Hc. cbv zeta in Hc.
  change (Js.or 1 0) with 1 in Hc. rewrite <- Hdv in Hc.
  destruct (mapUint8Array 1 s) as [arr s0|e s0] eqn:Hmap.
  - destruct Hc as (Hfit & Hsl & ->).
    pose proof (slice_length _ _ _ _ Hsl) as Hlen.
    pose proof (slice_isByte _ _ _ _ Hbuf Hsl) as Harr.
    destruct arr as [|x [|y arr]]; cbn [length] in Hlen; try lia.
    apply Forall_inv in Harr.
    assert (Hu1 : readU1 s = Ok x (set_pos s (pos s + 1))).
    { unfold readU1. rewrite (readFixed_intro 1 beUint s [x] Hfit Hpos Hsl). reflexivity. }
    destruct (readBitsInt_one_byte 8 x s (set_pos s (pos s + 1)) Hbl Hbits
                ltac:(lia) Harr Hmap) as (Hbe & Hle).
    rewrite Hbe, Hle, Hu1. change (2 ^ (8 - 8)) with 1. change (8 - 8) with 0.
    rewrite Z.div_1_r, Z.mod_1_r.
    assert (Hdiv : x / 2 ^ 8 = 0) by (apply Z.div_small; exact Harr).
    assert (Hmod : x mod 2 ^ 8 = x) by (apply Z.mod_small; exact Harr).
    rewrite Hdiv, Hmod. unfold set_bits, set_bitsLeft, set_pos.
    cbn [_buffer _byteOffset _byteLength bitsLeft bits pos _dataView].
    rewrite Hbl, Hbits. split; reflexivity.
  - destruct Hc as (-> & Hcase).
    assert (Hneed : (8 - bitsLeft s >? 0) = true) by (rewrite Hbl; reflexivity).
    assert (Hbe : readBitsIntBe 8 s = Throw e s).
    { unfold readBitsIntBe, borrowBitsBe, readBytes. cbn [Z.gtb Z.compare Pos.compare
        Pos.compare_cont]. unfold bind at 1. unfold bind at 1. unfold get.
      rewrite Hneed, Hbl. change (Js.ceilDiv8 (8 - 0)) with 1.
      unfold bind at 1. rewrite Hmap. reflexivity. }
    assert (Hle : readBitsIntLe 8 s = Throw e s).
    { unfold readBitsIntLe, borrowBitsLe, readBytes. cbn [Z.gtb Z.compare Pos.compare
        Pos.compare_cont]. unfold bind at 1. unfold bind at 1. unfold get.
      rewrite Hneed, Hbl. change (Js.ceilDiv8 (8 - 0)) with 1.
      unfold bind at 1. rewrite Hmap. reflexivity. }
    rewrite Hbe, Hle.
    assert (Hu1 : readU1 s = Throw e s).
    { unfold readU1, readFixed, ensureBytesLeft, dataViewGet. unfold_reader.
      destruct Hcase as [(-> & Hshort)|(-> & Hfit & Hnone)].
      - destruct (Z.gtb_spec (pos s + 1) (size s)); [reflexivity | lia].
      - destruct (Z.gtb_spec (pos s + 1) (size s)); [lia|].
        destruct (Z.ltb_spec (pos s) 0); [lia|]. rewrite Hnone. reflexivity. }
    rewrite Hu1. split; reflexivity.
Qed.

Lemma readBitsInt_8_is_readU1_witness :
  readBitsIntBe 8 (newStream [0xB5; 0x01] 0) = readU1 (newStream [0xB5; 0x01] 0)
  /\ readBitsIntLe 8 (newStream [] 0) = readU1 (newStream [] 0).
Proof.
  split.
  - apply (readBitsInt_8_is_readU1 (newStream [0xB5; 0x01] 0));
      [repeat constructor; unfold isByte; lia | reflexivity | cbn; lia
       | reflexivity | reflexivity].
  - apply (readBitsInt_8_is_readU1 (newStream [] 0));
      [constructor | reflexivity | cbn; lia | reflexivity | reflexivity].
Defined.

(** On a stream built from a view together with a [byteOffset] the two
    differ: [new KaitaiStream(new Uint8Array([10, 20, 30, 40, 50]), 2)]
    reads its bits from index 2, but [readU1()] goes through the
    [DataView], which still starts at index 0. *)
Example readBitsInt_8_view_with_offset :
  let s := newStreamOfViewAt (mkUint8Array [10; 20; 30; 40; 50] 0 5) 2 in
  readU1 s = Ok 10 (set_pos s 1) /\
  readBitsIntBe 8 s = Ok 30 (set_pos s 1) /\
  readBytes 1 s = Ok [30] (set_pos s 1).
Proof. cbv zeta. repeat split; reflexivity. Qed.

(** ** [isEof] *)

(** X21: on a well-formed, byte-aligned stream with the cursor inside,
    [isEof()] tells whether a byte can be read: when it is false
    [readU1()] returns and moves the cursor by one; when it is true
    [readU1()] throws [EOFError(1, 0)].  (With bits still held in the
    accumulator [isEof()] is false even at the end of the bytes.) *)
Theorem isEof_decides_readU1 (s : KaitaiStream) :
  wellFormed s -> pos s <= size s -> bitsLeft s = 0 ->
  (isEof s = false -> exists v, readU1 s = Ok v (set_pos s (pos s + 1))) /\
  (isEof s = true -> readU1 s = Throw (EOFError 1 0) s) /\
  (forall k, k <> 0 -> isEof (set_bitsLeft s k) = false).
Proof.
  intros Hwf Hle Hbl.
  destruct (readFixed_readsWidth 1 beUint s ltac:(lia)) as (_ & Hex & Heof).
  unfold isEof. rewrite Hbl. cbn [Z.eqb]. rewrite andb_true_r. split; [|split].
  - intros He. apply Z.leb_gt in He. apply Hex; [exact Hwf | lia].
  - intros He. apply Z.leb_le in He. replace 0 with (size s - pos s) by lia.
    apply Heof. lia.
  - intros k Hk. cbn [bitsLeft set_bitsLeft]. apply Z.eqb_neq in Hk.
    rewrite Hk. apply andb_false_r.
Qed.

Lemma isEof_decides_readU1_witness :
  isEof (set_pos (newStream [7; 9] 0) 2) = true /\
  readU1 (set_pos (newStream [7; 9] 0) 2)
  = Throw (EOFError 1 0) (set_pos (newStream [7; 9] 0) 2) /\
  exists v, readU1 (set_pos (newStream [7; 9] 0) 1) = Ok v (set_pos (newStream [7; 9] 0) 2).
Proof.
  split; [reflexivity|]. split.
  - apply (isEof_decides_readU1 (set_pos (newStream [7; 9] 0) 2));
      [repeat split; cbn; lia | cbn; lia | reflexivity | reflexivity].
  - apply (isEof_decides_readU1 (set_pos (newStream [7; 9] 0) 1));
      [repeat split; cbn; lia | cbn; lia | reflexivity | reflexivity].
Defined.

(** ** The base-128 variable-length quantity *)

Lemma toInt32_mod_pow2 (x k : Z) :
  0 <= k <= 32 -> Js.toInt32 x mod 2 ^ k = x mod 2 ^ k.
Proof.
  intros Hk. unfold Js.toInt32. rewrite (Z.mod_eq (x + 2 ^ 31) (2 ^ 32)) by lia.
  replace (x + 2 ^ 31 - 2 ^ 32 * ((x + 2 ^ 31) / 2 ^ 32) - 2 ^ 31)
    with (x + (- (2 ^ (32 - k) * ((x + 2 ^ 31) / 2 ^ 32))) * 2 ^ k).
  - apply Z.mod_add. apply Z.pow_nonzero; lia.
  - replace (2 ^ 32) with (2 ^ (32 - k) * 2 ^ k)
      by (rewrite <- Z.pow_add_r by lia; f_equal; lia).
    ring.
Qed.

Lemma Group_value_mod (b : Z) : Group_value b = b mod 128.
Proof.
  unfold Group_value, Js.and. change (Js.toInt32 127) with (Z.ones 7).
  rewrite Z.land_ones by lia. apply (toInt32_mod_pow2 b 7). lia.
Qed.

Lemma Group_hasNext_byte (b : Z) :
  isByte b -> Group_hasNext b = (128 <=? b).
Proof.
  intros Hb. apply (zrange_forallb (fun b => Bool.eqb (Group_hasNext b) (128 <=? b)) 0 256)
    in Hb; [|vm_compute; reflexivity].
  apply Bool.eqb_prop. exact Hb.
Qed.

Lemma shl_small (c k : Z) :
  0 <= k <= 31 -> 0 <= c -> c * 2 ^ k < 2 ^ 31 -> Js.shl c k = c * 2 ^ k.
Proof.
  intros Hk Hc Hlt. unfold Js.shl. rewrite shiftCount_small by lia.
  assert (Hp : 0 < 2 ^ k) by (apply Z.pow_pos_nonneg; lia).
  assert (Hc31 : c < 2 ^ 31) by nia.
  rewrite (toInt32_small c) by lia. rewrite Z.shiftl_mul_pow2 by lia.
  apply toInt32_small. nia.
Qed.

(** X22: for one to five groups, [VlqBase128Be.value] is the number the
    groups' 7-bit chunks denote in base 128, most significant group
    first, as long as that number is below 2^31 (always so for up to four
    groups, where it is below 2^28). *)
Theorem VlqBase128Be_value_base128 (groups : list Z) :
  (1 <= length groups <= 5)%nat -> base128 groups < 2 ^ 31 ->
  VlqBase128Be_value groups = Some (base128 groups) /\
  ((length groups <= 4)%nat -> 0 <= base128 groups < 2 ^ 28).
Proof.
  intros Hlen Hsmall.
  destruct groups as [|a [|b [|c [|d [|e [|f groups]]]]]]; cbn [length] in Hlen; try lia;
    unfold base128 in *; cbn [fold_left] in *;
    unfold VlqBase128Be_value, vlqTerm, VlqBase128Be_last; cbv zeta;
    match goal with
    | |- context [Z.of_nat (length ?l) - 1] =>
        let v := eval cbv in (Z.of_nat (length l) - 1) in
        change (Z.of_nat (length l) - 1) with v
    end;
    repeat match goal with
           | |- context [Z.to_nat (?x - ?y)] =>
               let v := eval cbv in (Z.to_nat (x - y)) in
               change (Z.to_nat (x - y)) with v
           | |- context [Z.to_nat (Zpos ?p)] =>
               let v := eval cbv in (Z.to_nat (Zpos p)) in
               change (Z.to_nat (Zpos p)) with v
           end;
    change (Z.to_nat 0) with 0%nat;
    cbn [nth Z.ltb Z.geb Z.compare Pos.compare Pos.compare_cont];
    rewrite ?Group_value_mod;
    pose proof (Z.mod_pos_bound a 128 ltac:(lia));
    try pose proof (Z.mod_pos_bound b 128 ltac:(lia));
    try pose proof (Z.mod_pos_bound c 128 ltac:(lia));
    try pose proof (Z.mod_pos_bound d 128 ltac:(lia));
    try pose proof (Z.mod_pos_bound e 128 ltac:(lia));
    rewrite ?(shl_small (_ mod 128) 7), ?(shl_small (_ mod 128) 14),
      ?(shl_small (_ mod 128) 21), ?(shl_small (_ mod 128) 28) by lia;
    (split; [f_equal; lia | intros Hle; try lia]).
  cbn [length] in Hle. lia.
Qed.

Lemma VlqBase128Be_value_base128_witness :
  VlqBase128Be_value [0x81; 0x48] = Some 200.
Proof.
  apply (VlqBase128Be_value_base128 [0x81; 0x48]); [cbn; lia | vm_compute; reflexivity].
Defined.

(** With six groups the shift by 35 is a shift by 3: the leading chunk
    of [81 80 80 80 80 00], worth 2^35, is counted as 8. *)
Example VlqBase128Be_value_six_groups :
  VlqBase128Be_value [0x81; 0x80; 0x80; 0x80; 0x80; 0x00] = Some 8 /\
  base128 [0x81; 0x80; 0x80; 0x80; 0x80; 0x00] = 2 ^ 35.
Proof. split; reflexivity. Qed.

Lemma readU1_next (b : Z) (rest : list Z) (s : KaitaiStream) :
  wellFormed s -> dataViewAligned s -> pos s < size s -> fromCursor s = b :: rest ->
  readU1 s = Ok b (set_pos s (pos s + 1)) /\
  wellFormed (set_pos s (pos s + 1)) /\
  fromCursor (set_pos s (pos s + 1)) = rest.
Proof.
  intros Hwf Hdv Hlt Hcur. assert (Hpos : 0 <= pos s) by apply Hwf. split; [|split].
  - unfold readU1. rewrite (readFixed_exact 1 beUint s Hwf ltac:(lia) ltac:(lia)).
    rewrite (fromDataView_aligned s Hdv), Hcur.
    change (Z.to_nat 1) with 1%nat. cbn [firstn]. unfold beUint. cbn [fold_left].
    f_equal.
  - apply wellFormed_set_pos; [exact Hwf | lia].
  - rewrite (fromCursor_set_pos s 1 Hwf ltac:(lia)), Hcur. reflexivity.
Qed.

Lemma vlqGroups_found (cont : list Z) (fin : Z) (rest : list Z) :
  Forall (fun b => 128 <= b < 256) cont -> 0 <= fin < 128 ->
  forall fuel acc s,
    wellFormed s -> dataViewAligned s -> fromCursor s = cont ++ fin :: rest ->
    Z.of_nat (length cont) < size s - pos s -> (length cont < fuel)%nat ->
    vlqGroups AssignFields fuel acc s
    = Ok (Some (acc ++ map Some (cont ++ [fin])))
         (set_pos s (pos s + Z.of_nat (length cont) + 1)).
Proof.
  intros Hcont Hfin. induction Hcont as [|b cont Hb Hcont IH];
    intros fuel acc s Hwf Hdv Hcur Hlen Hfuel.
  - destruct fuel as [|fuel]; [cbn in Hfuel; lia|].
    cbn [vlqGroups app length map Group_b operand] in *.
    destruct (readU1_next fin rest s Hwf Hdv ltac:(lia) Hcur) as (Hr & _ & _).
    unfold bind. rewrite Hr.
    rewrite (Group_hasNext_byte fin) by (unfold isByte; lia).
    destruct (Z.leb_spec 128 fin); [lia|]. unfold ret. do 2 f_equal. lia.
  - destruct fuel as [|fuel]; [cbn in Hfuel; lia|].
    cbn [vlqGroups app length map Group_b operand] in *.
    destruct (readU1_next b (cont ++ fin :: rest) s Hwf Hdv ltac:(lia) Hcur)
      as (Hr & Hwf' & Hcur').
    unfold bind. rewrite Hr.
    rewrite (Group_hasNext_byte b) by (unfold isByte; lia).
    destruct (Z.leb_spec 128 b); [|lia].
    rewrite (IH fuel (acc ++ [Some b]) (set_pos s (pos s + 1)) Hwf'
               (dataViewAligned_set_pos s _ Hdv) Hcur');
      [| cbn [pos set_pos]; change (size (set_pos s (pos s + 1))) with (size s); lia | lia].
    rewrite <- app_assoc. cbn [app pos set_pos]. unfold set_pos. cbn. do 2 f_equal. lia.
Qed.

Lemma vlqGroups_fuel (fields : classFields) (fuel : nat) :
  forall acc s s',
    (Z.to_nat (size s - pos s) < fuel)%nat ->
    vlqGroups fields fuel acc s <> Ok None s'.
Proof.
  induction fuel as [|fuel IH]; intros acc s s' Hfuel; [lia|].
  cbn [vlqGroups]. unfold bind.
  pose proof (readFixed_cases 1 beUint s) as Hc. fold readU1 in Hc.
  destruct (readU1 s) as [b s1|e s1]; [|discriminate].
  destruct Hc as (Hfit & ->).
  destruct (Group_hasNext (operand (Group_b fields b))); [|discriminate].
  apply IH. cbn [pos set_pos]. change (size (set_pos s (pos s + 1))) with (size s). lia.
Qed.

(** X23: what [VlqBase128Be.read()] reads depends on how the class
    fields are compiled.  With assignment semantics it reads bytes up to
    and including the first one whose top bit is clear: on a well-formed
    stream with the [DataView] at [_byteOffset], whose unread bytes start
    with continuation bytes [cont] (top bit set) followed by a byte [fin]
    below 128, its groups hold [cont ++ [fin]] and the cursor has
    advanced by their number.  With define semantics the field [b] of a
    constructed [Group] is [undefined], [hasNext] is false, and the loop
    stops after one byte whatever that byte is.  In both cases the loop
    ends: it never needs more iterations than there are unread bytes
    plus one. *)
Theorem VlqBase128Be_read_groups (s : KaitaiStream) :
  (forall cont fin rest,
      wellFormed s -> dataViewAligned s -> fromCursor s = cont ++ fin :: rest ->
      Z.of_nat (length cont) < size s - pos s ->
      Forall (fun b => 128 <= b < 256) cont -> 0 <= fin < 128 ->
      VlqBase128Be_read AssignFields s
      = Ok (Some (map Some (cont ++ [fin])))
           (set_pos s (pos s + Z.of_nat (length cont) + 1))) /\
  (forall b s',
      readU1 s = Ok b s' ->
      VlqBase128Be_read DefineFields s = Ok (Some [None]) s' /\
      s' = set_pos s (pos s + 1)) /\
  (forall fields s', VlqBase128Be_read fields s <> Ok None s').
Proof.
  split; [|split].
  - intros cont fin rest Hwf Hdv Hcur Hlen Hcont Hfin.
    unfold VlqBase128Be_read. unfold bind at 1. unfold get.
    rewrite (vlqGroups_found cont fin rest Hcont Hfin _ [] s Hwf Hdv Hcur Hlen) by lia.
    reflexivity.
  - intros b s' Hr. unfold VlqBase128Be_read. unfold bind at 1. unfold get.
    cbn [vlqGroups Group_b operand app]. unfold bind at 1. rewrite Hr.
    pose proof (readFixed_cases 1 beUint s) as Hc. fold readU1 in Hc.
    rewrite Hr in Hc. split; [reflexivity | apply Hc].
  - intros fields s'. unfold VlqBase128Be_read. unfold bind at 1. unfold get.
    apply vlqGroups_fuel. lia.
Qed.

(** On the bytes [81 48 90]: with assignment semantics the two bytes
    [81 48] are read (they decode to 200); with define semantics the
    loop stops after the first byte. *)
Lemma VlqBase128Be_read_groups_witness :
  VlqBase128Be_read AssignFields (newStream [0x81; 0x48; 0x90] 0)
  = Ok (Some [Some 0x81; Some 0x48]) (set_pos (newStream [0x81; 0x48; 0x90] 0) 2) /\
  VlqBase128Be_read DefineFields (newStream [0x81; 0x48; 0x90] 0)
  = Ok (Some [None]) (set_pos (newStream [0x81; 0x48; 0x90] 0) 1).
Proof.
  destruct (VlqBase128Be_read_groups (newStream [0x81; 0x48; 0x90] 0))
    as (Hassign & Hdefine & _).
  split.
  - refine (Hassign [0x81] 0x48 [0x90] _ _ _ _ _ _).
    + repeat split; cbn; lia.
    + reflexivity.
    + reflexivity.
    + cbn. lia.
    + repeat constructor; lia.
    + lia.
  - refine (proj1 (Hdefine 0x81 (set_pos (newStream [0x81; 0x48; 0x90] 0) 1) _)).
    reflexivity.
Defined.

(** ** MIDI track events *)

(** X24: for an event header byte [h], [eventType()] is [h] with its low
    four bits cleared and [channel()] is those low four bits, so that
    [eventType() + channel() = h]; [channel()] is [undefined] exactly for
    the headers from 240 on, whose event type is 240. *)
Theorem TrackEvent_header_split (h : Z) :
  isByte h ->
  TrackEvent_eventType h = 16 * (h / 16) /\
  (h < 240 -> TrackEvent_channel h = Some (h mod 16)) /\
  (240 <= h -> TrackEvent_channel h = None /\ TrackEvent_eventType h = 240).
Proof.
  intros Hh.
  assert (Hall : (TrackEvent_eventType h =? 16 * (h / 16))
                 && (if h <? 240
                     then match TrackEvent_channel h with
                          | Some c => c =? h mod 16
                          | None => false
                          end
                     else match TrackEvent_channel h with
                          | Some _ => false
                          | None => TrackEvent_eventType h =? 240
                          end) = true).
  { apply (zrange_forallb
             (fun h => (TrackEvent_eventType h =? 16 * (h / 16))
                       && (if h <? 240
                           then match TrackEvent_channel h with
                                | Some c => c =? h mod 16
                                | None => false
                                end
                           else match TrackEvent_channel h with
                                | Some _ => false
                                | None => TrackEvent_eventType h =? 240
                                end)) 0 256);
      [vm_compute; reflexivity | exact Hh]. }
  apply andb_prop in Hall as (Htype & Hchan). apply Z.eqb_eq in Htype.
  split; [exact Htype|].
  destruct (Z.ltb_spec h 240) as [Hlt|Hge]; split; try lia; intros _.
  - destruct (TrackEvent_channel h) as [c|]; [|discriminate].
    apply Z.eqb_eq in Hchan. rewrite Hchan. reflexivity.
  - destruct (TrackEvent_channel h) as [c|]; [discriminate|].
    apply Z.eqb_eq in Hchan. split; [reflexivity | exact Hchan].
Qed.

Lemma TrackEvent_header_split_witness :
  TrackEvent_eventType 0x93 = 16 * (0x93 / 16) /\
  TrackEvent_channel 0x93 = Some (0x93 mod 16).
Proof.
  assert (Hb : isByte 0x93) by (unfold isByte; lia).
  destruct (TrackEvent_header_split 0x93 Hb) as (Ht & Hc & _).
  split; [exact Ht | apply Hc; lia].
Defined.

(** ** Sub-streams over a view *)

(** X25: a sub-stream built with [new KaitaiStream(view)] over the view
    that a read of [n] bytes returns (as [Track.read()] does) is confined
    to those [n] bytes: its size is [n], [readBytesFull()] on it returns
    exactly the bytes the parent read, and no read on it reaches the
    parent's bytes beyond them. *)
Theorem substream_confined (n : Z) (s : KaitaiStream) :
  wellFormed s -> 0 <= n -> pos s + n <= size s ->
  exists view,
    mapUint8ArrayView n s = Ok view (set_pos s (pos s + n)) /\
    mapUint8Array n s = Ok (Uint8Array_contents view) (set_pos s (pos s + n)) /\
    size (newStreamOfView view) = n /\
    readBytesFull (newStreamOfView view)
    = Ok (Uint8Array_contents view) (set_pos (newStreamOfView view) n) /\
    forall m, n < m < 2 ^ 31 ->
              readBytes m (newStreamOfView view)
              = Throw (EOFError m n) (newStreamOfView view).
Proof.
  intros Hwf Hn Hfit. pose proof Hwf as (Hoff & Hpos & Hlen & Hsmall & Hdv).
  assert (Hsz : size s = _byteLength s - _byteOffset s) by reflexivity.
  exists (mkUint8Array (_buffer s) (_byteOffset s + pos s) n).
  set (view := mkUint8Array (_buffer s) (_byteOffset s + pos s) n).
  assert (Hor : Js.or n 0 = n) by (rewrite or_zero; apply toInt32_small; lia).
  assert (Hsub : wellFormed (newStreamOfView view))
    by (repeat split; cbn; lia).
  assert (Hsize : size (newStreamOfView view) = n) by (unfold size; cbn; lia).
  split; [|split; [|split; [|split]]].
  - unfold mapUint8ArrayView. rewrite Hor. unfold bind at 1.
    rewrite (ensureBytesLeft_ok s n Hfit). unfold bind at 1. unfold get.
    rewrite (slice_some (_buffer s) (_byteOffset s + pos s) n) by lia.
    unfold_reader. reflexivity.
  - rewrite (mapUint8Array_exact n s Hwf Hn Hfit). reflexivity.
  - exact Hsize.
  - unfold readBytesFull. unfold_reader. rewrite Hsize.
    change (pos (newStreamOfView view)) with 0. rewrite Z.sub_0_r.
    rewrite (mapUint8Array_exact n (newStreamOfView view) Hsub Hn)
      by (rewrite Hsize; cbn; lia).
    unfold fromCursor, Uint8Array_contents.
    change (pos (newStreamOfView view)) with 0.
    change (_byteOffset (newStreamOfView view)) with (ta_byteOffset view).
    change (_buffer (newStreamOfView view)) with (ta_buffer view).
    rewrite Z.add_0_r, Z.add_0_l. reflexivity.
  - intros m Hm. unfold readBytes.
    pose proof (mapUint8Array_cases m (newStreamOfView view)) as Hc.
    rewrite or_zero, toInt32_small in Hc by lia. cbv zeta in Hc.
    rewrite Hsize in Hc. change (pos (newStreamOfView view)) with 0 in Hc.
    destruct (mapUint8Array m (newStreamOfView view)) as [arr s0|e s0].
    + lia.
    + destruct Hc as (-> & [(-> & _)|(_ & Hle & _)]); [|lia].
      rewrite Z.sub_0_r. reflexivity.
Qed.

Lemma substream_confined_witness :
  exists view,
    mapUint8ArrayView 2 (set_pos (newStream [1; 2; 3; 4; 5] 0) 1)
    = Ok view (set_pos (newStream [1; 2; 3; 4; 5] 0) 3) /\
    readBytesFull (newStreamOfView view)
    = Ok [2; 3] (set_pos (newStreamOfView view) 2).
Proof.
  destruct (substream_confined 2 (set_pos (newStream [1; 2; 3; 4; 5] 0) 1))
    as (view & Hv & Hc & _ & Hfull & _).
  - repeat split; cbn; lia.
  - lia.
  - cbn. lia.
  - exists view. split; [exact Hv|]. rewrite Hfull. f_equal.
    assert (Hview : view = mkUint8Array [1; 2; 3; 4; 5] 1 2).
    { assert (Hrun : mapUint8ArrayView 2 (set_pos (newStream [1; 2; 3; 4; 5] 0) 1)
                     = Ok (mkUint8Array [1; 2; 3; 4; 5] 1 2)
                          (set_pos (newStream [1; 2; 3; 4; 5] 0) 3)) by reflexivity.
      rewrite Hrun in Hv. injection Hv as <-. reflexivity. }
    rewrite Hview. reflexivity.
Defined.

(** ** The Ogg page *)

Lemma io_inv {A} (m : M A) (s s' : KaitaiStream) (a : A) :
  io m s = Parsed a s' -> m s = Ok a s'.
Proof. unfold io. destruct (m s); [intros [= <- <-]; reflexivity | discriminate]. Qed.

Lemma validateEqual_inv (actual expected : list Z) (s s' : KaitaiStream) (u : unit) :
  validateEqual actual expected s = Parsed u s' -> actual = expected /\ s' = s.
Proof.
  unfold validateEqual.
  destruct (Z.eqb_spec (byteArrayCompare actual expected) 0) as [Hz|Hnz];
    cbn [negb]; [|discriminate].
  intros [= _ <-]. split; [apply byteArrayCompare_eq, Hz | reflexivity].
Qed.

Lemma readBytes_inv (n : Z) (s s' : KaitaiStream) (arr : list Z) :
  0 <= n < 2 ^ 31 ->
  readBytes n s = Ok arr s' ->
  s' = set_pos s (pos s + n) /\ Z.of_nat (length arr) = n /\
  slice (_buffer s) (_byteOffset s + pos s) n = Some arr /\
  pos s + n <= size s.
Proof.
  intros Hn Hr. unfold readBytes in Hr.
  pose proof (mapUint8Array_cases n s) as Hc. rewrite Hr in Hc.
  rewrite or_zero, toInt32_small in Hc by lia. cbv zeta in Hc.
  destruct Hc as (Hfit & Hsl & ->).
  split; [reflexivity|]. split; [exact (slice_length _ _ _ _ Hsl)|].
  split; [exact Hsl | exact Hfit].
Qed.

Lemma slice_one (buf : list Z) (start : Z) (arr : list Z) :
  slice buf start 1 = Some arr ->
  exists x, arr = [x] /\ nth_error buf (Z.to_nat start) = Some x.
Proof.
  intros Hsl. pose proof (slice_length _ _ _ _ Hsl) as Hlen.
  destruct arr as [|x [|y arr]]; cbn [length] in Hlen; try lia.
  exists x. split; [reflexivity|].
  unfold slice in Hsl. destruct (_ || _); [discriminate|].
  injection Hsl as Hsl. change (Z.to_nat 1) with 1%nat in Hsl.
  destruct (skipn (Z.to_nat start) buf) as [|y rest] eqn:Hsk; [discriminate|].
  cbn [firstn] in Hsl. injection Hsl as ->.
  rewrite <- (firstn_skipn (Z.to_nat start) buf), Hsk.
  assert (Hn : length (firstn (Z.to_nat start) buf) = Z.to_nat start).
  { rewrite length_firstn. apply Nat.min_l.
    destruct (Nat.le_gt_cases (Z.to_nat start) (length buf)) as [H|H]; [exact H|].
    rewrite skipn_all2 in Hsk by lia. discriminate. }
  rewrite nth_error_app2 by lia. rewrite Hn, Nat.sub_diag. reflexivity.
Qed.

Lemma readU1_inv (s s' : KaitaiStream) (v : Z) :
  Forall isByte (_buffer s) ->
  readU1 s = Ok v s' ->
  isByte v /\ s' = set_pos s (pos s + 1) /\
  nth_error (_buffer s) (Z.to_nat (_dataView s + pos s)) = Some v /\
  pos s + 1 <= size s.
Proof.
  intros Hbuf Hr. apply readFixed_inv in Hr as (Hfit & _ & bytes & Hsl & -> & ->).
  destruct (slice_one _ _ _ Hsl) as (x & -> & Hx).
  pose proof (slice_isByte _ _ _ _ Hbuf Hsl) as Hb. apply Forall_inv in Hb.
  change (beUint [x]) with (0 * 256 + x). rewrite Z.mul_0_l, Z.add_0_l.
  split; [exact Hb | split; [reflexivity | split; [exact Hx | exact Hfit]]].
Qed.

(** A successful read of 1 to 8 bits on an aligned stream takes them
    from the byte at the cursor. *)
Lemma readBitsIntBe_aligned_inv (n : Z) (s s' : KaitaiStream) (v : Z) :
  Forall isByte (_buffer s) -> bitsLeft s = 0 -> bits s = 0 -> 1 <= n <= 8 ->
  readBitsIntBe n s = Ok v s' ->
  exists x,
    isByte x /\
    nth_error (_buffer s) (Z.to_nat (_byteOffset s + pos s)) = Some x /\
    v = x / 2 ^ (8 - n) /\
    s' = set_bits (set_bitsLeft (set_pos s (pos s + 1)) (8 - n)) (x mod 2 ^ (8 - n)).
Proof.
  intros Hbuf Hbl Hbits Hn Hr.
  pose proof (mapUint8Array_cases 1 s) as Hc. cbv zeta in Hc.
  change (Js.or 1 0) with 1 in Hc.
  destruct (mapUint8Array 1 s) as [arr s0|e s0] eqn:Hmap.
  - destruct Hc as (_ & Hsl & ->).
    destruct (slice_one _ _ _ Hsl) as (x & -> & Hx).
    pose proof (slice_isByte _ _ _ _ Hbuf Hsl) as Hb. apply Forall_inv in Hb.
    destruct (readBitsInt_one_byte n x s (set_pos s (pos s + 1)) Hbl Hbits Hn Hb Hmap)
      as (Hbe & _).
    rewrite Hbe in Hr. exists x.
    assert (Hv : v = x / 2 ^ (8 - n)) by congruence.
    assert (Hs : s' = set_bits (set_bitsLeft (set_pos s (pos s + 1)) (8 - n))
                        (x mod 2 ^ (8 - n))) by congruence.
    split; [exact Hb | split; [exact Hx | split; [exact Hv | exact Hs]]].
  - exfalso. revert Hr. unfold readBitsIntBe, borrowBitsBe, readBytes.
    destruct (Z.gtb_spec n 32); [lia|]. unfold bind at 1. unfold bind at 1. unfold get.
    rewrite Hbl, Z.sub_0_r. destruct (Z.gtb_spec n 0); [|lia].
    rewrite (ceilDiv8_one n Hn). unfold bind at 1. rewrite Hmap. discriminate.
Qed.

Lemma readBitsIntBe_held (n : Z) (s : KaitaiStream) :
  0 <= n <= bitsLeft s -> bitsLeft s <= 31 -> 0 <= bits s < 2 ^ bitsLeft s ->
  readBitsIntBe n s
  = Ok (bits s / 2 ^ (bitsLeft s - n))
       (set_bits (set_bitsLeft s (bitsLeft s - n)) (bits s mod 2 ^ (bitsLeft s - n))).
Proof.
  intros Hn Hbl Hbits.
  destruct (extractBits_exact n s Hn Hbl Hbits) as (Hbe & _).
  assert (Hno : (n - bitsLeft s >? 0) = false)
    by (destruct (Z.gtb_spec (n - bitsLeft s) 0); [lia | reflexivity]).
  assert (Hn32 : (n >? 32) = false)
    by (destruct (Z.gtb_spec n 32); [lia | reflexivity]).
  unfold readBitsIntBe, borrowBitsBe. rewrite Hn32. unfold bind at 1.
  unfold bind at 1. unfold get. rewrite Hno. unfold ret at 1. exact Hbe.
Qed.

(** The three flag reads after the 5 reserved bits take bits 2, 1 and 0
    of the flag byte. *)
Lemma flag_bits (x : Z) :
  isByte x ->
  negb ((x mod 2 ^ 3) / 2 ^ 2 =? 0) = Z.testbit x 2 /\
  negb ((x mod 2 ^ 3) mod 2 ^ 2 / 2 ^ 1 =? 0) = Z.testbit x 1 /\
  negb (((x mod 2 ^ 3) mod 2 ^ 2) mod 2 ^ 1 / 2 ^ 0 =? 0) = Z.testbit x 0.
Proof.
  intros Hx.
  assert (Hall : Bool.eqb (negb ((x mod 2 ^ 3) / 2 ^ 2 =? 0)) (Z.testbit x 2)
                 && Bool.eqb (negb ((x mod 2 ^ 3) mod 2 ^ 2 / 2 ^ 1 =? 0)) (Z.testbit x 1)
                 && Bool.eqb (negb (((x mod 2 ^ 3) mod 2 ^ 2) mod 2 ^ 1 / 2 ^ 0 =? 0))
                      (Z.testbit x 0) = true).
  { apply (zrange_forallb
             (fun x => Bool.eqb (negb ((x mod 2 ^ 3) / 2 ^ 2 =? 0)) (Z.testbit x 2)
                       && Bool.eqb (negb ((x mod 2 ^ 3) mod 2 ^ 2 / 2 ^ 1 =? 0))
                            (Z.testbit x 1)
                       && Bool.eqb (negb (((x mod 2 ^ 3) mod 2 ^ 2) mod 2 ^ 1 / 2 ^ 0 =? 0))
                            (Z.testbit x 0)) 0 256);
      [vm_compute; reflexivity | exact Hx]. }
  apply andb_prop in Hall as (Hall & H0). apply andb_prop in Hall as (H2 & H1).
  repeat split; apply Bool.eqb_prop; assumption.
Qed.

Lemma readLenSegments_inv (count : nat) :
  forall s s' l,
    Forall isByte (_buffer s) -> pos s <= size s ->
    readLenSegments count s = Ok l s' ->
    length l = count /\ Forall isByte l /\
    s' = set_pos s (pos s + Z.of_nat count) /\
    pos s + Z.of_nat count <= size s.
Proof.
  induction count as [|count IH]; intros s s' l Hbuf Hfit; cbn [readLenSegments].
  - unfold ret. intros [= <- <-]. split; [reflexivity|]. split; [constructor|].
    split; [|lia]. destruct s; unfold set_pos; cbn. f_equal. lia.
  - unfold bind at 1. destruct (readU1 s) as [x s1|e s1] eqn:H1; [|discriminate].
    destruct (readU1_inv s s1 x Hbuf H1) as (Hx & -> & _ & Hfit1).
    unfold bind at 1.
    destruct (readLenSegments count (set_pos s (pos s + 1))) as [rest s2|e s2] eqn:H2;
      [|discriminate].
    destruct (IH (set_pos s (pos s + 1)) _ _ Hbuf Hfit1 H2)
      as (Hlen & Hrest & -> & Hfit2).
    change (size (set_pos s (pos s + 1))) with (size s) in Hfit2.
    change (pos (set_pos s (pos s + 1))) with (pos s + 1) in Hfit2.
    unfold ret. intros [= <- <-]. split; [|split; [|split]].
    + cbn [length]. rewrite Hlen. reflexivity.
    + constructor; assumption.
    + unfold set_pos. cbn. f_equal. lia.
    + lia.
Qed.

Lemma skipn_nth_cons (l : list Z) (i : nat) :
  (i < length l)%nat -> skipn i l = nth i l 0 :: skipn (S i) l.
Proof.
  revert i. induction l as [|x l IH]; intros i Hi; [cbn in Hi; lia|].
  destruct i as [|i]; [reflexivity|]. cbn [length] in Hi.
  change (skipn (S i) (x :: l)) with (skipn i l).
  change (nth (S i) (x :: l) 0) with (nth i l 0).
  change (skipn (S (S i)) (x :: l)) with (skipn (S i) l).
  apply IH. lia.
Qed.

Lemma readSegments_inv (count : nat) :
  forall i lens s s' segs,
    Forall isByte lens -> 0 <= i ->
    (Z.to_nat i + count = length lens)%nat ->
    pos s <= size s ->
    readSegments count i lens s = Ok segs s' ->
    Forall2 (fun seg len => Z.of_nat (length seg) = len) segs (skipn (Z.to_nat i) lens) /\
    s' = set_pos s (pos s + fold_right Z.add 0 (skipn (Z.to_nat i) lens)) /\
    pos s + fold_right Z.add 0 (skipn (Z.to_nat i) lens) <= size s.
Proof.
  induction count as [|count IH]; intros i lens s s' segs Hlens Hi Hcount Hfit;
    cbn [readSegments].
  - unfold ret. intros [= <- <-]. rewrite skipn_all2 by lia. split; [constructor|].
    cbn [fold_right]. split; [|lia]. destruct s; unfold set_pos; cbn. f_equal. lia.
  - unfold bind at 1.
    destruct (readBytes (nth (Z.to_nat i) lens 0) s) as [seg s1|e s1] eqn:H1;
      [|discriminate].
    pose proof (Forall_isByte_nth lens (Z.to_nat i) Hlens) as Hlen.
    assert (Hrange : 0 <= nth (Z.to_nat i) lens 0 < 2 ^ 31)
      by (unfold isByte in Hlen; lia).
    destruct (readBytes_inv _ s s1 seg Hrange H1) as (-> & Hseg & _ & Hfit1).
    unfold bind at 1.
    destruct (readSegments count (i + 1) lens (set_pos s (pos s + nth (Z.to_nat i) lens 0)))
      as [rest s2|e s2] eqn:H2; [|discriminate].
    assert (Hi' : 0 <= i + 1) by lia.
    assert (Hcount' : (Z.to_nat (i + 1) + count = length lens)%nat) by lia.
    destruct (IH (i + 1) lens (set_pos s (pos s + nth (Z.to_nat i) lens 0)) _ _
                Hlens Hi' Hcount' Hfit1 H2) as (Hrest & -> & Hfit2).
    change (size (set_pos s (pos s + nth (Z.to_nat i) lens 0))) with (size s) in Hfit2.
    change (pos (set_pos s (pos s + nth (Z.to_nat i) lens 0)))
      with (pos s + nth (Z.to_nat i) lens 0) in Hfit2.
    unfold ret. intros [= <- <-].
    rewrite (skipn_nth_cons lens (Z.to_nat i)) by lia.
    replace (Z.to_nat (i + 1)) with (S (Z.to_nat i)) in * by lia.
    split; [constructor; assumption|].
    cbn [fold_right]. split; [|lia]. unfold set_pos. cbn. f_equal. lia.
Qed.

Lemma pbind_inv {A B} (m : P A) (k : A -> P B) (s s' : KaitaiStream) (b : B) :
  pbind m k s = Parsed b s' ->
  exists a s1, m s = Parsed a s1 /\ k a s1 = Parsed b s'.
Proof.
  unfold pbind. destruct (m s) as [a s1|e s1]; [|discriminate].
  intros Hk. exists a, s1. split; [reflexivity | exact Hk].
Qed.

Lemma readU8le_inv (s s' : KaitaiStream) (v : Z) :
  readU8le s = Ok v s' -> s' = set_pos s (pos s + 8).
Proof.
  intros Hr.
  destruct (read8_readsWidth leUint leUint (fun v1 v2 => ret (combineU8 v2 v1)) s)
    as (Hw & _).
  - intros v1 v2 s0. eexists. reflexivity.
  - exact (proj1 (Hw v s' Hr)).
Qed.

Lemma readU4le_inv (s s' : KaitaiStream) (v : Z) :
  readU4le s = Ok v s' -> s' = set_pos s (pos s + 4).
Proof.
  intros Hr. apply readFixed_inv in Hr as (_ & _ & bytes & _ & _ & ->). reflexivity.
Qed.

(** Streams in normal form: the record with its six fields. *)
Ltac norm_state :=
  unfold size, set_pos, set_bits, set_bitsLeft in *;
  cbn [_buffer _byteOffset _byteLength bitsLeft bits pos] in *.

(** What a successful [Page.read] has read. *)
Lemma Page_read_inv (s s' : KaitaiStream) (page : Page) :
  Forall isByte (_buffer s) -> bitsLeft s = 0 -> bits s = 0 ->
  Page_read s = Parsed page s' ->
  syncCode page = [79; 103; 103; 83] /\
  slice (_buffer s) (_byteOffset s + pos s) 4 = Some [79; 103; 103; 83] /\
  version page = [0] /\
  (exists f,
      nth_error (_buffer s) (Z.to_nat (_byteOffset s + (pos s + 4 + 1))) = Some f /\
      reserved1 page = f / 8 /\
      isEndOfStream page = Z.testbit f 2 /\
      isBeginningOfStream page = Z.testbit f 1 /\
      isContinuation page = Z.testbit f 0) /\
  isByte (numSegments page) /\
  Z.of_nat (length (lenSegments page)) = numSegments page /\
  Forall isByte (lenSegments page) /\
  Forall2 (fun seg len => Z.of_nat (length seg) = len)
          (segments page) (lenSegments page) /\
  s' = set_pos s (pos s + Page_byteLength page) /\
  pos s + Page_byteLength page <= size s.
Proof.
  intros Hbuf Hbl Hbits Hr. unfold Page_read in Hr.
  destruct s as [buf off blen bl b p].
  cbn [_buffer bitsLeft bits] in Hbuf, Hbl, Hbits. subst bl b.
  apply pbind_inv in Hr as (sync & s1 & H1 & Hr). apply io_inv in H1.
  apply readBytes_inv in H1 as (-> & _ & Hsync & _); [|lia]. norm_state.
  apply pbind_inv in Hr as (u2 & s2 & H2 & Hr).
  apply validateEqual_inv in H2 as (-> & ->).
  apply pbind_inv in Hr as (u3 & s3 & H3 & Hr).
  apply validateEqual_inv in H3 as (_ & ->).
  apply pbind_inv in Hr as (ver & s4 & H4 & Hr). apply io_inv in H4.
  apply readBytes_inv in H4 as (-> & _ & _ & _); [|lia]. norm_state.
  apply pbind_inv in Hr as (u5 & s5 & H5 & Hr).
  apply validateEqual_inv in H5 as (-> & ->).
  apply pbind_inv in Hr as (r1 & s6 & H6 & Hr). apply io_inv in H6.
  apply readBitsIntBe_aligned_inv in H6 as (f & Hf & Hnth & -> & ->);
    [| exact Hbuf | reflexivity | reflexivity | lia].
  norm_state. change (8 - 5) with 3 in Hr.
  apply pbind_inv in Hr as (eos & s7 & H7 & Hr). apply io_inv in H7.
  rewrite readBitsIntBe_held in H7;
    [| norm_state; lia | norm_state; lia | norm_state; apply Z.mod_pos_bound; lia].
  injection H7 as <- <-. norm_state. change (3 - 1) with 2 in Hr.
  apply pbind_inv in Hr as (bos & s8 & H8 & Hr). apply io_inv in H8.
  rewrite readBitsIntBe_held in H8;
    [| norm_state; lia | norm_state; lia | norm_state; apply Z.mod_pos_bound; lia].
  injection H8 as <- <-. norm_state. change (2 - 1) with 1 in Hr.
  apply pbind_inv in Hr as (cont & s9 & H9 & Hr). apply io_inv in H9.
  rewrite readBitsIntBe_held in H9;
    [| norm_state; lia | norm_state; lia | norm_state; apply Z.mod_pos_bound; lia].
  injection H9 as <- <-. norm_state. change (1 - 1) with 0 in Hr.
  apply pbind_inv in Hr as (u10 & s10 & H10 & Hr). apply io_inv in H10.
  unfold modify, alignToByte in H10. injection H10 as _ <-. norm_state.
  apply pbind_inv in Hr as (gp & s11 & H11 & Hr). apply io_inv in H11.
  apply readU8le_inv in H11 as ->. norm_state.
  apply pbind_inv in Hr as (bs & s12 & H12 & Hr). apply io_inv in H12.
  apply readU4le_inv in H12 as ->. norm_state.
  apply pbind_inv in Hr as (psn & s13 & H13 & Hr). apply io_inv in H13.
  apply readU4le_inv in H13 as ->. norm_state.
  apply pbind_inv in Hr as (crc & s14 & H14 & Hr). apply io_inv in H14.
  apply readU4le_inv in H14 as ->. norm_state.
  apply pbind_inv in Hr as (ns & s15 & H15 & Hr). apply io_inv in H15.
  apply readU1_inv in H15 as (Hns & -> & _ & Hfit15); [|exact Hbuf]. norm_state.
  apply pbind_inv in Hr as (lens & s16 & H16 & Hr). apply io_inv in H16.
  apply readLenSegments_inv in H16 as (Hlen & Hlens & -> & Hfit16);
    [| exact Hbuf | norm_state; lia].
  norm_state.
  apply pbind_inv in Hr as (segs & s17 & H17 & Hr). apply io_inv in H17.
  apply readSegments_inv in H17 as (Hsegs & -> & Hfit17);
    [| exact Hlens | lia | rewrite Hlen; reflexivity | norm_state; lia].
  change (skipn (Z.to_nat 0) lens) with lens in *. norm_state.
  unfold pret in Hr. injection Hr as <- <-.
  unfold Page_byteLength.
  cbn [syncCode version reserved1 isEndOfStream isBeginningOfStream isContinuation
       numSegments lenSegments segments].
  destruct (flag_bits f Hf) as (F2 & F1 & F0).
  split; [reflexivity|]. split; [exact Hsync|]. split; [reflexivity|].
  split.
  { exists f. split; [exact Hnth|].
    split; [reflexivity|]. split; [exact F2|]. split; [exact F1 | exact F0]. }
  unfold isByte in Hns.
  split; [unfold isByte; exact Hns|]. split; [lia|].
  split; [exact Hlens|]. split; [exact Hsegs|].
  split; [f_equal; lia | lia].
Qed.

(** X26: a page that [Page.read] accepts, read on a stream of bytes with
    no bits held, starts with the bytes "OggS" and a version byte 0; its
    flags are the low three bits of the byte after them and [reserved1]
    the high five; [lenSegments] has [numSegments] entries, at most 255,
    and every segment has the length its entry gives; the cursor ends
    27 + numSegments + the sum of the lengths further, inside the
    stream, with no bits held. *)
Theorem Page_read_layout (s s' : KaitaiStream) (page : Page) :
  Forall isByte (_buffer s) -> bitsLeft s = 0 -> bits s = 0 ->
  Page_read s = Parsed page s' ->
  syncCode page = [79; 103; 103; 83] /\
  slice (_buffer s) (_byteOffset s + pos s) 4 = Some [79; 103; 103; 83] /\
  version page = [0] /\
  (exists f,
      nth_error (_buffer s) (Z.to_nat (_byteOffset s + (pos s + 4 + 1))) = Some f /\
      reserved1 page = f / 8 /\
      isEndOfStream page = Z.testbit f 2 /\
      isBeginningOfStream page = Z.testbit f 1 /\
      isContinuation page = Z.testbit f 0) /\
  isByte (numSegments page) /\
  Z.of_nat (length (lenSegments page)) = numSegments page /\
  Forall isByte (lenSegments page) /\
  Forall2 (fun seg len => Z.of_nat (length seg) = len)
          (segments page) (lenSegments page) /\
  s' = set_pos s (pos s + Page_byteLength page) /\
  pos s + Page_byteLength page <= size s.
Proof. exact (Page_read_inv s s' page). Qed.

Lemma Page_read_layout_witness :
  Page_read (newStream [79; 103; 103; 83; 0; 6; 1; 0; 0; 0; 0; 0; 0; 0;
                        2; 0; 0; 0; 3; 0; 0; 0; 4; 0; 0; 0; 2; 1; 2;
                        0xAA; 0xBB; 0xCC; 0xDD] 0)
  = Parsed (mkPage [79; 103; 103; 83] [0] 0 true true false 1 2 3 4 2 [1; 2]
                   [[0xAA]; [0xBB; 0xCC]])
           (set_pos (newStream [79; 103; 103; 83; 0; 6; 1; 0; 0; 0; 0; 0; 0; 0;
                                2; 0; 0; 0; 3; 0; 0; 0; 4; 0; 0; 0; 2; 1; 2;
                                0xAA; 0xBB; 0xCC; 0xDD] 0) 32) /\
  set_pos (newStream [79; 103; 103; 83; 0; 6; 1; 0; 0; 0; 0; 0; 0; 0;
                      2; 0; 0; 0; 3; 0; 0; 0; 4; 0; 0; 0; 2; 1; 2;
                      0xAA; 0xBB; 0xCC; 0xDD] 0) 32
  = set_pos (newStream [79; 103; 103; 83; 0; 6; 1; 0; 0; 0; 0; 0; 0; 0;
                        2; 0; 0; 0; 3; 0; 0; 0; 4; 0; 0; 0; 2; 1; 2;
                        0xAA; 0xBB; 0xCC; 0xDD] 0)
            (0 + Page_byteLength
                   (mkPage [79; 103; 103; 83] [0] 0 true true false 1 2 3 4 2 [1; 2]
                           [[0xAA]; [0xBB; 0xCC]])).
Proof.
  assert (Hrun :
    Page_read (newStream [79; 103; 103; 83; 0; 6; 1; 0; 0; 0; 0; 0; 0; 0;
                          2; 0; 0; 0; 3; 0; 0; 0; 4; 0; 0; 0; 2; 1; 2;
                          0xAA; 0xBB; 0xCC; 0xDD] 0)
    = Parsed (mkPage [79; 103; 103; 83] [0] 0 true true false 1 2 3 4 2 [1; 2]
                     [[0xAA]; [0xBB; 0xCC]])
             (set_pos (newStream [79; 103; 103; 83; 0; 6; 1; 0; 0; 0; 0; 0; 0; 0;
                                  2; 0; 0; 0; 3; 0; 0; 0; 4; 0; 0; 0; 2; 1; 2;
                                  0xAA; 0xBB; 0xCC; 0xDD] 0) 32))
    by (vm_compute; reflexivity).
  split; [exact Hrun|].
  refine (proj1 (proj2 (proj2 (proj2 (proj2 (proj2 (proj2 (proj2 (proj2
            (Page_read_layout _ _ _ _ _ _ Hrun)))))))))).
  - repeat constructor; unfold isByte; lia.
  - reflexivity.
  - reflexivity.
Defined.

(** ** The Ogg stream *)

Lemma sum_bytes_nonneg (l : list Z) : Forall isByte l -> 0 <= fold_right Z.add 0 l.
Proof.
  induction 1 as [|x l Hx _ IH]; cbn [fold_right]; [lia|]. unfold isByte in Hx. lia.
Qed.

Lemma oggPages_inv (fuel : nat) :
  forall acc s,
    Forall isByte (_buffer s) -> bitsLeft s = 0 -> bits s = 0 ->
    (Z.to_nat (size s - pos s) < fuel)%nat ->
    (forall s', oggPages fuel acc s <> Parsed None s') /\
    (forall pages s',
        oggPages fuel acc s = Parsed (Some pages) s' ->
        exists new,
          pages = acc ++ new /\
          Forall (fun p => syncCode p = [79; 103; 103; 83] /\ 27 <= Page_byteLength p) new /\
          s' = set_pos s (pos s + pagesByteLength new) /\
          size s <= pos s' /\
          (pos s <= size s -> pos s' = size s)).
Proof.
  induction fuel as [|fuel IH]; intros acc s Hbuf Hbl Hbits Hfuel; [lia|].
  cbn [oggPages]. unfold isEof. rewrite Hbl, Z.eqb_refl, Bool.andb_true_r.
  destruct (Z.leb_spec (size s) (pos s)) as [Heof|Hmore].
  - split; [intros s'; discriminate|].
    intros pages s' [= <- <-]. exists []. rewrite app_nil_r.
    split; [reflexivity|]. split; [constructor|].
    split; [|split; [exact Heof | lia]].
    cbn [pagesByteLength fold_right]. destruct s; unfold set_pos; cbn. f_equal. lia.
  - unfold pbind at 1 2.
    destruct (Page_read s) as [page s1|e s1] eqn:Hpage;
      [|split; [intros s' | intros pages s']; discriminate].
    destruct (Page_read_inv s s1 page Hbuf Hbl Hbits Hpage)
      as (Hsync & _ & _ & _ & Hns & _ & Hlens & _ & -> & Hfit).
    assert (Hlen : 27 <= Page_byteLength page).
    { unfold Page_byteLength. pose proof (sum_bytes_nonneg _ Hlens).
      unfold isByte in Hns. lia. }
    assert (Hfuel' : (Z.to_nat (size (set_pos s (pos s + Page_byteLength page))
                                - pos (set_pos s (pos s + Page_byteLength page))) < fuel)%nat).
    { change (size (set_pos s (pos s + Page_byteLength page))) with (size s).
      change (pos (set_pos s (pos s + Page_byteLength page)))
        with (pos s + Page_byteLength page). lia. }
    destruct (IH (acc ++ [page]) (set_pos s (pos s + Page_byteLength page))
                 Hbuf Hbl Hbits Hfuel') as (Hnone & Hsome).
    split; [exact Hnone|].
    intros pages s' Hr. destruct (Hsome pages s' Hr) as (new & -> & Hnew & -> & Hend & Htile).
    change (size (set_pos s (pos s + Page_byteLength page))) with (size s) in *.
    change (pos (set_pos s (pos s + Page_byteLength page)))
      with (pos s + Page_byteLength page) in *.
    exists (page :: new). rewrite <- app_assoc.
    split; [reflexivity|]. split; [constructor; [split; assumption | exact Hnew]|].
    split; [|split; [exact Hend | intros _; apply Htile, Hfit]].
    cbn [pagesByteLength fold_right]. unfold set_pos. cbn. f_equal.
    fold (pagesByteLength new). lia.
Qed.

(** X27: [Ogg.read()] on a stream of bytes with no bits held.  Its loop
    ends (every page takes at least 27 bytes, so it never needs more
    iterations than there are unread bytes plus one), and when it
    returns, every page starts with "OggS", the pages lie one after the
    other from the cursor on, and together they take exactly the unread
    bytes: nothing is left over. *)
Theorem Ogg_read_pages (s : KaitaiStream) :
  Forall isByte (_buffer s) -> bitsLeft s = 0 -> bits s = 0 ->
  (forall s', Ogg_read s <> Parsed None s') /\
  (forall pages s',
      Ogg_read s = Parsed (Some pages) s' ->
      Forall (fun p => syncCode p = [79; 103; 103; 83] /\ 27 <= Page_byteLength p) pages /\
      s' = set_pos s (pos s + pagesByteLength pages) /\
      isEof s' = true /\
      (pos s <= size s -> pagesByteLength pages = size s - pos s)).
Proof.
  intros Hbuf Hbl Hbits. unfold Ogg_read.
  destruct (oggPages_inv (S (Z.to_nat (size s - pos s))) [] s Hbuf Hbl Hbits)
    as (Hnone & Hsome); [lia|].
  split; [exact Hnone|].
  intros pages s' Hr. destruct (Hsome pages s' Hr) as (new & -> & Hnew & -> & Hend & Htile).
  cbn [app]. split; [exact Hnew|]. split; [reflexivity|]. split.
  - unfold isEof. change (bitsLeft (set_pos s (pos s + pagesByteLength new)))
      with (bitsLeft s). rewrite Hbl, Z.eqb_refl, Bool.andb_true_r.
    change (size (set_pos s (pos s + pagesByteLength new))) with (size s) in *.
    apply Z.leb_le, Hend.
  - intros Hpos. specialize (Htile Hpos).
    change (pos (set_pos s (pos s + pagesByteLength new)))
      with (pos s + pagesByteLength new) in Htile. lia.
Qed.

Lemma Ogg_read_pages_witness :
  Ogg_read (newStream [79; 103; 103; 83; 0; 2; 1; 0; 0; 0; 0; 0; 0; 0;
                       2; 0; 0; 0; 0; 0; 0; 0; 4; 0; 0; 0; 2; 1; 2;
                       0xAA; 0xBB; 0xCC;
                       79; 103; 103; 83; 0; 4; 9; 0; 0; 0; 0; 0; 0; 0;
                       2; 0; 0; 0; 1; 0; 0; 0; 5; 0; 0; 0; 0] 0)
  = Parsed (Some [mkPage [79; 103; 103; 83] [0] 0 false true false 1 2 0 4 2 [1; 2]
                         [[0xAA]; [0xBB; 0xCC]];
                  mkPage [79; 103; 103; 83] [0] 0 true false false 9 2 1 5 0 [] []])
           (set_pos (newStream [79; 103; 103; 83; 0; 2; 1; 0; 0; 0; 0; 0; 0; 0;
                                2; 0; 0; 0; 0; 0; 0; 0; 4; 0; 0; 0; 2; 1; 2;
                                0xAA; 0xBB; 0xCC;
                                79; 103; 103; 83; 0; 4; 9; 0; 0; 0; 0; 0; 0; 0;
                                2; 0; 0; 0; 1; 0; 0; 0; 5; 0; 0; 0; 0] 0) 59) /\
  pagesByteLength
    [mkPage [79; 103; 103; 83] [0] 0 false true false 1 2 0 4 2 [1; 2]
            [[0xAA]; [0xBB; 0xCC]];
     mkPage [79; 103; 103; 83] [0] 0 true false false 9 2 1 5 0 [] []]
  = 59 - 0.
Proof.
  assert (Hrun :
    Ogg_read (newStream [79; 103; 103; 83; 0; 2; 1; 0; 0; 0; 0; 0; 0; 0;
                         2; 0; 0; 0; 0; 0; 0; 0; 4; 0; 0; 0; 2; 1; 2;
                         0xAA; 0xBB; 0xCC;
                         79; 103; 103; 83; 0; 4; 9; 0; 0; 0; 0; 0; 0; 0;
                         2; 0; 0; 0; 1; 0; 0; 0; 5; 0; 0; 0; 0] 0)
    = Parsed (Some [mkPage [79; 103; 103; 83] [0] 0 false true false 1 2 0 4 2 [1; 2]
                           [[0xAA]; [0xBB; 0xCC]];
                    mkPage [79; 103; 103; 83] [0] 0 true false false 9 2 1 5 0 [] []])
             (set_pos (newStream [79; 103; 103; 83; 0; 2; 1; 0; 0; 0; 0; 0; 0; 0;
                                  2; 0; 0; 0; 0; 0; 0; 0; 4; 0; 0; 0; 2; 1; 2;
                                  0xAA; 0xBB; 0xCC;
                                  79; 103; 103; 83; 0; 4; 9; 0; 0; 0; 0; 0; 0; 0;
                                  2; 0; 0; 0; 1; 0; 0; 0; 5; 0; 0; 0; 0] 0) 59))
    by (vm_compute; reflexivity).
  split; [exact Hrun|].
  refine (proj2 (proj2 (proj2 (proj2 (Ogg_read_pages _ _ _ _) _ _ Hrun))) _).
  - repeat constructor; unfold isByte; lia.
  - reflexivity.
  - reflexivity.
  - vm_compute. discriminate.
Defined.

(** ** The MIDI file header *)

Lemma ensureFixedContents_inv (expected actual : list Z) (s s' : KaitaiStream) :
  Z.of_nat (length expected) < 2 ^ 31 ->
  ensureFixedContents expected s = Ok actual s' ->
  actual = expected /\
  s' = set_pos s (pos s + Z.of_nat (length expected)) /\
  pos s + Z.of_nat (length expected) <= size s /\
  slice (_buffer s) (_byteOffset s + pos s) (Z.of_nat (length expected)) = Some expected.
Proof.
  intros Hlen. unfold ensureFixedContents. unfold bind at 1.
  destruct (readBytes (Z.of_nat (length expected)) s) as [arr s1|e s1] eqn:Hr;
    [|discriminate].
  apply readBytes_inv in Hr as (-> & Harr & Hsl & Hfit); [|lia].
  rewrite Harr, Z.eqb_refl. cbn [negb].
  destruct (contentsDiffer arr expected) eqn:Hd; [discriminate|].
  unfold ret. intros [= <- <-].
  apply contentsDiffer_false in Hd; [|lia]. subst arr.
  repeat split; assumption.
Qed.

Lemma ensureFixedContents_ok (expected : list Z) (s : KaitaiStream) :
  wellFormed s -> pos s + Z.of_nat (length expected) <= size s ->
  firstn (length expected) (fromCursor s) = expected ->
  ensureFixedContents expected s
  = Ok expected (set_pos s (pos s + Z.of_nat (length expected))).
Proof.
  intros Hwf Hfit Hcur. unfold ensureFixedContents, readBytes. unfold bind at 1.
  pose proof Hwf as (Hoff & Hpos & Hlen & Hsmall & Hdv).
  assert (Hsz : size s = _byteLength s - _byteOffset s) by reflexivity.
  rewrite (mapUint8Array_exact _ s Hwf) by lia.
  rewrite Nat2Z.id, Hcur, Z.eqb_refl. cbn [negb].
  rewrite (proj2 (contentsDiffer_false expected expected eq_refl) eq_refl).
  reflexivity.
Qed.

Lemma readFixed_at (n k : Z) (decode : list Z -> Z) (s : KaitaiStream) :
  wellFormed s -> dataViewAligned s -> 0 <= k -> 0 <= n -> pos s + k + n <= size s ->
  readFixed n decode (set_pos s (pos s + k))
  = Ok (decode (firstn (Z.to_nat n) (skipn (Z.to_nat k) (fromCursor s))))
       (set_pos s (pos s + (k + n))).
Proof.
  intros Hwf Hdv Hk Hn Hfit. pose proof Hwf as (Hoff & Hpos & _).
  rewrite readFixed_exact;
    [| apply wellFormed_set_pos; [exact Hwf | lia] | exact Hn
     | change (pos (set_pos s (pos s + k))) with (pos s + k);
       change (size (set_pos s (pos s + k))) with (size s); lia].
  rewrite (fromDataView_aligned _ (dataViewAligned_set_pos s _ Hdv)).
  rewrite (fromCursor_set_pos s k Hwf Hk).
  unfold set_pos. cbn [_buffer _byteOffset _byteLength bitsLeft bits pos _dataView].
  do 2 f_equal. lia.
Qed.

(** X28: [Header.read()] on a well-formed stream whose [DataView]
    starts at [_byteOffset] (every stream but one built from a view
    together with a [byteOffset]) succeeds exactly when 14 bytes are left
    and the first four are "MThd"; it then returns the header these 14
    bytes denote and advances the cursor by 14, whatever the
    [headerLength] field says. *)
Theorem Header_read_layout (s : KaitaiStream) :
  wellFormed s -> dataViewAligned s ->
  (pos s + 14 <= size s -> firstn 4 (fromCursor s) = [77; 84; 104; 100] ->
   Header_read s
   = Ok (headerOfBytes (firstn 14 (fromCursor s))) (set_pos s (pos s + 14))) /\
  (forall h s',
      Header_read s = Ok h s' ->
      pos s + 14 <= size s /\ firstn 4 (fromCursor s) = [77; 84; 104; 100]).
Proof.
  intros Hwf Haligned. pose proof Hwf as (Hoff & Hpos & Hlen & Hsmall & Hdv).
  assert (Hsz : size s = _byteLength s - _byteOffset s) by reflexivity.
  split.
  - intros Hfit Hmagic. unfold Header_read, readU4be, readU2be, readS2be.
    unfold bind at 1.
    rewrite (ensureFixedContents_ok [77; 84; 104; 100] s Hwf) by (cbn [length]; try lia; exact Hmagic).
    change (Z.of_nat (length [77; 84; 104; 100])) with 4.
    unfold bind at 1. rewrite (readFixed_at 4 4) by (try exact Hwf; try exact Haligned; lia).
    unfold bind at 1. rewrite (readFixed_at 2 (4 + 4)) by (try exact Hwf; try exact Haligned; lia).
    unfold bind at 1. rewrite (readFixed_at 2 (4 + 4 + 2)) by (try exact Hwf; try exact Haligned; lia).
    unfold bind at 1. rewrite (readFixed_at 2 (4 + 4 + 2 + 2)) by (try exact Hwf; try exact Haligned; lia).
    unfold ret, headerOfBytes.
    change (Z.to_nat 4) with 4%nat. change (Z.to_nat 2) with 2%nat.
    change (Z.to_nat (4 + 4)) with 8%nat. change (Z.to_nat (4 + 4 + 2)) with 10%nat.
    change (Z.to_nat (4 + 4 + 2 + 2)) with 12%nat.
    change (4 + 4 + 2 + 2 + 2) with 14.
    assert (Hsub : forall a b : nat,
               (a + b <= 14)%nat ->
               firstn b (skipn a (firstn 14 (fromCursor s)))
               = firstn b (skipn a (fromCursor s))).
    { intros a b Hab. rewrite skipn_firstn_comm, firstn_firstn.
      f_equal. lia. }
    rewrite (Hsub 4 4)%nat, (Hsub 8 2)%nat, (Hsub 10 2)%nat, (Hsub 12 2)%nat by lia.
    rewrite firstn_firstn. change (Nat.min 4 14) with 4%nat. rewrite Hmagic.
    reflexivity.
  - intros h s'. unfold Header_read, readU4be, readU2be, readS2be.
    unfold bind at 1.
    destruct (ensureFixedContents [77; 84; 104; 100] s) as [m s1|e s1] eqn:H1;
      [|discriminate].
    apply ensureFixedContents_inv in H1 as (-> & -> & Hfit1 & Hsl); [|cbn; lia].
    change (Z.of_nat (length [77; 84; 104; 100])) with 4 in *.
    rewrite slice_some in Hsl by lia. injection Hsl as Hsl.
    unfold bind at 1.
    destruct (readFixed 4 beUint (set_pos s (pos s + 4))) as [v2 s2|e s2] eqn:H2;
      [|discriminate].
    apply readFixed_inv in H2 as (_ & _ & _ & _ & _ & ->).
    unfold bind at 1.
    destruct (readFixed 2 beUint _) as [v3 s3|e s3] eqn:H3; [|discriminate].
    apply readFixed_inv in H3 as (_ & _ & _ & _ & _ & ->).
    unfold bind at 1.
    destruct (readFixed 2 beUint _) as [v4 s4|e s4] eqn:H4; [|discriminate].
    apply readFixed_inv in H4 as (_ & _ & _ & _ & _ & ->).
    unfold bind at 1.
    destruct (readFixed 2 _ _) as [v5 s5|e s5] eqn:H5; [|discriminate].
    apply readFixed_inv in H5 as (Hfit5 & _).
    intros _. split; [|exact Hsl].
    unfold size, set_pos in Hfit5.
    cbn [_buffer _byteOffset _byteLength bitsLeft bits pos] in Hfit5. lia.
Qed.

Lemma Header_read_layout_witness :
  Header_read (newStream [77; 84; 104; 100; 0; 0; 0; 6; 0; 1; 0; 2; 0xFF; 0x88; 9] 0)
  = Ok (mkHeader [77; 84; 104; 100] 6 1 2 (-120))
       (set_pos (newStream [77; 84; 104; 100; 0; 0; 0; 6; 0; 1; 0; 2; 0xFF; 0x88; 9] 0) 14).
Proof.
  refine (proj1 (Header_read_layout
                   (newStream [77; 84; 104; 100; 0; 0; 0; 6; 0; 1; 0; 2; 0xFF; 0x88; 9] 0)
                   _ _) _ _).
  - repeat split; cbn; lia.
  - reflexivity.
  - cbn. lia.
  - reflexivity.
Defined.

(** On a stream built from a view together with a [byteOffset] the magic
    is compared at [_byteOffset + pos], but the numbers are decoded
    through the [DataView], which starts [byteOffset] bytes earlier: here
    [headerLength] is read from the magic's own bytes. *)
Example Header_read_view_with_offset :
  let s := newStreamOfViewAt
             (mkUint8Array [0; 0; 0; 0; 77; 84; 104; 100; 0; 0; 0; 6; 0; 1; 0; 2; 0; 96]
                           0 18) 4 in
  Header_read s
  = Ok (mkHeader [77; 84; 104; 100] 0x4D546864 0 6 1) (set_pos s 14).
Proof. reflexivity. Qed.
